(** * SupportingFunctions.py: Fourier operators, encode/decode, the knee
      dataset and its sampling masks, the Gaussian kernel, the channel
      conversions, the loaders, the NMSE metric and the MOI loss.

    Tensors are modelled as a shape together with an index function.
    Tensor entries are ideal real and complex numbers: the arithmetic of
    [torch] is taken without rounding, and what is proved of the values of
    tensors is proved of exact arithmetic.  Three computations are modelled
    bit-exactly with the IEEE operations of [SpecFloat], because what is
    said of them depends on rounding, on infinities or on [nan]: the
    Python [float] product of [prepare_train_loaders] (binary64), [nmse] on
    arrays of real floats, and the division of a k-space slice by its
    maximum modulus (complex64), which is given both ways. *)

From Stdlib Require Import ZArith List Bool Lia Reals Lra.
From Stdlib Require Import Floats.SpecFloat.
From Stdlib Require Import Sorting.Permutation.
From Stdlib Require QArith.
From Stdlib Require String.
Import ListNotations.

Set Implicit Arguments.

(* ================================================================== *)
(** ** Python exceptions as an error monad *)

Inductive exn : Type :=
| ValueError
| IndexError
| RuntimeError
| OverflowError.

Inductive result (A : Type) : Type :=
| Ok (a : A)
| Raise (e : exn).

Arguments Ok {A} a.
Arguments Raise {A} e.

Definition rbind {A B : Type} (c : result A) (k : A -> result B) : result B :=
  match c with
  | Ok a => k a
  | Raise e => Raise e
  end.

Declare Scope result_scope.
Delimit Scope result_scope with result.
Notation "x <- c ;; k" := (rbind c (fun x => k))
  (at level 61, c at next level, right associativity) : result_scope.

(* ================================================================== *)
(** ** Complex numbers *)

Module Cplx.

Local Open Scope R_scope.

Definition C : Type := (R * R)%type.

Definition C0 : C := (0, 0).
Definition C1 : C := (1, 0).
Definition RtoC (r : R) : C := (r, 0).

Definition Cadd (z w : C) : C := (fst z + fst w, snd z + snd w).
Definition Csub (z w : C) : C := (fst z - fst w, snd z - snd w).
Definition Cmul (z w : C) : C :=
  (fst z * fst w - snd z * snd w, fst z * snd w + snd z * fst w).
Definition Cconj (z : C) : C := (fst z, - snd z).
Definition Cscal (r : R) (z : C) : C := (r * fst z, r * snd z).
(** complex entry divided by a real scalar *)
Definition Cdivr (z : C) (r : R) : C := (fst z / r, snd z / r).
Definition Cmod (z : C) : R := sqrt (fst z * fst z + snd z * snd z).
Definition Cexp (t : R) : C := (cos t, sin t).

Fixpoint Csum (f : nat -> C) (n : nat) : C :=
  match n with
  | O => C0
  | S k => Cadd (Csum f k) (f k)
  end.

End Cplx.
Export Cplx.

(* ================================================================== *)
(** ** Python slices *)

Module Py.

Local Open Scope Z_scope.

Record slice : Type := Slice {
  sl_start : option Z;
  sl_stop : option Z;
  sl_step : option Z
}.

(** [a:b], [a:], [:b] and [::k] *)
Definition range_ (a b : Z) : slice := Slice (Some a) (Some b) None.
Definition all_ : slice := Slice None None None.
Definition every_ (k : Z) : slice := Slice None None (Some k).

Definition step_of (s : slice) : Z :=
  match sl_step s with Some k => k | None => 1 end.

(** A bound of a slice with positive step, adjusted to a length: a negative
    bound counts from the end, and the result is clipped to [0, len]. *)
Definition adjust (len v : Z) : Z :=
  if v <? 0 then Z.max (v + len) 0 else Z.min v len.

Definition lower (s : slice) (len : Z) : Z :=
  match sl_start s with Some v => adjust len v | None => 0 end.

Definition upper (s : slice) (len : Z) : Z :=
  match sl_stop s with Some v => adjust len v | None => len end.

(** Is position [j] of an axis of length [len] selected by the slice?  *)
Definition selects (s : slice) (len j : nat) : bool :=
  let n := Z.of_nat len in
  let k := Z.of_nat j in
  (lower s n <=? k) && (k <? upper s n) && ((k - lower s n) mod step_of s =? 0).

(** An index [t[i]]: negative indices count from the end. *)
Definition index (len : nat) (i : Z) : result nat :=
  let n := Z.of_nat len in
  let i' := if i <? 0 then i + n else i in
  if (0 <=? i') && (i' <? n) then Ok (Z.to_nat i') else Raise IndexError.

End Py.

(* ================================================================== *)
(** ** Tensors of rank 2, 3 and 4 *)

Record tensor2 (A : Type) : Type := T2 {
  rows : nat;
  cols : nat;
  at2 : nat -> nat -> A
}.

Record tensor3 : Type := T3 {
  len3 : nat;
  rows3 : nat;
  cols3 : nat;
  at3 : nat -> nat -> nat -> C
}.

Record tensor4 : Type := T4 {
  len4 : nat;
  rows4 : nat;
  cols4 : nat;
  coils4 : nat;
  at4 : nat -> nat -> nat -> nat -> C
}.

(** Shapes *)
Definition shape4 (t : tensor4) : nat * nat * nat * nat :=
  (len4 t, rows4 t, cols4 t, coils4 t).

Definition shape3 (t : tensor3) : nat * nat * nat :=
  (len3 t, rows3 t, cols3 t).

(** Two tensors that agree on their shape and on every entry inside it *)
Definition teq4 (x y : tensor4) : Prop :=
  shape4 x = shape4 y
  /\ forall b i j c,
       (b < len4 x)%nat -> (i < rows4 x)%nat -> (j < cols4 x)%nat ->
       (c < coils4 x)%nat ->
       at4 x b i j c = at4 y b i j c.

Definition teq3 (x y : tensor3) : Prop :=
  shape3 x = shape3 y
  /\ forall b i j,
       (b < len3 x)%nat -> (i < rows3 x)%nat -> (j < cols3 x)%nat ->
       at3 x b i j = at3 y b i j.

(** Checked reads *)
Definition get2 {A : Type} (t : tensor2 A) (i j : nat) : option A :=
  if (i <? rows t)%nat && (j <? cols t)%nat then Some (at2 t i j) else None.

Definition get3 (t : tensor3) (b i j : nat) : option C :=
  if (b <? len3 t)%nat && (i <? rows3 t)%nat && (j <? cols3 t)%nat
  then Some (at3 t b i j) else None.

Definition get4 (t : tensor4) (b i j c : nat) : option C :=
  if (b <? len4 t)%nat && (i <? rows4 t)%nat && (j <? cols4 t)%nat
     && (c <? coils4 t)%nat
  then Some (at4 t b i j c) else None.

(** [torch.zeros((n, m))], [torch.ones] *)
Definition full2 {A : Type} (n m : nat) (v : A) : tensor2 A :=
  T2 n m (fun _ _ => v).

(** [t[rs, cs] = v] for a scalar [v]; the step of a slice has to be
    positive. *)
Definition setitem2 {A : Type} (t : tensor2 A) (rs cs : Py.slice) (v : A)
  : result (tensor2 A) :=
  if ((Py.step_of rs <=? 0) || (Py.step_of cs <=? 0))%Z then Raise ValueError
  else Ok (T2 (rows t) (cols t)
             (fun i j =>
                if Py.selects rs (rows t) i && Py.selects cs (cols t) j
                then v else at2 t i j)).

(** Broadcasting of one dimension *)
Definition bdim (n m : nat) : result nat :=
  if (n =? m)%nat then Ok n
  else if (n =? 1)%nat then Ok m
  else if (m =? 1)%nat then Ok n
  else Raise RuntimeError.

(** The position read in a dimension of size [n] for result position [i] *)
Definition bpos (n i : nat) : nat := if (n =? 1)%nat then O else i.

(** Element-wise combination of two rank-2 tensors with broadcasting *)
Definition bzip2 {A B D : Type} (f : A -> B -> D) (a : tensor2 A) (b : tensor2 B)
  : result (tensor2 D) :=
  (r <- bdim (rows a) (rows b) ;;
   c <- bdim (cols a) (cols b) ;;
   Ok (T2 r c (fun i j =>
         f (at2 a (bpos (rows a) i) (bpos (cols a) j))
           (at2 b (bpos (rows b) i) (bpos (cols b) j)))))%result.

(** Element-wise product of two rank-4 tensors with broadcasting *)
Definition bmul4 (a b : tensor4) : result tensor4 :=
  (n0 <- bdim (len4 a) (len4 b) ;;
   n1 <- bdim (rows4 a) (rows4 b) ;;
   n2 <- bdim (cols4 a) (cols4 b) ;;
   n3 <- bdim (coils4 a) (coils4 b) ;;
   Ok (T4 n0 n1 n2 n3 (fun s i j c =>
         Cmul (at4 a (bpos (len4 a) s) (bpos (rows4 a) i)
                     (bpos (cols4 a) j) (bpos (coils4 a) c))
              (at4 b (bpos (len4 b) s) (bpos (rows4 b) i)
                     (bpos (cols4 b) j) (bpos (coils4 b) c)))))%result.

(** [x[:,:,:,None]] *)
Definition unsqueeze3 (x : tensor3) : tensor4 :=
  T4 (len3 x) (rows3 x) (cols3 x) 1 (fun s i j _ => at3 x s i j).

(** [mask[None,:,:,None]] *)
Definition unsqueeze03 (m : tensor2 C) : tensor4 :=
  T4 1 (rows m) (cols m) 1 (fun _ i j _ => at2 m i j).

(** [torch.conj] *)
Definition conj4 (x : tensor4) : tensor4 :=
  T4 (len4 x) (rows4 x) (cols4 x) (coils4 x)
     (fun s i j c => Cconj (at4 x s i j c)).

(** [torch.sum(x, axis=3)] *)
Definition sum_axis3 (x : tensor4) : tensor3 :=
  T3 (len4 x) (rows4 x) (cols4 x)
     (fun s i j => Csum (fun c => at4 x s i j c) (coils4 x)).

(** [t[a:b]] along the first axis *)
Definition slice0 (t : tensor4) (a b : Z) : tensor4 :=
  let lo := Py.lower (Py.range_ a b) (Z.of_nat (len4 t)) in
  let hi := Py.upper (Py.range_ a b) (Z.of_nat (len4 t)) in
  T4 (Z.to_nat (hi - lo)) (rows4 t) (cols4 t) (coils4 t)
     (fun s i j c => at4 t (Z.to_nat lo + s) i j c).

(** [t[i:i+1]] for a loop counter [i] *)
Definition slab (t : tensor4) (i : nat) : tensor4 :=
  slice0 t (Z.of_nat i) (Z.of_nat i + 1).

(* ================================================================== *)
(** ** Centered orthonormal Fourier transforms *)

Module Fourier.

(** [torch.roll(x, s)] along an axis of length [n] puts entry [i] at
    position [(i + s) mod n]; the entry found at position [i] of the result
    is the one of position [source n s i]. *)
Definition source (n s i : nat) : nat := ((i + (n - s)) mod n)%nat.

Definition roll12 (s1 s2 : nat) (x : tensor4) : tensor4 :=
  T4 (len4 x) (rows4 x) (cols4 x) (coils4 x)
     (fun b i j c =>
        at4 x b (source (rows4 x) s1 i) (source (cols4 x) s2 j) c).

(** [torch.fft.fftshift(x, dim=[1,2])]: a roll by [n // 2] *)
Definition fftshift (x : tensor4) : tensor4 :=
  roll12 (rows4 x / 2) (cols4 x / 2) x.

(** [torch.fft.ifftshift(x, dim=[1,2])]: a roll by [(n + 1) // 2] *)
Definition ifftshift (x : tensor4) : tensor4 :=
  roll12 ((rows4 x + 1) / 2) ((cols4 x + 1) / 2) x.

Local Open Scope R_scope.

(** [exp(sgn * 2 pi i * k * n / N)] *)
Definition twiddle (sgn : R) (N k n : nat) : C :=
  Cexp (sgn * (2 * PI * INR k * INR n / INR N)).

(** The [N]-th root of unity [exp(2 pi i * t / N)], for an integer [t];
    every [twiddle] with sign [-1] or [1] is one. *)
Definition root (N : nat) (t : Z) : C :=
  Cexp (2 * PI * IZR t / INR N).

(** The discrete transform over axes 1 and 2 with [norm='ortho']; [sgn]
    is [-1] for the forward and [1] for the backward transform.  An axis
    without data points is refused. *)
Definition dft12 (sgn : R) (x : tensor4) : result tensor4 :=
  if ((rows4 x =? 0) || (cols4 x =? 0))%nat then Raise RuntimeError
  else
    Ok (T4 (len4 x) (rows4 x) (cols4 x) (coils4 x)
          (fun b k1 k2 c =>
             Cscal (/ sqrt (INR (rows4 x * cols4 x)))
               (Csum (fun n1 =>
                  Csum (fun n2 =>
                    Cmul (at4 x b n1 n2 c)
                         (Cmul (twiddle sgn (rows4 x) k1 n1)
                               (twiddle sgn (cols4 x) k2 n2)))
                       (cols4 x))
                  (rows4 x)))).

Definition fftn : tensor4 -> result tensor4 := dft12 (-1).
Definition ifftn : tensor4 -> result tensor4 := dft12 1.

(** The axis lengths for which a shift, applied twice, changes nothing *)
Definition even_or_one (N : nat) : Prop := Nat.even N = true \/ N = 1%nat.

(** A sensitivity map whose coil vector has unit norm at every pixel *)
Definition orthonormal (S : tensor4) : Prop :=
  forall b i j,
    (b < len4 S)%nat -> (i < rows4 S)%nat -> (j < cols4 S)%nat ->
    Csum (fun c => Cmul (at4 S b i j c) (Cconj (at4 S b i j c))) (coils4 S) = C1.

Local Open Scope result_scope.

Definition fft2 (image : tensor4) : result tensor4 :=
  y <- fftn (ifftshift image) ;; Ok (fftshift y).

Definition ifft2 (kspace : tensor4) : result tensor4 :=
  y <- ifftn (fftshift kspace) ;; Ok (ifftshift y).

(** [y = Ex] *)
Definition encode (x : tensor3) (S : tensor4) (mask : option (tensor2 C))
  : result tensor4 :=
  match mask with
  | None =>
      p <- bmul4 S (unsqueeze3 x) ;; fft2 p
  | Some m =>
      p <- bmul4 S (unsqueeze3 x) ;;
      y <- fft2 p ;;
      bmul4 y (unsqueeze03 m)
  end.

(** [y = E'x] *)
Definition decode (x S : tensor4) : result tensor3 :=
  y <- ifft2 x ;;
  p <- bmul4 y (conj4 S) ;;
  Ok (sum_axis3 p).

End Fourier.

(* ================================================================== *)
(** ** Normalised mean square error *)

Module Metrics.

(** The entries of a [numpy] array of floats are IEEE binary numbers, with
    their signed zeros, infinities and [nan], and every operation rounds to
    nearest-even; [prec] and [emax] give the format: 53 and 1024 for
    [float64], 24 and 128 for [float32].  The arrays are of a real dtype
    and are given by the list of their entries; the quotient of two complex
    scalars, which [nmse] would take on arrays of a complex dtype, is not
    modelled. *)

Definition is_finite (v : spec_float) : bool :=
  match v with
  | S754_zero _ | S754_finite _ _ _ => true
  | S754_infinity _ | S754_nan => false
  end.

Definition is_nan (v : spec_float) : bool :=
  match v with S754_nan => true | _ => false end.

Definition zero : spec_float := S754_zero false.

(** Zero, a positive number or plus infinity *)
Definition nonneg (v : spec_float) : bool :=
  match v with
  | S754_zero false | S754_finite false _ _ | S754_infinity false => true
  | _ => false
  end.

Definition nonneg_or_nan (v : spec_float) : bool := nonneg v || is_nan v.

Section Format.

Variables prec emax : Z.

(** An operation on two arrays of one dimension: the shapes have to agree,
    or one of them has a single entry, which is then used at every
    position; other shapes are refused. *)
Definition broadcast2 (f : spec_float -> spec_float -> spec_float)
    (a b : list spec_float) : result (list spec_float) :=
  if (length a =? length b)%nat
  then Ok (map (fun p => f (fst p) (snd p)) (combine a b))
  else
    match a, b with
    | _, [y] => Ok (map (fun x => f x y) a)
    | [x], _ => Ok (map (fun y => f x y) b)
    | _, _ => Raise ValueError
    end.

(** [a - b] *)
Definition np_sub : list spec_float -> list spec_float
                    -> result (list spec_float) :=
  broadcast2 (SFsub prec emax).

(** [a**2]: every entry times itself *)
Definition np_square (l : list spec_float) : list spec_float :=
  map (fun v => SFmul prec emax v v) l.

(** [np.sum]: the entries added up, starting from the identity 0.  ([numpy]
    adds the entries of long arrays in blocks; the sum of non-negative
    terms is zero, infinite or [nan] in one order exactly if it is in
    every other.) *)
Definition np_sum (l : list spec_float) : spec_float :=
  fold_left (SFadd prec emax) l zero.

(** The quotient of two [numpy] scalars raises nothing: a zero divisor
    gives [inf] or [nan] (and a warning). *)
Definition nmse (x xref : list spec_float) : result spec_float :=
  (d <- np_sub x xref ;;
   Ok (SFdiv prec emax (np_sum (np_square d)) (np_sum (np_square xref))))%result.

End Format.

(** [numpy]'s default format, and the value of [v == 0] *)
Definition nmse64 : list spec_float -> list spec_float -> result spec_float :=
  nmse 53 1024.

Definition eq_zero (v : spec_float) : bool := SFeqb v zero.

(** Two numbers of binary64: 1, and 2^-600, whose square is below the
    smallest number of the format *)
Definition one64 : spec_float := S754_finite false 4503599627370496 (-52).
Definition tiny64 : spec_float := S754_finite false 4503599627370496 (-652).

End Metrics.

(* ================================================================== *)
(** ** Reductions and the Gaussian kernel *)

Module Kernel.

Local Open Scope R_scope.

(** [torch.max] of a flattened tensor; an empty tensor is refused. *)
Definition max_list (l : list R) : result R :=
  match l with
  | [] => Raise RuntimeError
  | x :: l' => Ok (fold_left Rmax l' x)
  end.

Definition entries2 {A : Type} (t : tensor2 A) : list A :=
  flat_map (fun i => map (fun j => at2 t i j) (seq 0 (cols t))) (seq 0 (rows t)).

Definition entries4 (t : tensor4) : list C :=
  flat_map (fun b =>
    flat_map (fun i =>
      flat_map (fun j => map (fun c => at4 t b i j c) (seq 0 (coils4 t)))
               (seq 0 (cols4 t)))
      (seq 0 (rows4 t)))
    (seq 0 (len4 t)).

(** [torch.max(torch.abs(t))] *)
Definition max_abs4 (t : tensor4) : result R :=
  max_list (map Cmod (entries4 t)).

(** [torch.linspace(-1, 1, steps=n)[i]] *)
Definition linspace (n i : nat) : R :=
  match n with
  | 1%nat => -1
  | _ => -1 + INR i * (2 / INR (n - 1))
  end.

(** The kernel in exact arithmetic.  The code computes it in float32: for
    [sigma] below 0.01 in absolute value [torch.exp] underflows to 0 or
    overflows to [inf] at the corners of the grid, and the kernel of the
    code then holds 0 or [nan]; the model does not follow it there. *)
Definition gauss_gen (Nx Ny : nat) (sigma : R) : result (tensor2 R) :=
  let z := T2 Nx Ny (fun i j =>
             exp (- ((linspace Nx i * linspace Nx i
                      + linspace Ny j * linspace Ny j) / (2 * sigma)))) in
  (m <- max_list (entries2 z) ;;
   Ok (T2 Nx Ny (fun i j => at2 z i j / m)))%result.

End Kernel.

(* ================================================================== *)
(** ** The dataset *)

Module Dataset.

Import Fourier Kernel.

(** The attributes of a [KneeDataset] object.  [gauss_kernel], [random] and
    [rand_mask] exist only once [__getitem__] has assigned them. *)
Record KneeDataset : Type := mkKneeDataset {
  num_ACS : Z;
  kspace : tensor4;
  n_slices : nat;
  sens_map : tensor4;
  mask : tensor2 C;
  x0 : tensor3;
  xref : tensor3;
  accel : Z;                            (* [self.R] *)
  gauss_kernel : option (tensor2 R);
  random : option (tensor2 R);
  rand_mask : option (tensor2 bool)
}.

(** The three column bands that both masks force to one, then the centered
    band of width [num_ACS]; [Ny] is [kspace.shape[2]]. *)
Definition retain_lines {A : Type} (one : A) (R_ : Z) (Ny : nat) (nACS : Z)
    (m : tensor2 A) : result (tensor2 A) :=
  (m1 <- setitem2 m Py.all_ (Py.every_ R_) one ;;
   m2 <- setitem2 m1 Py.all_ (Py.range_ 0 18) one ;;
   m3 <- setitem2 m2 Py.all_ (Py.range_ (-18) (Z.of_nat Ny)) one ;;
   setitem2 m3 Py.all_
     (Py.range_ ((Z.of_nat Ny - nACS) / 2) ((Z.of_nat Ny + nACS) / 2)) one)%result.

(** The columns that [retain_lines] forces to one in a mask of [n] columns,
    for [kspace.shape[2] = Ny] *)
Definition retained (R_ : Z) (n Ny : nat) (nACS : Z) (j : nat) : bool :=
  Py.selects (Py.every_ R_) n j
  || Py.selects (Py.range_ 0 18) n j
  || Py.selects (Py.range_ (-18) (Z.of_nat Ny)) n j
  || Py.selects (Py.range_ ((Z.of_nat Ny - nACS) / 2) ((Z.of_nat Ny + nACS) / 2)) n j.

(** Can an axis of size [n] be expanded to size [m]? *)
Definition fits (n m : nat) : bool := ((n =? m) || (n =? 1))%nat.

(** [t[i] = v] for a rank-3 tensor: the leading axis of the value has to
    have size one and is dropped, the rest is expanded to the shape of
    [t[i]]. *)

Definition setrow3 (t : tensor3) (i : nat) (v : tensor3) : result tensor3 :=
  if (len3 v =? 1)%nat && fits (rows3 v) (rows3 t) && fits (cols3 v) (cols3 t)
  then Ok (T3 (len3 t) (rows3 t) (cols3 t)
              (fun b r c =>
                 if (b =? i)%nat
                 then at3 v O (bpos (rows3 v) r) (bpos (cols3 v) c)
                 else at3 t b r c))
  else Raise RuntimeError.

(** [t[i] = t[i:i+1] / s] for a rank-4 tensor and a real scalar [s], in
    exact arithmetic; the shapes agree, so nothing can be refused.  (For
    [s = 0] torch stores [nan] and [inf]; the model then holds the
    unspecified quotients of [R].  The rounded quotient of the code is
    [Complex64.normalise].) *)
Definition scale_slice (t : tensor4) (i : nat) (s : R) : tensor4 :=
  T4 (len4 t) (rows4 t) (cols4 t) (coils4 t)
     (fun b r c k =>
        if (b =? i)%nat then Cdivr (at4 (slab t i) O r c k) s
        else at4 t b r c k).

(** One pass of the loop of [__init__] *)
Definition init_step (msk : tensor2 C) (sens : tensor4)
    (st : tensor4 * tensor3 * tensor3) (i : nat)
  : result (tensor4 * tensor3 * tensor3) :=
  let '(ks, x0_, xref_) := st in
  (norm_value <- max_abs4 (slab ks i) ;;
   let ks' := scale_slice ks i norm_value in
   masked <- bmul4 (slab ks' i) (unsqueeze03 msk) ;;
   a <- decode masked (slab sens i) ;;
   x0' <- setrow3 x0_ i a ;;
   b <- decode (slab ks' i) (slab sens i) ;;
   xref' <- setrow3 xref_ i b ;;
   Ok (ks', x0', xref'))%result.

Fixpoint init_loop (msk : tensor2 C) (sens : tensor4) (is_ : list nat)
    (st : tensor4 * tensor3 * tensor3)
  : result (tensor4 * tensor3 * tensor3) :=
  match is_ with
  | [] => Ok st
  | i :: rest =>
      match init_step msk sens st i with
      | Ok st' => init_loop msk sens rest st'
      | Raise e => Raise e
      end
  end.

(** The loop invariant of [__init__].  [slice_done] says of a slice that it
    has been divided by the maximum modulus [nv] it had in the file, and that
    the rows of [x0] and [xref] hold the two reconstructions of the divided
    slice; [loop_inv k] says that the slices below [k] are done and the
    others are as in the file. *)
Definition slice_done (msk : tensor2 C) (sens ks0 : tensor4)
    (st : tensor4 * tensor3 * tensor3) (i : nat) : Prop :=
  exists nv masked da db,
    max_abs4 (slab ks0 i) = Ok nv
    /\ (forall r c q,
          at4 (fst (fst st)) i r c q = Cdivr (at4 ks0 i r c q) nv)
    /\ bmul4 (slab (fst (fst st)) i) (unsqueeze03 msk) = Ok masked
    /\ decode masked (slab sens i) = Ok da
    /\ decode (slab (fst (fst st)) i) (slab sens i) = Ok db
    /\ shape3 da = (1%nat, rows4 ks0, cols4 ks0)
    /\ shape3 db = (1%nat, rows4 ks0, cols4 ks0)
    /\ forall r c, (r < rows4 ks0)%nat -> (c < cols4 ks0)%nat ->
         at3 (snd (fst st)) i r c = at3 da 0 r c
         /\ at3 (snd st) i r c = at3 db 0 r c.

Definition loop_inv (msk : tensor2 C) (sens ks0 : tensor4) (k : nat)
    (st : tensor4 * tensor3 * tensor3) : Prop :=
  shape4 (fst (fst st)) = shape4 ks0
  /\ shape3 (snd (fst st)) = (len4 ks0, rows4 ks0, cols4 ks0)
  /\ shape3 (snd st) = (len4 ks0, rows4 ks0, cols4 ks0)
  /\ (forall i r c q,
        (k <= i)%nat -> at4 (fst (fst st)) i r c q = at4 ks0 i r c q)
  /\ forall i, (i < k)%nat -> slice_done msk sens ks0 st i.

Section Init.

(** The arrays stored under the two file paths, and what [torch.empty]
    finds in memory. *)
Variables (kfile sfile : tensor4) (junk0 junk1 : nat -> nat -> nat -> C).

Definition init (R_ : Z) (num_slice : Z) (nACS : Z) : result KneeDataset :=
  let start_slice := 0%Z in
  let r := 1%Z in
  let ks := slice0 kfile start_slice (start_slice + num_slice * r) in
  let n := len4 ks in
  let sens := slice0 sfile start_slice (start_slice + num_slice * r) in
  (msk <- retain_lines C1 R_ (cols4 ks) nACS (full2 (rows4 ks) (cols4 ks) C0) ;;
   let e0 := T3 (len4 ks) (rows4 ks) (cols4 ks) junk0 in
   let e1 := T3 (len4 ks) (rows4 ks) (cols4 ks) junk1 in
   st <- init_loop msk sens (seq 0 (len4 ks)) (ks, e0, e1) ;;
   let '(ks', x0_, xref_) := st in
   Ok (mkKneeDataset nACS ks' n sens msk x0_ xref_ R_ None None None))%result.

End Init.

(** *** [__getitem__]: a computation on the object's attributes *)

Definition M (A : Type) : Type := KneeDataset -> KneeDataset * result A.

Definition ret {A : Type} (a : A) : M A := fun s => (s, Ok a).

Definition bind {A B : Type} (c : M A) (k : A -> M B) : M B :=
  fun s =>
    match c s with
    | (s', Ok a) => k a s'
    | (s', Raise e) => (s', Raise e)
    end.

Definition lift {A : Type} (c : result A) : M A := fun s => (s, c).
Definition attr {A : Type} (f : KneeDataset -> A) : M A := fun s => (s, Ok (f s)).

Definition set_gauss_kernel (g : tensor2 R) : M unit :=
  fun s => (mkKneeDataset (num_ACS s) (kspace s) (n_slices s) (sens_map s)
              (mask s) (x0 s) (xref s) (accel s)
              (Some g) (random s) (rand_mask s), Ok tt).

Definition set_random (u : tensor2 R) : M unit :=
  fun s => (mkKneeDataset (num_ACS s) (kspace s) (n_slices s) (sens_map s)
              (mask s) (x0 s) (xref s) (accel s)
              (gauss_kernel s) (Some u) (rand_mask s), Ok tt).

Definition set_rand_mask (m : tensor2 bool) : M unit :=
  fun s => (mkKneeDataset (num_ACS s) (kspace s) (n_slices s) (sens_map s)
              (mask s) (x0 s) (xref s) (accel s)
              (gauss_kernel s) (random s) (Some m), Ok tt).

Declare Scope dataset_scope.
Delimit Scope dataset_scope with ds.
Notation "x <~ c ;; k" := (bind c (fun x => k))
  (at level 61, c at next level, right associativity) : dataset_scope.
Notation "c ;;; k" := (bind c (fun _ => k))
  (at level 61, right associativity) : dataset_scope.

(** [t[index]] for the rank-3 and rank-4 attributes *)
Definition row3 (t : tensor3) (index : Z) : result (tensor2 C) :=
  (i <- Py.index (len3 t) index ;;
   Ok (T2 (rows3 t) (cols3 t) (fun r c => at3 t i r c)))%result.

Definition row4 (t : tensor4) (index : Z) : result tensor3 :=
  (i <- Py.index (len4 t) index ;;
   Ok (T3 (rows4 t) (cols4 t) (coils4 t) (fun r c k => at4 t i r c k)))%result.

Record item : Type := mkItem {
  item_x0 : tensor2 C;
  item_xref : tensor2 C;
  item_kspace : tensor3;
  item_sens_map : tensor3;
  item_mask : tensor2 bool;
  item_index : Z
}.

Local Open Scope dataset_scope.

(** [draw i j] is the number that [torch.rand] produces for entry [(i, j)]
    in this call. *)
Definition getitem (draw : nat -> nat -> R) (index : Z) : M item :=
  msk <~ attr mask ;;
  g <~ lift (gauss_gen (rows msk) (cols msk) (1 / 2)) ;;
  set_gauss_kernel g ;;;
  ks <~ attr kspace ;;
  let u := T2 (rows4 ks) (cols4 ks) draw in
  set_random u ;;;
  m0 <~ lift (bzip2 (fun a b => if Rlt_dec (6 / 10) (a * b) then true else false)
                    u g) ;;
  set_rand_mask m0 ;;;
  m1 <~ lift (setitem2 m0 (Py.range_ 158 162) (Py.range_ 182 186) false) ;;
  set_rand_mask m1 ;;;
  R_ <~ attr accel ;;
  nACS <~ attr num_ACS ;;
  m5 <~ lift (retain_lines true R_ (cols4 ks) nACS m1) ;;
  set_rand_mask m5 ;;;
  x0_ <~ attr x0 ;;
  a <~ lift (row3 x0_ index) ;;
  xref_ <~ attr xref ;;
  b <~ lift (row3 xref_ index) ;;
  c <~ lift (row4 ks index) ;;
  sens <~ attr sens_map ;;
  d <~ lift (row4 sens index) ;;
  ret (mkItem a b c d m5 index).

(** The attributes that [__getitem__] only reads *)
Definition same_data (s s' : KneeDataset) : Prop :=
  num_ACS s' = num_ACS s /\ kspace s' = kspace s /\ n_slices s' = n_slices s
  /\ sens_map s' = sens_map s /\ mask s' = mask s /\ x0 s' = x0 s
  /\ xref s' = xref s /\ accel s' = accel s.

Definition preserves {A : Type} (c : M A) : Prop :=
  forall s, same_data s (fst (c s)).

(** The states of a dataset object: built by [__init__], then used by any
    number of item accesses, whether they succeed or raise. *)
Inductive reachable : KneeDataset -> Prop :=
| reach_init (kfile sfile : tensor4) (junk0 junk1 : nat -> nat -> nat -> C)
    (R_ num_slice nACS : Z) (ds : KneeDataset) :
    init kfile sfile junk0 junk1 R_ num_slice nACS = Ok ds -> reachable ds
| reach_getitem (s : KneeDataset) (draw : nat -> nat -> R) (index : Z) :
    reachable s -> reachable (fst (getitem draw index s)).

(** [__len__] *)
Definition len (s : KneeDataset) : nat := n_slices s.

End Dataset.

(* ================================================================== *)
(** ** The train/validation split *)

Module Loaders.

Local Open Scope Z_scope.

(** Python's [float] is IEEE binary64. *)
Definition prec : Z := 53.
Definition emax : Z := 1024.

(** The literal [0.8]: the double [0x3FE999999999999A]. *)
Definition lit_0_8 : spec_float := S754_finite false 7205759403792794 (-53).

(** Conversion of an [int] operand of a mixed product to [float] *)
Definition float_of_int (n : Z) : result spec_float :=
  match binary_normalize prec emax n 0 false with
  | S754_infinity _ => Raise OverflowError
  | f => Ok f
  end.

(** [int(f)]: truncation towards zero *)
Definition int_of_float (f : spec_float) : result Z :=
  match f with
  | S754_zero _ => Ok 0
  | S754_finite s m e => Ok (cond_Zopp s (Z.shiftl (Zpos m) e))
  | S754_infinity _ => Raise OverflowError
  | S754_nan => Raise ValueError
  end.

(** [l[a:b]] *)
Definition list_slice {A : Type} (l : list A) (a b : Z) : list A :=
  let n := Z.of_nat (length l) in
  let lo := Py.adjust n a in
  let hi := Py.adjust n b in
  firstn (Z.to_nat (hi - lo)) (skipn (Z.to_nat lo) l).

(** [torch.utils.data.random_split(dataset, [a, b])], where [perm] is the
    permutation of the indices drawn by the generator: the two subsets, as
    the lists of the indices they hold. *)
Definition random_split (n : nat) (perm : list nat) (a b : Z)
  : result (list nat * list nat) :=
  if a + b =? Z.of_nat n
  then Ok (list_slice perm 0 a, list_slice perm a (a + b))
  else Raise ValueError.

(** [train_num] and [valid_num] for [dataset.n_slices = n] *)
Definition split_sizes (n : Z) : result (Z * Z) :=
  (f <- float_of_int n ;;
   train_num <- int_of_float (SFmul prec emax f lit_0_8) ;;
   let valid_num := n - train_num in
   Ok (train_num, valid_num))%result.

(** The index lists of [train_dataset] and [valid_dataset] *)
Definition prepare_train_loaders (n_slices : nat) (perm : list nat)
  : result (list nat * list nat) :=
  (sz <- split_sizes (Z.of_nat n_slices) ;;
   random_split n_slices perm (fst sz) (snd sz))%result.

(** The size the specification gives to the training set:
    [floor(0.8 * total)], in exact rational arithmetic. *)
Definition floor_0_8 (total : Z) : Z :=
  Qround.Qfloor
    (QArith_base.Qmult (QArith_base.Qmake 8 10) (QArith_base.inject_Z total)).

End Loaders.


(* ================================================================== *)
(** ** Inner products *)

Module Inner.

(** A sum over two indices *)
Definition Csum2 (f : nat -> nat -> C) (n m : nat) : C :=
  Csum (fun a => Csum (fun b => f a b) m) n.

(** The inner product [<x, y>]: the sum of [x * conj(y)] over the entries
    of [x] *)
Definition dot4 (x y : tensor4) : C :=
  Csum (fun b =>
    Csum (fun c =>
      Csum2 (fun i j => Cmul (at4 x b i j c) (Cconj (at4 y b i j c)))
            (rows4 x) (cols4 x))
      (coils4 x))
    (len4 x).

Definition dot3 (x y : tensor3) : C :=
  Csum (fun b =>
    Csum2 (fun i j => Cmul (at3 x b i j) (Cconj (at3 y b i j)))
          (rows3 x) (cols3 x))
    (len3 x).

End Inner.

(* ================================================================== *)
(** ** One complex channel and two real channels *)

Module Channels.

Local Open Scope result_scope.

(** A real tensor of rank 3 *)
Record rtensor3 : Type := RT3 {
  rlen3 : nat;
  rrows3 : nat;
  rcols3 : nat;
  rat3 : nat -> nat -> nat -> R
}.



(** [t.real] and [t.imag] *)
Definition real3 (t : tensor3) : rtensor3 :=
  RT3 (len3 t) (rows3 t) (cols3 t) (fun b i j => fst (at3 t b i j)).



(** [t[a:b,:,:]] *)
Definition rslice0 (t : rtensor3) (a b : Z) : rtensor3 :=
  let lo := Py.lower (Py.range_ a b) (Z.of_nat (rlen3 t)) in
  let hi := Py.upper (Py.range_ a b) (Z.of_nat (rlen3 t)) in
  RT3 (Z.to_nat (hi - lo)) (rrows3 t) (rcols3 t)
      (fun s i j => rat3 t (Z.to_nat lo + s) i j).

(** [re + 1j * im] for two real tensors, with broadcasting *)
Definition complex_of (re im : rtensor3) : result tensor3 :=
  n0 <- bdim (rlen3 re) (rlen3 im) ;;
  n1 <- bdim (rrows3 re) (rrows3 im) ;;
  n2 <- bdim (rcols3 re) (rcols3 im) ;;
  Ok (T3 n0 n1 n2 (fun s i j =>
        Cadd (RtoC (rat3 re (bpos (rlen3 re) s) (bpos (rrows3 re) i)
                            (bpos (rcols3 re) j)))
             (Cmul (0%R, 1%R)
                   (RtoC (rat3 im (bpos (rlen3 im) s) (bpos (rrows3 im) i)
                                  (bpos (rcols3 im) j)))))).


(** real 2 channels to complex 1 channel *)
Definition ch2to1 (data2 : rtensor3) : result tensor3 :=
  complex_of (rslice0 data2 0 1) (rslice0 data2 1 2).

End Channels.

(* ================================================================== *)
(** ** The MOI loss *)

Module Loss.

Import Kernel.
Local Open Scope R_scope.

(** A real [torch] scalar: a number, or the [inf]/[nan] of a division by
    zero *)
Inductive tval : Type :=
| Fin (r : R)
| PInf
| TNaN.

(** [a / b] for two norms, which are not negative *)
Definition tdiv (a b : R) : tval :=
  if Req_dec_T b 0 then (if Req_dec_T a 0 then TNaN else PInf)
  else Fin (a / b).

Definition tadd (u v : tval) : tval :=
  match u, v with
  | TNaN, _ | _, TNaN => TNaN
  | PInf, _ | _, PInf => PInf
  | Fin a, Fin b => Fin (a + b)
  end.

Definition entries3 (t : tensor3) : list C :=
  flat_map (fun b =>
    flat_map (fun i => map (fun j => at3 t b i j) (seq 0 (cols3 t)))
             (seq 0 (rows3 t)))
    (seq 0 (len3 t)).

(** [torch.norm(t, p=2)] of the entries of a tensor *)
Definition norm2 (l : list C) : R :=
  sqrt (fold_right Rplus 0 (map (fun z => fst z * fst z + snd z * snd z) l)).

(** [a - b] with broadcasting *)
Definition bsub4 (a b : tensor4) : result tensor4 :=
  (n0 <- bdim (len4 a) (len4 b) ;;
   n1 <- bdim (rows4 a) (rows4 b) ;;
   n2 <- bdim (cols4 a) (cols4 b) ;;
   n3 <- bdim (coils4 a) (coils4 b) ;;
   Ok (T4 n0 n1 n2 n3 (fun s i j c =>
         Csub (at4 a (bpos (len4 a) s) (bpos (rows4 a) i)
                     (bpos (cols4 a) j) (bpos (coils4 a) c))
              (at4 b (bpos (len4 b) s) (bpos (rows4 b) i)
                     (bpos (cols4 b) j) (bpos (coils4 b) c)))))%result.

Definition bsub3 (a b : tensor3) : result tensor3 :=
  (n0 <- bdim (len3 a) (len3 b) ;;
   n1 <- bdim (rows3 a) (rows3 b) ;;
   n2 <- bdim (cols3 a) (cols3 b) ;;
   Ok (T3 n0 n1 n2 (fun s i j =>
         Csub (at3 a (bpos (len3 a) s) (bpos (rows3 a) i) (bpos (cols3 a) j))
              (at3 b (bpos (len3 b) s) (bpos (rows3 b) i)
                     (bpos (cols3 b) j)))))%result.

(** [loss = l2(y_ref - y_recon) + l2(x_recon - x_recon_new)], each term
    divided by the norm of its reference *)
Definition MOIL2Loss (y_ref y_recon : tensor4) (x_recon x_recon_new : tensor3)
  : result tval :=
  (dy <- bsub4 y_ref y_recon ;;
   let t1 := tdiv (norm2 (entries4 dy)) (norm2 (entries4 y_ref)) in
   dx <- bsub3 x_recon x_recon_new ;;
   let t2 := tdiv (norm2 (entries3 dx)) (norm2 (entries3 x_recon)) in
   Ok (tadd t1 t2))%result.

End Loss.

(* ================================================================== *)
(** ** The test loader *)

Module TestLoaders.

Import String.
Local Open Scope Z_scope.

(** What a call can raise: the [KeyError] of a parameter that is missing,
    or one of the exceptions above. *)
Inductive raised : Type :=
| KeyError (key : String.string)
| Builtin (e : exn).

Inductive outcome (A : Type) : Type :=
| Returns (a : A)
| Raises (r : raised).

Arguments Returns {A} a.
Arguments Raises {A} r.

Definition obind {A B : Type} (c : outcome A) (k : A -> outcome B)
  : outcome B :=
  match c with
  | Returns a => k a
  | Raises r => Raises r
  end.

Declare Scope outcome_scope.
Delimit Scope outcome_scope with outcome.
Notation "x <-- c ;; k" := (obind c (fun x => k))
  (at level 61, c at next level, right associativity) : outcome_scope.

(** [params[key]] for a dictionary with string keys and integer values *)
Fixpoint dict_get (params : list (String.string * Z)) (key : String.string)
  : outcome Z :=
  match params with
  | [] => Raises (KeyError key)
  | (k, v) :: rest => if String.eqb k key then Returns v else dict_get rest key
  end.

(** A [DataLoader] without shuffling over a dataset of [dl_len] items *)
Record DataLoader : Type := mkDataLoader {
  dl_len : nat;
  dl_batch_size : nat;
  dl_drop_last : bool;
  dl_num_workers : Z
}.

(** [DataLoader(dataset, batch_size, shuffle=False, drop_last, num_workers)]:
    the number of workers must not be negative and the batch size has to be
    positive. *)
Definition sequential_loader (n : nat) (batch_size : Z) (drop_last : bool)
    (num_workers : Z) : outcome DataLoader :=
  if num_workers <? 0 then Raises (Builtin ValueError)
  else if batch_size <=? 0 then Raises (Builtin ValueError)
  else Returns (mkDataLoader n (Z.to_nat batch_size) drop_last num_workers).

(** The batches of indices that the sampler yields from the indices still
    to come *)
Fixpoint batches (fuel bs : nat) (drop_last : bool) (todo : list nat)
  : list (list nat) :=
  match fuel with
  | O => []
  | S fuel' =>
      match todo with
      | [] => []
      | _ =>
          let batch := firstn bs todo in
          if drop_last && (List.length batch <? bs)%nat then []
          else batch :: batches fuel' bs drop_last (skipn bs todo)
      end
  end.

(** One pass over the loader: the indices of the dataset in order, in
    batches *)
Definition epoch (dl : DataLoader) : list (list nat) :=
  batches (dl_len dl) (dl_batch_size dl) (dl_drop_last dl) (seq 0 (dl_len dl)).

(** [prepare_test_loaders(test_dataset, params)] for a dataset of [n]
    items: the dictionaries [loaders] and [datasets] *)
Definition prepare_test_loaders (n : nat) (params : list (String.string * Z))
  : outcome (list (String.string * DataLoader) * list (String.string * nat)) :=
  (batch_size <-- dict_get params "batch_size"%string ;;
   num_workers <-- dict_get params "num_workers"%string ;;
   test_loader <-- sequential_loader n batch_size true num_workers ;;
   let datasets := [("test_dataset"%string, n)] in
   let loaders := [("test_loader"%string, test_loader)] in
   Returns (loaders, datasets))%outcome.

End TestLoaders.

(* ================================================================== *)
(** ** The normalisation of a slice in complex64 *)

Module Complex64.

Local Open Scope Z_scope.

(** An entry of a [torch.cfloat] tensor: two binary32 numbers (24 bits of
    significand, infinities at exponent 128) *)
Definition c64 : Type := (spec_float * spec_float)%type.

Definition fadd := SFadd 24 128.
Definition fsub := SFsub 24 128.
Definition fmul := SFmul 24 128.
Definition fdiv := SFdiv 24 128.
Definition fsqrt := SFsqrt 24 128.

Definition zero32 : spec_float := S754_zero false.
Definition one32 : spec_float := S754_finite false 8388608 (-23).

(** [int] to binary32 *)
Definition of_int (n : Z) : spec_float := binary_normalize 24 128 n 0 false.

(** [torch] leaves the modulus and the quotient of complex numbers to its
    backend.  The modulus is either the correctly rounded root of the exact
    sum of squares ([hypot]) or the root of the rounded sum of the rounded
    squares. *)
Inductive modulus : Type := Hypot | RootOfSquares.

(** The exact sum of the squares of two numbers, as a significand and an
    exponent *)
Definition exact_squares (ma : positive) (ea : Z) (mb : positive) (eb : Z)
  : spec_float :=
  let e := Z.min (2 * ea) (2 * eb) in
  S754_finite false
    (fst (shl_align (ma * ma) (2 * ea) e) + fst (shl_align (mb * mb) (2 * eb) e))
    e.

Definition hypot (a b : spec_float) : spec_float :=
  match a, b with
  | S754_infinity _, _ | _, S754_infinity _ => S754_infinity false
  | S754_nan, _ | _, S754_nan => S754_nan
  | S754_zero _, _ => SFabs b
  | _, S754_zero _ => SFabs a
  | S754_finite _ ma ea, S754_finite _ mb eb =>
      fsqrt (exact_squares ma ea mb eb)
  end.

Definition cabs (alg : modulus) (z : c64) : spec_float :=
  match alg with
  | Hypot => hypot (fst z) (snd z)
  | RootOfSquares =>
      fsqrt (fadd (fmul (fst z) (fst z)) (fmul (snd z) (snd z)))
  end.

(** [torch.max] of two numbers: [nan] wins. *)
Definition fmax (a b : spec_float) : spec_float :=
  match a, b with
  | S754_nan, _ | _, S754_nan => S754_nan
  | _, _ => if SFltb a b then b else a
  end.

(** The quotient of [a + bj] by [c + dj] is computed part by part when the
    divisor is real, or by the formula with the squared modulus of the
    divisor, or by the scaled formula, which divides the smaller part of the
    divisor by the larger one first, or by the formula with the squared
    modulus after both operands were multiplied by the reciprocal of the
    larger part of the divisor. *)
Inductive quotient : Type := ByParts | BySquares | Scaled | Rescaled.

Definition cdiv (alg : quotient) (z w : c64) : c64 :=
  let '(a, b) := z in
  let '(c, d) := w in
  match alg with
  | ByParts => (fdiv a c, fdiv b c)
  | BySquares =>
      let den := fadd (fmul c c) (fmul d d) in
      (fdiv (fadd (fmul a c) (fmul b d)) den,
       fdiv (fsub (fmul b c) (fmul a d)) den)
  | Scaled =>
      if SFleb (SFabs d) (SFabs c)
      then
        if SFeqb (SFabs c) zero32 && SFeqb (SFabs d) zero32
        then (fdiv a (SFabs c), fdiv b (SFabs d))
        else
          let rat := fdiv d c in
          let scl := fdiv one32 (fadd c (fmul d rat)) in
          (fmul (fadd a (fmul b rat)) scl, fmul (fsub b (fmul a rat)) scl)
      else
        let rat := fdiv c d in
        let scl := fdiv one32 (fadd d (fmul c rat)) in
        (fmul (fadd (fmul a rat) b) scl, fmul (fsub (fmul b rat) a) scl)
  | Rescaled =>
      let sc := fdiv one32 (fmax (SFabs c) (SFabs d)) in
      let a2 := fmul a sc in
      let b2 := fmul b sc in
      let c2 := fmul c sc in
      let d2 := fmul d sc in
      let den := fadd (fmul c2 c2) (fmul d2 d2) in
      (fdiv (fadd (fmul a2 c2) (fmul b2 d2)) den,
       fdiv (fsub (fmul b2 c2) (fmul a2 d2)) den)
  end.

(** [torch.max(torch.abs(t))] of the entries of a slice *)
Definition max_abs (alg : modulus) (sl : list c64) : result spec_float :=
  match map (cabs alg) sl with
  | [] => Raise RuntimeError
  | v :: l => Ok (fold_left fmax l v)
  end.

(** Lines 61 and 62 for the entries of one slice: the real [norm_value] is
    promoted to [norm_value + 0j] for the quotient. *)
Definition normalise (ma : modulus) (qa : quotient) (sl : list c64)
  : result (list c64) :=
  (norm_value <- max_abs ma sl ;;
   Ok (map (fun z => cdiv qa z (norm_value, zero32)) sl))%result.

(** The maximum modulus of a slice after the two lines, measured with the
    modulus [mb] *)
Definition normalised_max (ma : modulus) (qa : quotient) (mb : modulus)
    (sl : list c64) : result spec_float :=
  (sl' <- normalise ma qa sl ;; max_abs mb sl')%result.

(** The largest binary32 number below 1: 1 - 2^-24, printed 0.99999994 *)
Definition below_one : spec_float := S754_finite false 16777215 (-24).

Definition algorithms : list (modulus * quotient * modulus) :=
  flat_map (fun ma =>
    flat_map (fun qa => map (fun mb => (ma, qa, mb)) [Hypot; RootOfSquares])
             [ByParts; BySquares; Scaled; Rescaled])
    [Hypot; RootOfSquares].

End Complex64.

(* ================================================================== *)
(** ** Sample inputs *)

Module Samples.

(** A volume whose entries are all [v] *)
Definition const4 (n Nx Ny Nc : nat) (v : C) : tensor4 :=
  T4 n Nx Ny Nc (fun _ _ _ _ => v).

Definition zeros3 : nat -> nat -> nat -> C := fun _ _ _ => C0.

(** One slice of the size of the knee data, and one of 40 columns *)
Definition knee : tensor4 := const4 1 320 368 1 C1.
Definition narrow : tensor4 := const4 1 1 40 1 C1.

(** An image of one slice, two by two pixels, its two-coil sensitivity map
    and a mask *)
Definition image22 : tensor3 := T3 1 2 2 (fun _ _ _ => C1).
Definition sens222 : tensor4 := const4 1 2 2 2 C1.
Definition ones22 : tensor2 C := full2 2 2 C1.

(** A line of three pixels with a single 1 at its first position, as a
    one-coil tensor and as an image, and the unit sensitivity map for it *)
Definition delta3 : tensor4 :=
  T4 1 1 3 1 (fun _ _ j _ => if (j =? 0)%nat then C1 else C0).
Definition image3 : tensor3 :=
  T3 1 1 3 (fun _ _ j => if (j =? 0)%nat then C1 else C0).
Definition unit3 : tensor4 := const4 1 1 3 1 C1.

(** A draw of [torch.rand] *)
Definition draw0 : nat -> nat -> R := fun _ _ => 0%R.

End Samples.

(** ** More sample inputs *)

Module MoreSamples.

Import Samples Channels.

(** The unit sensitivity map of one coil on two by two pixels *)
Definition unit22 : tensor4 := const4 1 2 2 1 C1.



End MoreSamples.

(* ================================================================== *)
(** * Properties *)

(** ** Slices *)

Module PyFacts.

Import Py.
Local Open Scope Z_scope.

(** [range(40)[-1:41]] is [[39]], [range(40)[-18:40]] starts at 22, and
    [range(10)[::4]] is [[0, 4, 8]]. *)
Example selects_negative_start :
  map (selects (range_ (-1) 41) 40) [19; 38; 39]%nat = [false; false; true].
Proof. reflexivity. Qed.

Example selects_tail :
  map (selects (range_ (-18) 40) 40) [21; 22; 39]%nat = [false; true; true].
Proof. reflexivity. Qed.

Example selects_stride :
  map (selects (every_ 4) 10) [0; 1; 4; 8; 9]%nat
  = [true; false; true; true; false].
Proof. reflexivity. Qed.

Example index_wraps :
  index 5 (-1) = Ok 4%nat /\ index 5 5 = Raise IndexError
  /\ index 5 (-6) = Raise IndexError.
Proof. repeat split. Qed.

Lemma selects_all (len j : nat) :
  selects all_ len j = (j <? len)%nat.
Proof.
  unfold selects, all_, lower, upper, step_of; simpl.
  rewrite Z.mod_1_r.
  destruct (Nat.ltb_spec j len) as [H | H].
  - replace (0 <=? Z.of_nat j) with true by (symmetry; apply Z.leb_le; lia).
    replace (Z.of_nat j <? Z.of_nat len) with true
      by (symmetry; apply Z.ltb_lt; lia).
    reflexivity.
  - replace (Z.of_nat j <? Z.of_nat len) with false
      by (symmetry; apply Z.ltb_ge; lia).
    rewrite andb_false_r. reflexivity.
Qed.

Lemma selects_every (k : Z) (len j : nat) :
  0 < k ->
  selects (every_ k) len j = (j <? len)%nat && (Z.of_nat j mod k =? 0).
Proof.
  intros Hk.
  unfold selects, every_, lower, upper, step_of; simpl.
  rewrite Z.sub_0_r.
  replace (0 <=? Z.of_nat j) with true by (symmetry; apply Z.leb_le; lia).
  simpl. f_equal.
  destruct (Nat.ltb_spec j len); [apply Z.ltb_lt | apply Z.ltb_ge]; lia.
Qed.

(** What [a:b] selects, with both bounds adjusted *)
Lemma selects_range (a b : Z) (len j : nat) :
  selects (range_ a b) len j =
  (adjust (Z.of_nat len) a <=? Z.of_nat j)
  && (Z.of_nat j <? adjust (Z.of_nat len) b).
Proof.
  unfold selects, range_, lower, upper, step_of; simpl.
  rewrite Z.mod_1_r. simpl. apply andb_true_r.
Qed.

Lemma selects_lt_len (s : slice) (len j : nat) :
  selects s len j = true -> (j < len)%nat.
Proof.
  unfold selects. intros H.
  apply andb_prop in H as [H _]. apply andb_prop in H as [_ H].
  apply Z.ltb_lt in H.
  assert (upper s (Z.of_nat len) <= Z.of_nat len); [| lia].
  unfold upper, adjust. destruct (sl_stop s) as [v |]; [| lia].
  destruct (v <? 0) eqn:E; [apply Z.ltb_lt in E | apply Z.ltb_ge in E]; lia.
Qed.

(** [0:18]: the first eighteen positions *)
Lemma selects_first18 (len j : nat) :
  (j < len)%nat -> (j < 18)%nat -> selects (range_ 0 18) len j = true.
Proof.
  intros H1 H2. rewrite selects_range. unfold adjust. simpl.
  apply andb_true_intro. split; [apply Z.leb_le | apply Z.ltb_lt]; lia.
Qed.

(** [-18:len]: the last eighteen positions *)
Lemma selects_last18 (len j : nat) :
  (j < len)%nat -> (len - 18 <= j)%nat ->
  selects (range_ (-18) (Z.of_nat len)) len j = true.
Proof.
  intros H1 H2. rewrite selects_range. unfold adjust.
  change (-18 <? 0) with true. cbv iota.
  destruct (Z.of_nat len <? 0) eqn:E; [apply Z.ltb_lt in E; lia |].
  apply andb_true_intro. split; [apply Z.leb_le | apply Z.ltb_lt]; lia.
Qed.

(** A range whose bounds lie inside the axis selects exactly the positions
    between them. *)
Lemma selects_inner (a b : Z) (len j : nat) :
  0 <= a -> b <= Z.of_nat len -> a <= Z.of_nat j < b ->
  selects (range_ a b) len j = true.
Proof.
  intros Ha Hb Hj. rewrite selects_range. unfold adjust.
  destruct (a <? 0) eqn:Ea; [apply Z.ltb_lt in Ea; lia |].
  destruct (b <? 0) eqn:Eb; [apply Z.ltb_lt in Eb; lia |].
  apply andb_true_intro. split; [apply Z.leb_le | apply Z.ltb_lt]; lia.
Qed.

End PyFacts.

(** ** The forced lines of a mask *)

Module MaskFacts.

Import Py PyFacts Dataset.

Lemma setitem2_cols {A : Type} (t : tensor2 A) (cs : slice) (v : A) :
  (0 < step_of cs)%Z ->
  exists t',
    setitem2 t all_ cs v = Ok t'
    /\ rows t' = rows t /\ cols t' = cols t
    /\ forall i j, (i < rows t)%nat ->
         at2 t' i j = if selects cs (cols t) j then v else at2 t i j.
Proof.
  intros H. unfold setitem2.
  replace (step_of all_ <=? 0)%Z with false by reflexivity.
  replace (step_of cs <=? 0)%Z with false by (symmetry; apply Z.leb_gt; lia).
  simpl. eexists. split; [reflexivity |]. simpl. repeat split.
  intros i j Hi. rewrite selects_all.
  apply Nat.ltb_lt in Hi. now rewrite Hi.
Qed.

Lemma retain_lines_raises {A : Type} (one : A) (R_ : Z) (Ny : nat) (nACS : Z)
    (m : tensor2 A) :
  (R_ <= 0)%Z -> retain_lines one R_ Ny nACS m = Raise ValueError.
Proof.
  intros H. unfold retain_lines.
  assert (E : setitem2 m all_ (every_ R_) one = Raise ValueError).
  { unfold setitem2. change (step_of (every_ R_)) with R_.
    replace (R_ <=? 0)%Z with true by (symmetry; apply Z.leb_le; lia).
    now rewrite orb_true_r. }
  now rewrite E.
Qed.

Lemma retain_lines_ok {A : Type} (one : A) (R_ : Z) (Ny : nat) (nACS : Z)
    (m : tensor2 A) :
  (0 < R_)%Z ->
  exists m',
    retain_lines one R_ Ny nACS m = Ok m'
    /\ rows m' = rows m /\ cols m' = cols m
    /\ forall i j, (i < rows m)%nat ->
         at2 m' i j = if retained R_ (cols m) Ny nACS j then one else at2 m i j.
Proof.
  intros HR. unfold retain_lines.
  destruct (setitem2_cols m (every_ R_) one) as (m1 & E1 & r1 & c1 & V1);
    [exact HR |].
  destruct (setitem2_cols m1 (range_ 0 18) one) as (m2 & E2 & r2 & c2 & V2);
    [reflexivity |].
  destruct (setitem2_cols m2 (range_ (-18) (Z.of_nat Ny)) one)
    as (m3 & E3 & r3 & c3 & V3); [reflexivity |].
  destruct (setitem2_cols m3
              (range_ ((Z.of_nat Ny - nACS) / 2) ((Z.of_nat Ny + nACS) / 2)) one)
    as (m4 & E4 & r4 & c4 & V4); [reflexivity |].
  rewrite E1; cbn [rbind]. rewrite E2; cbn [rbind]. rewrite E3; cbn [rbind].
  exists m4. split; [exact E4 |].
  split; [congruence |]. split; [congruence |].
  intros i j Hi. unfold retained.
  rewrite V4 by congruence. rewrite V3 by congruence.
  rewrite V2 by congruence. rewrite V1 by congruence.
  rewrite c3, c2, c1.
  destruct (selects (range_ (_ / 2) _) (cols m) j); [now rewrite !orb_true_r |].
  destruct (selects (range_ (-18) _) (cols m) j); [now rewrite !orb_true_r |].
  destruct (selects (range_ 0 18) (cols m) j); [now rewrite !orb_true_r |].
  now rewrite !orb_false_r.
Qed.

End MaskFacts.

(** ** Shapes and entries of the tensor operations *)

Module TensorFacts.

Import Py Fourier Kernel.

Lemma shape4_inv (t : tensor4) (a b c d : nat) :
  shape4 t = (a, b, c, d) ->
  len4 t = a /\ rows4 t = b /\ cols4 t = c /\ coils4 t = d.
Proof. unfold shape4. intros H. injection H as -> -> -> ->. repeat split. Qed.

Lemma shape3_inv (t : tensor3) (a b c : nat) :
  shape3 t = (a, b, c) -> len3 t = a /\ rows3 t = b /\ cols3 t = c.
Proof. unfold shape3. intros H. injection H as -> -> ->. repeat split. Qed.

Lemma bdim_same (n : nat) : bdim n n = Ok n.
Proof. unfold bdim. now rewrite Nat.eqb_refl. Qed.

Lemma bdim_one_r (n : nat) : bdim n 1 = Ok n.
Proof.
  unfold bdim. destruct (n =? 1)%nat eqn:E; [| reflexivity].
  apply Nat.eqb_eq in E. now subst.
Qed.

Lemma bpos_inside (n i : nat) : (i < n)%nat -> bpos n i = i.
Proof.
  unfold bpos. intros H. destruct (n =? 1)%nat eqn:E; [| reflexivity].
  apply Nat.eqb_eq in E. lia.
Qed.

(** Product of two tensors of one shape *)
Lemma bmul4_same (a b : tensor4) :
  shape4 b = shape4 a ->
  exists p,
    bmul4 a b = Ok p /\ shape4 p = shape4 a
    /\ forall s i j c,
         (s < len4 a)%nat -> (i < rows4 a)%nat -> (j < cols4 a)%nat ->
         (c < coils4 a)%nat ->
         at4 p s i j c = Cmul (at4 a s i j c) (at4 b s i j c).
Proof.
  unfold shape4. intros H. injection H as H0 H1 H2 H3.
  unfold bmul4. rewrite H0, H1, H2, H3, !bdim_same. cbn [rbind].
  eexists. split; [reflexivity |]. split; [reflexivity |].
  intros s i j c Hs Hi Hj Hc. cbn.
  now rewrite !bpos_inside by assumption.
Qed.

(** Product with a tensor whose first and last axes have size one, as
    [mask[None,:,:,None]] has *)
Lemma bmul4_plane (a : tensor4) (m : tensor2 C) :
  rows m = rows4 a -> cols m = cols4 a ->
  exists p,
    bmul4 a (unsqueeze03 m) = Ok p /\ shape4 p = shape4 a
    /\ forall s i j c,
         (s < len4 a)%nat -> (i < rows4 a)%nat -> (j < cols4 a)%nat ->
         (c < coils4 a)%nat ->
         at4 p s i j c = Cmul (at4 a s i j c) (at2 m i j).
Proof.
  intros Hr Hc. unfold bmul4, unsqueeze03. cbn [len4 rows4 cols4 coils4 at4].
  rewrite Hr, Hc, !bdim_same, !bdim_one_r. cbn [rbind].
  eexists. split; [reflexivity |]. split; [reflexivity |].
  intros s i j c Hs Hi Hj Hcc.
  cbn. now rewrite !bpos_inside by assumption.
Qed.

(** Product with a tensor whose last axis has size one, as [x[:,:,:,None]] *)
Lemma bmul4_coil (a : tensor4) (x : tensor3) :
  shape3 x = (len4 a, rows4 a, cols4 a) ->
  exists p,
    bmul4 a (unsqueeze3 x) = Ok p /\ shape4 p = shape4 a
    /\ forall s i j c,
         (s < len4 a)%nat -> (i < rows4 a)%nat -> (j < cols4 a)%nat ->
         (c < coils4 a)%nat ->
         at4 p s i j c = Cmul (at4 a s i j c) (at3 x s i j).
Proof.
  unfold shape3. intros H. injection H as H0 H1 H2.
  unfold bmul4, unsqueeze3. cbn [len4 rows4 cols4 coils4 at4].
  rewrite H0, H1, H2, !bdim_same, !bdim_one_r. cbn [rbind].
  eexists. split; [reflexivity |]. split; [reflexivity |].
  intros s i j c Hs Hi Hj Hc.
  cbn. now rewrite !bpos_inside by assumption.
Qed.

Lemma dft12_ok (sgn : R) (x : tensor4) :
  (0 < rows4 x)%nat -> (0 < cols4 x)%nat ->
  exists y, dft12 sgn x = Ok y /\ shape4 y = shape4 x.
Proof.
  intros Hr Hc. unfold dft12.
  replace (rows4 x =? 0)%nat with false by (symmetry; apply Nat.eqb_neq; lia).
  replace (cols4 x =? 0)%nat with false by (symmetry; apply Nat.eqb_neq; lia).
  cbn [orb]. eexists. split; reflexivity.
Qed.

Lemma ifft2_ok (x : tensor4) :
  (0 < rows4 x)%nat -> (0 < cols4 x)%nat ->
  exists y, ifft2 x = Ok y /\ shape4 y = shape4 x.
Proof.
  intros Hr Hc. unfold ifft2, ifftn.
  destruct (dft12_ok 1 (fftshift x)) as (y & E & Hy); [exact Hr | exact Hc |].
  rewrite E. cbn [rbind]. eexists. split; [reflexivity |].
  exact Hy.
Qed.

Lemma fft2_ok (x : tensor4) :
  (0 < rows4 x)%nat -> (0 < cols4 x)%nat ->
  exists y, fft2 x = Ok y /\ shape4 y = shape4 x.
Proof.
  intros Hr Hc. unfold fft2, fftn.
  destruct (dft12_ok (-1) (ifftshift x)) as (y & E & Hy);
    [exact Hr | exact Hc |].
  rewrite E. cbn [rbind]. eexists. split; [reflexivity |].
  exact Hy.
Qed.

Lemma decode_ok (x S : tensor4) :
  (0 < rows4 x)%nat -> (0 < cols4 x)%nat -> shape4 S = shape4 x ->
  exists y, decode x S = Ok y /\ shape3 y = (len4 x, rows4 x, cols4 x).
Proof.
  intros Hr Hc HS. unfold decode.
  destruct (ifft2_ok x Hr Hc) as (y & E & Hy). rewrite E. cbn [rbind].
  destruct (@bmul4_same y (conj4 S)) as (p & Ep & Hp & _).
  { rewrite Hy, <- HS. reflexivity. }
  rewrite Ep. cbn [rbind]. eexists. split; [reflexivity |].
  unfold shape4 in Hp, Hy. injection Hp as P0 P1 P2 P3.
  injection Hy as Y0 Y1 Y2 Y3.
  unfold shape3. cbn. congruence.
Qed.

(** [t[i:i+1]] for a position of the first axis *)
Lemma slab_shape (t : tensor4) (i : nat) :
  (i < len4 t)%nat ->
  shape4 (slab t i) = (1%nat, rows4 t, cols4 t, coils4 t).
Proof.
  intros H. unfold slab, slice0, shape4, lower, upper, range_, adjust.
  cbn [sl_start sl_stop len4 rows4 cols4 coils4].
  destruct (Z.of_nat i <? 0)%Z eqn:E1; [apply Z.ltb_lt in E1; lia |].
  destruct (Z.of_nat i + 1 <? 0)%Z eqn:E2; [apply Z.ltb_lt in E2; lia |].
  do 3 f_equal. lia.
Qed.

Lemma slab_at (t : tensor4) (i : nat) (r c k : nat) :
  (i < len4 t)%nat -> at4 (slab t i) 0 r c k = at4 t i r c k.
Proof.
  intros H. unfold slab, slice0, lower, upper, range_, adjust.
  cbn [sl_start sl_stop at4].
  destruct (Z.of_nat i <? 0)%Z eqn:E1; [apply Z.ltb_lt in E1; lia |].
  f_equal. lia.
Qed.

Lemma max_list_ok (l : list R) :
  l <> [] -> exists m, max_list l = Ok m.
Proof. destruct l; [congruence | intros _; eexists; reflexivity]. Qed.

Lemma flat_map_length_const {A B : Type} (f : A -> list B) (l : list A) (n : nat) :
  (forall a, In a l -> length (f a) = n) ->
  length (flat_map f l) = (length l * n)%nat.
Proof.
  induction l as [| a l IH]; intros H; cbn [flat_map length].
  - reflexivity.
  - rewrite length_app, H by (left; reflexivity).
    rewrite IH by (intros; apply H; right; assumption). lia.
Qed.

Lemma entries2_length {A : Type} (t : tensor2 A) :
  length (entries2 t) = (rows t * cols t)%nat.
Proof.
  unfold entries2.
  rewrite flat_map_length_const with (n := cols t).
  - now rewrite length_seq.
  - intros. now rewrite length_map, length_seq.
Qed.

Lemma entries4_length (t : tensor4) :
  length (entries4 t) = (len4 t * (rows4 t * (cols4 t * coils4 t)))%nat.
Proof.
  unfold entries4.
  rewrite flat_map_length_const with (n := (rows4 t * (cols4 t * coils4 t))%nat).
  - now rewrite length_seq.
  - intros b _.
    rewrite flat_map_length_const with (n := (cols4 t * coils4 t)%nat).
    + now rewrite length_seq.
    + intros i _. rewrite flat_map_length_const with (n := coils4 t).
      * now rewrite length_seq.
      * intros. now rewrite length_map, length_seq.
Qed.

Lemma max_abs4_ok (t : tensor4) :
  (0 < len4 t)%nat -> (0 < rows4 t)%nat -> (0 < cols4 t)%nat ->
  (0 < coils4 t)%nat ->
  exists m, max_abs4 t = Ok m.
Proof.
  intros H0 H1 H2 H3. unfold max_abs4. apply max_list_ok.
  intros E. apply (f_equal (@length R)) in E.
  rewrite length_map, entries4_length in E. cbn in E.
  assert (0 < len4 t * (rows4 t * (cols4 t * coils4 t)))%nat
    by (repeat apply Nat.mul_pos_pos; assumption).
  lia.
Qed.

End TensorFacts.

(** ** [__getitem__] *)

Module GetitemFacts.

Import Py PyFacts Dataset MaskFacts Kernel.

Lemma same_data_refl (s : KneeDataset) : same_data s s.
Proof. repeat split. Qed.

Lemma same_data_trans (s1 s2 s3 : KneeDataset) :
  same_data s1 s2 -> same_data s2 s3 -> same_data s1 s3.
Proof.
  unfold same_data. intros H1 H2.
  decompose [and] H1. decompose [and] H2. repeat split; congruence.
Qed.

Lemma preserves_ret {A : Type} (a : A) : preserves (ret a).
Proof. intros s. apply same_data_refl. Qed.

Lemma preserves_lift {A : Type} (c : result A) : preserves (lift c).
Proof. intros s. apply same_data_refl. Qed.

Lemma preserves_attr {A : Type} (f : KneeDataset -> A) : preserves (attr f).
Proof. intros s. apply same_data_refl. Qed.

Lemma preserves_set_gauss_kernel (g : tensor2 R) : preserves (set_gauss_kernel g).
Proof. intros s. repeat split. Qed.

Lemma preserves_set_random (u : tensor2 R) : preserves (set_random u).
Proof. intros s. repeat split. Qed.

Lemma preserves_set_rand_mask (m : tensor2 bool) : preserves (set_rand_mask m).
Proof. intros s. repeat split. Qed.

Lemma preserves_bind {A B : Type} (c : M A) (k : A -> M B) :
  preserves c -> (forall a, preserves (k a)) -> preserves (bind c k).
Proof.
  intros Hc Hk s. unfold bind.
  specialize (Hc s). destruct (c s) as [s1 [a | e]]; simpl in *.
  - eapply same_data_trans; [exact Hc | apply Hk].
  - exact Hc.
Qed.

Create HintDb frame.

#[local] Hint Resolve preserves_ret preserves_lift preserves_attr
  preserves_set_gauss_kernel preserves_set_random preserves_set_rand_mask
  : frame.

Lemma preserves_getitem (draw : nat -> nat -> R) (index : Z) :
  preserves (getitem draw index).
Proof.
  unfold getitem.
  repeat (apply preserves_bind; [auto with frame | intros ?]).
  auto with frame.
Qed.

(** What a successful call has computed *)
Lemma getitem_inv (draw : nat -> nat -> R) (index : Z) (s s' : KneeDataset)
    (it : item) :
  getitem draw index s = (s', Ok it) ->
  exists g m0 m1,
    gauss_gen (rows (mask s)) (cols (mask s)) (1 / 2) = Ok g
    /\ bzip2 (fun a b => if Rlt_dec (6 / 10) (a * b) then true else false)
             (T2 (rows4 (kspace s)) (cols4 (kspace s)) draw) g = Ok m0
    /\ setitem2 m0 (range_ 158 162) (range_ 182 186) false = Ok m1
    /\ retain_lines true (accel s) (cols4 (kspace s)) (num_ACS s) m1
       = Ok (item_mask it)
    /\ row3 (x0 s) index = Ok (item_x0 it)
    /\ row3 (xref s) index = Ok (item_xref it)
    /\ row4 (kspace s) index = Ok (item_kspace it)
    /\ row4 (sens_map s) index = Ok (item_sens_map it)
    /\ item_index it = index
    /\ gauss_kernel s' = Some g
    /\ random s' = Some (T2 (rows4 (kspace s)) (cols4 (kspace s)) draw)
    /\ rand_mask s' = Some (item_mask it).
Proof.
  unfold getitem, bind, lift, attr, ret, set_gauss_kernel, set_random,
    set_rand_mask. cbn [fst snd kspace mask accel num_ACS x0 xref sens_map].
  intros H.
  destruct (gauss_gen _ _ _) as [g |] eqn:Eg; [| discriminate].
  destruct (bzip2 _ _ g) as [m0 |] eqn:E0; [| discriminate].
  destruct (setitem2 m0 _ _ _) as [m1 |] eqn:E1; [| discriminate].
  destruct (retain_lines _ _ _ _ m1) as [m5 |] eqn:E5; [| discriminate].
  destruct (row3 (x0 s) index) as [a |] eqn:Ea; [| discriminate].
  destruct (row3 (xref s) index) as [b |] eqn:Eb; [| discriminate].
  destruct (row4 (kspace s) index) as [c |] eqn:Ec; [| discriminate].
  destruct (row4 (sens_map s) index) as [d |] eqn:Ed; [| discriminate].
  injection H as <- <-.
  exists g, m0, m1. cbn. repeat split; assumption || reflexivity.
Qed.

End GetitemFacts.

(** ** [__init__]: shapes and the fixed mask *)

Module InitFacts.

Import Py PyFacts Dataset MaskFacts Kernel Fourier.

Lemma init_step_inv (msk : tensor2 C) (sens ks ks' : tensor4)
    (a b a' b' : tensor3) (i : nat) :
  init_step msk sens (ks, a, b) i = Ok (ks', a', b') ->
  exists nv masked da db,
    max_abs4 (slab ks i) = Ok nv
    /\ ks' = scale_slice ks i nv
    /\ bmul4 (slab ks' i) (unsqueeze03 msk) = Ok masked
    /\ decode masked (slab sens i) = Ok da
    /\ setrow3 a i da = Ok a'
    /\ decode (slab ks' i) (slab sens i) = Ok db
    /\ setrow3 b i db = Ok b'.
Proof.
  unfold init_step. intros H.
  destruct (max_abs4 (slab ks i)) as [nv |] eqn:E1; [| discriminate].
  cbn [rbind] in H.
  destruct (bmul4 _ (unsqueeze03 msk)) as [masked |] eqn:E2; [| discriminate].
  cbn [rbind] in H.
  destruct (decode masked _) as [da |] eqn:E3; [| discriminate].
  cbn [rbind] in H.
  destruct (setrow3 a i da) as [a1 |] eqn:E4; [| discriminate].
  cbn [rbind] in H.
  destruct (decode (slab _ i) _) as [db |] eqn:E5; [| discriminate].
  cbn [rbind] in H.
  destruct (setrow3 b i db) as [b1 |] eqn:E6; [| discriminate].
  cbn [rbind] in H. injection H as <- <- <-.
  exists nv, masked, da, db. repeat split; assumption.
Qed.

Lemma setrow3_shape (t v t' : tensor3) (i : nat) :
  setrow3 t i v = Ok t' ->
  len3 t' = len3 t /\ rows3 t' = rows3 t /\ cols3 t' = cols3 t.
Proof.
  unfold setrow3. destruct (_ && _); [| discriminate].
  intros H. injection H as <-. repeat split.
Qed.

Lemma init_step_shape (msk : tensor2 C) (sens ks ks' : tensor4)
    (a b a' b' : tensor3) (i : nat) :
  init_step msk sens (ks, a, b) i = Ok (ks', a', b') ->
  shape4 ks' = shape4 ks /\ shape3 a' = shape3 a /\ shape3 b' = shape3 b.
Proof.
  intros H. apply init_step_inv in H
    as (nv & masked & da & db & _ & -> & _ & _ & Ha & _ & Hb).
  apply setrow3_shape in Ha as (? & ? & ?).
  apply setrow3_shape in Hb as (? & ? & ?).
  unfold shape4, shape3. cbn. repeat split; congruence.
Qed.

Lemma init_loop_shape (msk : tensor2 C) (sens : tensor4) (is_ : list nat) :
  forall ks a b ks' a' b',
    init_loop msk sens is_ (ks, a, b) = Ok (ks', a', b') ->
    shape4 ks' = shape4 ks /\ shape3 a' = shape3 a /\ shape3 b' = shape3 b.
Proof.
  induction is_ as [| i rest IH]; intros ks a b ks' a' b' H;
    cbn [init_loop] in H.
  - injection H as <- <- <-. repeat split.
  - destruct (init_step msk sens (ks, a, b) i) as [[[ks1 a1] b1] |] eqn:E;
      [| discriminate].
    apply init_step_shape in E as (E1 & E2 & E3).
    apply IH in H as (H1 & H2 & H3).
    repeat split; congruence.
Qed.

Section InitInv.

Variables (kfile sfile : tensor4) (junk0 junk1 : nat -> nat -> nat -> C).
Variables (R_ num_slice nACS : Z).

Let ks0 : tensor4 := slice0 kfile 0 (0 + num_slice * 1).
Let sens0 : tensor4 := slice0 sfile 0 (0 + num_slice * 1).

Lemma init_inv (ds : KneeDataset) :
  init kfile sfile junk0 junk1 R_ num_slice nACS = Ok ds ->
  retain_lines C1 R_ (cols4 ks0) nACS (full2 (rows4 ks0) (cols4 ks0) C0)
    = Ok (mask ds)
  /\ init_loop (mask ds) sens0 (seq 0 (len4 ks0))
       (ks0, T3 (len4 ks0) (rows4 ks0) (cols4 ks0) junk0,
             T3 (len4 ks0) (rows4 ks0) (cols4 ks0) junk1)
     = Ok (kspace ds, x0 ds, xref ds)
  /\ num_ACS ds = nACS /\ accel ds = R_ /\ n_slices ds = len4 ks0
  /\ sens_map ds = sens0
  /\ gauss_kernel ds = None /\ random ds = None /\ rand_mask ds = None.
Proof.
  unfold init. fold ks0 sens0. intros H.
  destruct (retain_lines C1 R_ _ nACS _) as [msk |] eqn:E1; [| discriminate].
  cbn [rbind] in H.
  destruct (init_loop msk sens0 _ _) as [[[ks' a'] b'] |] eqn:E2;
    [| discriminate].
  cbn [rbind] in H. injection H as <-. cbn. repeat split; assumption.
Qed.

Lemma init_shapes (ds : KneeDataset) :
  init kfile sfile junk0 junk1 R_ num_slice nACS = Ok ds ->
  (0 < R_)%Z
  /\ shape4 (kspace ds) = shape4 ks0
  /\ rows (mask ds) = rows4 (kspace ds) /\ cols (mask ds) = cols4 (kspace ds).
Proof.
  intros H. apply init_inv in H as (Hm & Hl & _).
  apply init_loop_shape in Hl as (Hk & _ & _).
  assert (HR : (0 < R_)%Z).
  { destruct (Z_lt_le_dec 0 R_) as [HR | HR]; [exact HR |].
    rewrite retain_lines_raises in Hm by exact HR. discriminate. }
  split; [exact HR |]. split; [exact Hk |].
  destruct (retain_lines_ok C1 (cols4 ks0) nACS
              (full2 (rows4 ks0) (cols4 ks0) C0) HR)
    as (m' & E & Hr & Hc & _).
  rewrite E in Hm. injection Hm as <-.
  unfold shape4 in Hk. injection Hk as K0 K1 K2 K3.
  cbn in Hr, Hc. split; congruence.
Qed.

End InitInv.

End InitFacts.

(** ** Construction and item access succeed on well-shaped input *)

Module Totality.

Import Py PyFacts Dataset MaskFacts Kernel Fourier TensorFacts InitFacts
  GetitemFacts.

Lemma setrow3_ok (t v : tensor3) (i : nat) :
  shape3 v = (1%nat, rows3 t, cols3 t) -> exists t', setrow3 t i v = Ok t'.
Proof.
  unfold shape3. intros H. injection H as H0 H1 H2.
  unfold setrow3, fits. rewrite H0, H1, H2, !Nat.eqb_refl. cbn.
  eexists. reflexivity.
Qed.

Section Step.

Variables (msk : tensor2 C) (sens : tensor4) (n Nx Ny Nc : nat).
Hypotheses (HNx : (0 < Nx)%nat) (HNy : (0 < Ny)%nat) (HNc : (0 < Nc)%nat).
Hypotheses (Hmr : rows msk = Nx) (Hmc : cols msk = Ny).
Hypothesis Hsens : shape4 sens = (n, Nx, Ny, Nc).

Lemma init_step_ok (ks : tensor4) (a b : tensor3) (i : nat) :
  (i < n)%nat ->
  shape4 ks = (n, Nx, Ny, Nc) -> shape3 a = (n, Nx, Ny) ->
  shape3 b = (n, Nx, Ny) ->
  exists st', init_step msk sens (ks, a, b) i = Ok st'.
Proof.
  intros Hi Hks Ha Hb. unfold init_step.
  apply shape4_inv in Hks as (K0 & K1 & K2 & K3).
  apply shape4_inv in Hsens as (S0 & S1 & S2 & S3).
  apply shape3_inv in Ha as (A0 & A1 & A2).
  apply shape3_inv in Hb as (B0 & B1 & B2).
  assert (Hslab : shape4 (slab ks i) = (1%nat, Nx, Ny, Nc)).
  { rewrite slab_shape by lia. congruence. }
  assert (Hslab' : forall nv,
            shape4 (slab (scale_slice ks i nv) i) = (1%nat, Nx, Ny, Nc)).
  { intros nv. rewrite slab_shape by (cbn; lia). cbn. congruence. }
  assert (Hss : shape4 (slab sens i) = (1%nat, Nx, Ny, Nc)).
  { rewrite slab_shape by lia. congruence. }
  apply shape4_inv in Hslab as (L0 & L1 & L2 & L3).
  destruct (@max_abs4_ok (slab ks i)) as (nv & E1); try lia.
  rewrite E1. cbn [rbind].
  specialize (Hslab' nv). set (sl := slab (scale_slice ks i nv) i) in *.
  apply shape4_inv in Hslab' as (P0 & P1 & P2 & P3).
  destruct (@bmul4_plane sl msk) as (masked & E2 & Hm & _);
    try congruence.
  rewrite E2. cbn [rbind].
  apply shape4_inv in Hm as (M0 & M1 & M2 & M3).
  destruct (@decode_ok masked (slab sens i)) as (da & E3 & Hda); try lia.
  { rewrite Hss. unfold shape4. congruence. }
  rewrite E3. cbn [rbind].
  destruct (@setrow3_ok a da i) as (a' & E4).
  { rewrite Hda. congruence. }
  rewrite E4. cbn [rbind].
  destruct (@decode_ok sl (slab sens i)) as (db & E5 & Hdb); try lia.
  { rewrite Hss. unfold shape4. congruence. }
  rewrite E5. cbn [rbind].
  destruct (@setrow3_ok b db i) as (b' & E6).
  { rewrite Hdb. congruence. }
  rewrite E6. cbn [rbind].
  eexists. reflexivity.
Qed.

Lemma init_loop_ok (is_ : list nat) :
  (forall i, In i is_ -> (i < n)%nat) ->
  forall ks a b,
    shape4 ks = (n, Nx, Ny, Nc) -> shape3 a = (n, Nx, Ny) ->
    shape3 b = (n, Nx, Ny) ->
    exists st', init_loop msk sens is_ (ks, a, b) = Ok st'.
Proof.
  induction is_ as [| i rest IH]; intros Hin ks a b Hks Ha Hb;
    cbn [init_loop].
  - eexists. reflexivity.
  - destruct (@init_step_ok ks a b i) as ([[ks1 a1] b1] & E);
      [apply Hin; left; reflexivity | assumption ..|].
    rewrite E. apply init_step_shape in E as (E1 & E2 & E3).
    apply IH; [intros; apply Hin; right; assumption | congruence ..].
Qed.

End Step.

Lemma init_total (kfile sfile : tensor4) (junk0 junk1 : nat -> nat -> nat -> C)
    (R_ num_slice nACS : Z) :
  (0 < R_)%Z ->
  (0 < rows4 kfile)%nat -> (0 < cols4 kfile)%nat -> (0 < coils4 kfile)%nat ->
  shape4 sfile = shape4 kfile ->
  exists ds, init kfile sfile junk0 junk1 R_ num_slice nACS = Ok ds.
Proof.
  intros HR H1 H2 H3 HS. unfold init.
  set (ks0 := slice0 kfile 0 (0 + num_slice * 1)).
  set (sens0 := slice0 sfile 0 (0 + num_slice * 1)).
  destruct (retain_lines_ok C1 (cols4 ks0) nACS
              (full2 (rows4 ks0) (cols4 ks0) C0) HR)
    as (msk & E & Hr & Hc & _).
  rewrite E. cbn [rbind].
  destruct (@init_loop_ok msk sens0 (len4 ks0) (rows4 kfile) (cols4 kfile)
              (coils4 kfile) H1 H2 H3 Hr Hc) with
    (is_ := seq 0 (len4 ks0)) (ks := ks0)
    (a := T3 (len4 ks0) (rows4 ks0) (cols4 ks0) junk0)
    (b := T3 (len4 ks0) (rows4 ks0) (cols4 ks0) junk1)
    as ([[ks' a'] b'] & E').
  - unfold shape4 in HS. injection HS as S0 S1 S2 S3.
    unfold sens0, ks0, slice0, shape4. cbn. congruence.
  - intros i Hi. apply in_seq in Hi. lia.
  - reflexivity.
  - reflexivity.
  - reflexivity.
  - rewrite E'. cbn [rbind]. eexists. reflexivity.
Qed.

Lemma index_ok (len : nat) (i : nat) :
  (i < len)%nat -> Py.index len (Z.of_nat i) = Ok i.
Proof.
  intros H. unfold Py.index.
  destruct (Z.of_nat i <? 0)%Z eqn:E; [apply Z.ltb_lt in E; lia |].
  replace (0 <=? Z.of_nat i)%Z with true by (symmetry; apply Z.leb_le; lia).
  replace (Z.of_nat i <? Z.of_nat len)%Z with true
    by (symmetry; apply Z.ltb_lt; lia).
  cbn. now rewrite Nat2Z.id.
Qed.

Lemma gauss_gen_ok (Nx Ny : nat) (sigma : R) :
  (0 < Nx)%nat -> (0 < Ny)%nat ->
  exists g, gauss_gen Nx Ny sigma = Ok g /\ rows g = Nx /\ cols g = Ny.
Proof.
  intros Hx Hy. unfold gauss_gen.
  match goal with |- context [max_list ?l] =>
    destruct (@max_list_ok l) as (m & E) end.
  { intros E. apply (f_equal (@length R)) in E.
    rewrite entries2_length in E. cbn in E.
    assert (0 < Nx * Ny)%nat by (apply Nat.mul_pos_pos; assumption). lia. }
  rewrite E. cbn [rbind]. eexists. repeat split.
Qed.

(** An item access succeeds when the shapes agree, the stride is positive
    and the index is in range. *)
Lemma getitem_total (draw : nat -> nat -> R) (s : KneeDataset) (i : nat) :
  rows (mask s) = rows4 (kspace s) -> cols (mask s) = cols4 (kspace s) ->
  (0 < rows4 (kspace s))%nat -> (0 < cols4 (kspace s))%nat ->
  (0 < accel s)%Z ->
  (i < len3 (x0 s))%nat -> (i < len3 (xref s))%nat ->
  (i < len4 (kspace s))%nat -> (i < len4 (sens_map s))%nat ->
  exists s' it, getitem draw (Z.of_nat i) s = (s', Ok it).
Proof.
  intros Hr Hc Hx Hy HR I1 I2 I3 I4.
  unfold getitem, bind, lift, attr, ret, set_gauss_kernel, set_random,
    set_rand_mask. cbn [fst snd kspace mask accel num_ACS x0 xref sens_map].
  destruct (@gauss_gen_ok (rows (mask s)) (cols (mask s)) (1 / 2))
    as (g & Eg & Gr & Gc); [lia | lia |].
  rewrite Eg.
  unfold bzip2. cbn [rows cols]. rewrite Gr, Gc, Hr, Hc, !bdim_same.
  cbn [rbind].
  match goal with |- context [setitem2 ?m (range_ 158 162) ?cs ?v] =>
    assert (E1 : exists m1, setitem2 m (range_ 158 162) cs v = Ok m1
                            /\ rows m1 = rows m /\ cols m1 = cols m)
      by (eexists; split; [reflexivity | split; reflexivity]);
    destruct E1 as (m1 & E1 & R1 & C1_) end.
  rewrite E1.
  destruct (retain_lines_ok true (cols4 (kspace s)) (num_ACS s) m1 HR)
    as (m5 & E5 & _).
  rewrite E5.
  unfold row3, row4. rewrite !index_ok by assumption. cbn [rbind].
  eexists. eexists. reflexivity.
Qed.

End Totality.

(** ** The two masks *)

Module MaskClaims.

Import Py PyFacts Dataset MaskFacts Kernel Fourier TensorFacts InitFacts
  GetitemFacts Totality Samples.

Lemma reachable_shapes (s : KneeDataset) :
  reachable s ->
  (0 < accel s)%Z
  /\ rows (mask s) = rows4 (kspace s) /\ cols (mask s) = cols4 (kspace s).
Proof.
  induction 1 as [kfile sfile j0 j1 R_ ns nACS ds H | s draw index _ IH].
  - pose proof (init_shapes _ _ _ _ _ _ _ H) as (HR & _ & Hr & Hc).
    apply init_inv in H as (_ & _ & _ & -> & _). auto.
  - destruct (preserves_getitem draw index s)
      as (_ & Ek & _ & _ & Em & _ & _ & Ea).
    rewrite Ek, Em, Ea. exact IH.
Qed.

(** Every entry of the fixed mask *)
Lemma init_mask_entries (kfile sfile : tensor4)
    (junk0 junk1 : nat -> nat -> nat -> C) (R_ num_slice nACS : Z)
    (ds : KneeDataset) :
  init kfile sfile junk0 junk1 R_ num_slice nACS = Ok ds ->
  rows (mask ds) = rows4 kfile /\ cols (mask ds) = cols4 kfile
  /\ forall i j, (i < rows (mask ds))%nat ->
       at2 (mask ds) i j =
       if retained R_ (cols (mask ds)) (cols (mask ds)) nACS j then C1 else C0.
Proof.
  intros H. pose proof (init_shapes _ _ _ _ _ _ _ H) as (HR & _ & _ & _).
  apply init_inv in H as (Hm & _).
  destruct (retain_lines_ok C1
              (cols4 (slice0 kfile 0 (0 + num_slice * 1))) nACS
              (full2 (rows4 (slice0 kfile 0 (0 + num_slice * 1)))
                     (cols4 (slice0 kfile 0 (0 + num_slice * 1))) C0) HR)
    as (m' & E & Hr & Hc & Hv).
  rewrite E in Hm. injection Hm as <-. cbn in Hr, Hc, Hv.
  split; [exact Hr |]. split; [exact Hc |].
  intros i j Hi. rewrite Hc. apply Hv. now rewrite <- Hr.
Qed.

(** Every entry of the mask that an item access returns *)
Lemma rand_mask_entries (s s' : KneeDataset) (draw : nat -> nat -> R)
    (index : Z) (it : item) :
  reachable s -> getitem draw index s = (s', Ok it) ->
  rows (item_mask it) = rows4 (kspace s)
  /\ cols (item_mask it) = cols4 (kspace s)
  /\ exists field : nat -> nat -> bool,
       forall i j, (i < rows (item_mask it))%nat ->
         at2 (item_mask it) i j =
         if retained (accel s) (cols (item_mask it)) (cols (item_mask it))
              (num_ACS s) j
         then true
         else if selects (range_ 158 162) (rows (item_mask it)) i
                 && selects (range_ 182 186) (cols (item_mask it)) j
              then false
              else field i j.
Proof.
  intros Hs H. apply reachable_shapes in Hs as (HR & Mr & Mc).
  apply getitem_inv in H
    as (g & m0 & m1 & Eg & E0 & E1 & E5 & _).
  assert (Hg : rows g = rows (mask s) /\ cols g = cols (mask s)).
  { unfold gauss_gen in Eg. destruct (max_list _); [| discriminate].
    cbn [rbind] in Eg. injection Eg as <-. split; reflexivity. }
  destruct Hg as (Gr & Gc).
  unfold bzip2 in E0. cbn [rows cols] in E0.
  rewrite Gr, Gc, Mr, Mc, !bdim_same in E0. cbn [rbind] in E0.
  injection E0 as <-.
  unfold setitem2 in E1. cbn [step_of range_ sl_step Z.leb Z.compare orb] in E1.
  injection E1 as <-.
  destruct (retain_lines_ok true (cols4 (kspace s)) (num_ACS s)
              (T2 (rows4 (kspace s)) (cols4 (kspace s))
                 (fun i j =>
                    if selects (range_ 158 162) (rows4 (kspace s)) i
                       && selects (range_ 182 186) (cols4 (kspace s)) j
                    then false
                    else
                      if Rlt_dec (6 / 10)
                           (draw (bpos (rows4 (kspace s)) i)
                                 (bpos (cols4 (kspace s)) j)
                            * at2 g (bpos (rows4 (kspace s)) i)
                                    (bpos (cols4 (kspace s)) j))
                      then true else false)) HR)
    as (m5 & E & Hr & Hc & Hv).
  cbn [rows cols at2] in E, Hr, Hc, Hv.
  rewrite E in E5. injection E5 as <-.
  split; [exact Hr |]. split; [exact Hc |].
  eexists. intros i j Hi. rewrite Hr in Hi. rewrite Hv by exact Hi.
  rewrite Hr, Hc. reflexivity.
Qed.

End MaskClaims.

Import Py PyFacts Dataset MaskFacts Kernel Fourier TensorFacts InitFacts
  GetitemFacts Totality Samples MaskClaims.

(** An item access on a freshly built dataset succeeds when the volume has
    rows and columns and the index is a slice of both files. *)
Lemma init_getitem_ok (kfile sfile : tensor4)
    (junk0 junk1 : nat -> nat -> nat -> C) (R_ num_slice nACS : Z)
    (ds : KneeDataset) (draw : nat -> nat -> R) (i : nat) :
  init kfile sfile junk0 junk1 R_ num_slice nACS = Ok ds ->
  (0 < rows4 kfile)%nat -> (0 < cols4 kfile)%nat ->
  (i < len4 (slice0 kfile 0 (0 + num_slice * 1)))%nat ->
  (i < len4 (slice0 sfile 0 (0 + num_slice * 1)))%nat ->
  exists s' it, getitem draw (Z.of_nat i) ds = (s', Ok it).
Proof.
  intros H Hr Hc Hk Hs.
  pose proof (init_shapes _ _ _ _ _ _ _ H) as (HR & Hsh & Mr & Mc).
  pose proof (init_inv _ _ _ _ _ _ _ H) as (_ & Hl & _ & Ha & _ & Hsm & _).
  apply init_loop_shape in Hl as (_ & Hx & Hy).
  apply shape4_inv in Hsh as (K0 & K1 & K2 & K3).
  apply shape3_inv in Hx as (X0 & _). apply shape3_inv in Hy as (Y0 & _).
  cbn [len3] in X0, Y0. cbn [rows4 cols4 slice0] in K1, K2.
  apply getitem_total; try congruence; try lia.
Qed.

(** C1.  For every random draw, the mask returned by [__getitem__] has the
    shape of a k-space slice and holds 1 at every column whose index is a
    multiple of the stride R, at every column 0..17 and at every one of the
    last 18 columns, in all rows. *)
Theorem rand_mask_retains_lines (s s' : KneeDataset) (draw : nat -> nat -> R)
    (index : Z) (it : item) :
  reachable s -> getitem draw index s = (s', Ok it) ->
  rows (item_mask it) = rows4 (kspace s)
  /\ cols (item_mask it) = cols4 (kspace s)
  /\ forall i j,
       (i < rows (item_mask it))%nat -> (j < cols (item_mask it))%nat ->
       (Z.of_nat j mod accel s = 0)%Z \/ (j < 18)%nat
       \/ (cols (item_mask it) - 18 <= j)%nat ->
       get2 (item_mask it) i j = Some true.
Proof.
  intros Hs H.
  pose proof (@reachable_shapes _ Hs) as (HR & _).
  destruct (@rand_mask_entries _ _ _ _ _ Hs H) as (Hr & Hc & field & Hv).
  split; [exact Hr |]. split; [exact Hc |].
  intros i j Hi Hj Hcol. unfold get2.
  apply Nat.ltb_lt in Hi, Hj. rewrite Hi, Hj. cbn [andb].
  apply Nat.ltb_lt in Hi, Hj. rewrite Hv by exact Hi.
  replace (retained _ _ _ _ j) with true; [reflexivity |].
  symmetry. unfold retained. destruct Hcol as [Hm | [H18 | Hl]].
  - rewrite selects_every by exact HR.
    apply Nat.ltb_lt in Hj. rewrite Hj. apply Z.eqb_eq in Hm. rewrite Hm.
    reflexivity.
  - rewrite selects_first18 by assumption. now rewrite !orb_true_r.
  - rewrite selects_last18 by assumption. now rewrite !orb_true_r.
Qed.

Lemma rand_mask_retains_lines_witness :
  exists ds s' it,
    init knee knee zeros3 zeros3 4 1 24 = Ok ds
    /\ getitem draw0 0 ds = (s', Ok it)
    /\ get2 (item_mask it) 200 100 = Some true.
Proof.
  destruct (@init_total knee knee zeros3 zeros3 4 1 24) as (ds & E);
    [reflexivity | cbn; lia .. | reflexivity |].
  destruct (@init_getitem_ok knee knee zeros3 zeros3 4 1 24 ds draw0 0 E)
    as (s' & it & G); [cbn; lia .. |].
  exists ds, s', it. split; [exact E |]. split; [exact G |].
  destruct (@rand_mask_retains_lines _ _ _ _ _
              (@reach_init _ _ _ _ _ _ _ _ E) G) as (Hr & Hc & Hv).
  pose proof (init_shapes _ _ _ _ _ _ _ E) as (_ & Hsh & _).
  apply shape4_inv in Hsh as (_ & K1 & K2 & _). cbn in K1, K2.
  pose proof (init_inv _ _ _ _ _ _ _ E) as (_ & _ & _ & Ha & _).
  apply Hv; [lia | lia |]. left. rewrite Ha. reflexivity.
Defined.

(** C2, as stated, fails: on a slice of the size of the knee data (320 by
    368) with stride 4 and [num_ACS = 24], entry (158, 184) of the fixed
    4x4 block is 1 in the returned mask, for column 184 is a stride column
    and lies in the centered band, both written after the block is
    zeroed. *)
Lemma rand_mask_block_overwritten :
  exists ds s' it,
    init knee knee zeros3 zeros3 4 1 24 = Ok ds
    /\ getitem draw0 0 ds = (s', Ok it)
    /\ get2 (item_mask it) 158 184 = Some true.
Proof.
  destruct (@init_total knee knee zeros3 zeros3 4 1 24) as (ds & E);
    [reflexivity | cbn; lia .. | reflexivity |].
  destruct (@init_getitem_ok knee knee zeros3 zeros3 4 1 24 ds draw0 0 E)
    as (s' & it & G); [cbn; lia .. |].
  exists ds, s', it. split; [exact E |]. split; [exact G |].
  destruct (@rand_mask_entries _ _ _ _ _ (@reach_init _ _ _ _ _ _ _ _ E) G)
    as (Hr & Hc & field & Hv).
  pose proof (init_shapes _ _ _ _ _ _ _ E) as (_ & Hsh & _).
  apply shape4_inv in Hsh as (_ & K1 & K2 & _). cbn in K1, K2.
  pose proof (init_inv _ _ _ _ _ _ _ E) as (_ & _ & HA & Ha & _).
  unfold get2. rewrite Hv by lia. rewrite Hr, Hc, K1, K2, Ha, HA.
  reflexivity.
Qed.

(** C2, amended.  For every random draw, the mask returned by
    [__getitem__] has value 0 at every entry of the block of rows 158..161
    and columns 182..185 whose column is not a multiple of R, not one of the
    last 18 columns and not selected by the centered slice
    [(Ny - num_ACS)//2 : (Ny + num_ACS)//2]. *)
Theorem rand_mask_block_zero (s s' : KneeDataset) (draw : nat -> nat -> R)
    (index : Z) (it : item) :
  reachable s -> getitem draw index s = (s', Ok it) ->
  forall i j,
    (i < rows (item_mask it))%nat -> (j < cols (item_mask it))%nat ->
    (158 <= i <= 161)%nat -> (182 <= j <= 185)%nat ->
    (Z.of_nat j mod accel s <> 0)%Z ->
    (j + 18 < cols (item_mask it))%nat ->
    selects (range_ ((Z.of_nat (cols (item_mask it)) - num_ACS s) / 2)
                    ((Z.of_nat (cols (item_mask it)) + num_ACS s) / 2))
            (cols (item_mask it)) j = false ->
    get2 (item_mask it) i j = Some false.
Proof.
  intros Hs H i j Hi Hj Bi Bj Hm Hl Hband.
  pose proof (@reachable_shapes _ Hs) as (HR & _).
  destruct (@rand_mask_entries _ _ _ _ _ Hs H) as (Hr & Hc & field & Hv).
  unfold get2. apply Nat.ltb_lt in Hi, Hj. rewrite Hi, Hj. cbn [andb].
  apply Nat.ltb_lt in Hi, Hj. rewrite Hv by exact Hi.
  replace (retained _ _ _ _ j) with false.
  - replace (selects (range_ 158 162) _ i) with true.
    + replace (selects (range_ 182 186) _ j) with true; [reflexivity |].
      symmetry. rewrite selects_range. unfold adjust. cbn [Z.ltb Z.compare].
      apply andb_true_intro. split; [apply Z.leb_le | apply Z.ltb_lt]; lia.
    + symmetry. rewrite selects_range. unfold adjust. cbn [Z.ltb Z.compare].
      apply andb_true_intro. split; [apply Z.leb_le | apply Z.ltb_lt]; lia.
  - symmetry. unfold retained. rewrite Hband, orb_false_r.
    rewrite selects_every by exact HR.
    apply Z.eqb_neq in Hm. rewrite Hm, andb_false_r. cbn [orb].
    apply orb_false_intro.
    + rewrite selects_range. unfold adjust. cbn [Z.ltb Z.compare].
      apply andb_false_intro2. apply Z.ltb_ge. lia.
    + rewrite selects_range. unfold adjust.
      change (-18 <? 0)%Z with true. cbv iota.
      apply andb_false_intro1. apply Z.leb_gt. lia.
Qed.

Lemma rand_mask_block_zero_witness :
  exists ds s' it,
    init knee knee zeros3 zeros3 4 1 2 = Ok ds
    /\ getitem draw0 0 ds = (s', Ok it)
    /\ get2 (item_mask it) 158 182 = Some false.
Proof.
  destruct (@init_total knee knee zeros3 zeros3 4 1 2) as (ds & E);
    [reflexivity | cbn; lia .. | reflexivity |].
  destruct (@init_getitem_ok knee knee zeros3 zeros3 4 1 2 ds draw0 0 E)
    as (s' & it & G); [cbn; lia .. |].
  exists ds, s', it. split; [exact E |]. split; [exact G |].
  destruct (@rand_mask_entries _ _ _ _ _ (@reach_init _ _ _ _ _ _ _ _ E) G)
    as (Hr & Hc & _).
  pose proof (init_shapes _ _ _ _ _ _ _ E) as (_ & Hsh & _).
  apply shape4_inv in Hsh as (_ & K1 & K2 & _). cbn in K1, K2.
  pose proof (init_inv _ _ _ _ _ _ _ E) as (_ & _ & HA & Ha & _).
  apply (@rand_mask_block_zero _ _ _ _ _ (@reach_init _ _ _ _ _ _ _ _ E) G);
    rewrite ?Hr, ?Hc, ?K1, ?K2, ?Ha, ?HA; try lia.
  - discriminate.
  - reflexivity.
Defined.

(** C8, as stated, fails when the band is wider than the mask: with 40
    columns, stride 4 and [num_ACS = 42] the slice is [-1:41], which selects
    column 39 only, and column 19, inside the band, keeps its 0. *)
Lemma acs_band_wider_than_mask :
  exists ds,
    init narrow narrow zeros3 zeros3 4 1 42 = Ok ds
    /\ ((40 - 42) / 2 <= 19 < (40 + 42) / 2)%Z
    /\ get2 (mask ds) 0 19 = Some C0
    /\ C0 <> C1.
Proof.
  destruct (@init_total narrow narrow zeros3 zeros3 4 1 42) as (ds & E);
    [reflexivity | cbn; lia .. | reflexivity |].
  exists ds. split; [exact E |].
  split; [split; [apply Z.leb_le | apply Z.ltb_lt]; reflexivity |].
  destruct (init_mask_entries _ _ _ _ _ _ _ E) as (Hr & Hc & Hv).
  cbn in Hr, Hc. split.
  - unfold get2. rewrite Hv by lia. rewrite Hr, Hc. reflexivity.
  - unfold C0, C1. intros H. injection H as H. lra.
Qed.

(** C8, amended.  When [num_ACS] does not exceed the number of columns Ny,
    the fixed mask built by [__init__] has value 1 at all columns from
    [(Ny - num_ACS)//2] up to but excluding [(Ny + num_ACS)//2], in every
    row. *)
Theorem acs_band_retained (kfile sfile : tensor4)
    (junk0 junk1 : nat -> nat -> nat -> C) (R_ num_slice nACS : Z)
    (ds : KneeDataset) :
  init kfile sfile junk0 junk1 R_ num_slice nACS = Ok ds ->
  (nACS <= Z.of_nat (cols4 kfile))%Z ->
  rows (mask ds) = rows4 kfile /\ cols (mask ds) = cols4 kfile
  /\ forall i j,
       (i < rows4 kfile)%nat ->
       ((Z.of_nat (cols4 kfile) - nACS) / 2 <= Z.of_nat j
        < (Z.of_nat (cols4 kfile) + nACS) / 2)%Z ->
       get2 (mask ds) i j = Some C1.
Proof.
  intros H HA. destruct (init_mask_entries _ _ _ _ _ _ _ H) as (Hr & Hc & Hv).
  split; [exact Hr |]. split; [exact Hc |].
  intros i j Hi Hj.
  assert (L : (0 <= (Z.of_nat (cols4 kfile) - nACS) / 2)%Z)
    by (apply Z.div_pos; lia).
  assert (U : ((Z.of_nat (cols4 kfile) + nACS) / 2 <= Z.of_nat (cols4 kfile))%Z)
    by (apply Z.div_le_upper_bound; lia).
  unfold get2. rewrite Hr, Hc.
  replace (i <? rows4 kfile)%nat with true by (symmetry; apply Nat.ltb_lt; lia).
  replace (j <? cols4 kfile)%nat with true by (symmetry; apply Nat.ltb_lt; lia).
  cbn [andb]. rewrite Hv by lia. rewrite Hc.
  unfold retained. rewrite (@selects_inner _ _ _ j L U Hj).
  now rewrite !orb_true_r.
Qed.

Lemma acs_band_retained_witness :
  exists ds,
    init knee knee zeros3 zeros3 4 1 24 = Ok ds
    /\ get2 (mask ds) 7 173 = Some C1.
Proof.
  destruct (@init_total knee knee zeros3 zeros3 4 1 24) as (ds & E);
    [reflexivity | cbn; lia .. | reflexivity |].
  exists ds. split; [exact E |].
  apply (@acs_band_retained _ _ _ _ _ _ _ _ E); cbn [knee const4 cols4 rows4].
  - lia.
  - lia.
  - split; [apply Z.leb_le | apply Z.ltb_lt]; reflexivity.
Defined.

(** C10.  [__getitem__] leaves [x0], [xref], [kspace], [sens_map], the fixed
    mask, [n_slices] (and [num_ACS], [R]) as they were, for every index and
    every draw, whether it returns or raises; and two accesses at one index
    return the same [x0], [xref], [kspace] and [sens_map] items. *)
Theorem getitem_frame (s : KneeDataset) (draw : nat -> nat -> R) (index : Z) :
  same_data s (fst (getitem draw index s))
  /\ forall draw' it it',
       snd (getitem draw index s) = Ok it ->
       snd (getitem draw' index (fst (getitem draw index s))) = Ok it' ->
       item_x0 it' = item_x0 it /\ item_xref it' = item_xref it
       /\ item_kspace it' = item_kspace it
       /\ item_sens_map it' = item_sens_map it.
Proof.
  split; [apply preserves_getitem |].
  intros draw' it it' H1 H2.
  destruct (preserves_getitem draw index s)
    as (_ & Ek & _ & Es & _ & Ex & Er & _).
  destruct (getitem draw index s) as [s1 r1] eqn:G1. cbn [fst snd] in *.
  destruct (getitem draw' index s1) as [s2 r2] eqn:G2. cbn [snd] in H2.
  subst r1 r2.
  apply getitem_inv in G1
    as (_ & _ & _ & _ & _ & _ & _ & A1 & B1 & C1_ & D1 & _).
  apply getitem_inv in G2
    as (_ & _ & _ & _ & _ & _ & _ & A2 & B2 & C2_ & D2 & _).
  rewrite Ex in A2. rewrite Er in B2. rewrite Ek in C2_. rewrite Es in D2.
  repeat split; congruence.
Qed.

Lemma getitem_frame_witness :
  exists ds s1 s2 it it',
    init knee knee zeros3 zeros3 4 1 24 = Ok ds
    /\ getitem draw0 0 ds = (s1, Ok it)
    /\ getitem (fun _ _ => 1%R) 0 s1 = (s2, Ok it')
    /\ item_x0 it' = item_x0 it /\ item_kspace it' = item_kspace it.
Proof.
  destruct (@init_total knee knee zeros3 zeros3 4 1 24) as (ds & E);
    [reflexivity | cbn; lia .. | reflexivity |].
  destruct (@init_getitem_ok knee knee zeros3 zeros3 4 1 24 ds draw0 0 E)
    as (s1 & it & G1); [cbn; lia .. |].
  change (Z.of_nat 0) with 0%Z in G1.
  pose proof (init_shapes _ _ _ _ _ _ _ E) as (HR & Hsh & Mr & Mc).
  pose proof (init_inv _ _ _ _ _ _ _ E) as (_ & Hl & _ & Haccel & _ & Hsm & _).
  apply init_loop_shape in Hl as (_ & Hx & Hy).
  apply shape4_inv in Hsh as (K0 & K1 & K2 & _).
  apply shape3_inv in Hx as (X0 & _). apply shape3_inv in Hy as (Y0 & _).
  cbn in K0, K1, K2, X0, Y0.
  destruct (preserves_getitem draw0 0 ds)
    as (_ & Ek & _ & Es & Em & Ex & Er & Ea).
  rewrite G1 in Ek, Es, Em, Ex, Er, Ea. cbn [fst] in Ek, Es, Em, Ex, Er, Ea.
  destruct (@getitem_total (fun _ _ => 1%R) s1 0) as (s2 & it' & G2);
    rewrite ?Ek, ?Es, ?Em, ?Ex, ?Er, ?Ea, ?Hsm; try congruence; try lia.
  { cbn. lia. }

  change (Z.of_nat 0) with 0%Z in G2.
  exists ds, s1, s2, it, it'.
  split; [exact E |]. split; [exact G1 |]. split; [exact G2 |].
  destruct (getitem_frame ds draw0 0) as (_ & F).
  rewrite G1 in F. cbn [fst snd] in F.
  destruct (F (fun _ _ => 1%R) it it' eq_refl) as (F1 & _ & F3 & _).
  { rewrite G2. reflexivity. }
  split; assumption.
Defined.

(** ** The NMSE metric *)

Module MetricsFacts.

Import Metrics.
Local Open Scope Z_scope.

(** *** Signs and classes of rounded results *)


Lemma shr_1_nonneg (r : shr_record) : 0 <= shr_m r -> 0 <= shr_m (shr_1 r).
Proof.
  destruct r as [m b s]. cbn [shr_m]. intros H.
  destruct m as [| p | p]; [cbn; lia | | lia].
  destruct p; cbn; lia.
Qed.

Lemma iter_shr_nonneg (k : positive) :
  forall r, 0 <= shr_m r -> 0 <= shr_m (iter_pos shr_1 k r).
Proof.
  induction k as [k IH | k IH |]; intros r H; cbn [iter_pos].
  - apply IH, IH, shr_1_nonneg, H.
  - apply IH, IH, H.
  - apply shr_1_nonneg, H.
Qed.

Lemma shr_record_of_loc_m (m : Z) (l : location) :
  shr_m (shr_record_of_loc m l) = m.
Proof. destruct l as [| []]; reflexivity. Qed.

Lemma shr_fexp_nonneg (prec emax m e : Z) (l : location) :
  0 <= m -> 0 <= shr_m (fst (shr_fexp prec emax m e l)).
Proof.
  intros H. unfold shr_fexp, shr.
  destruct (fexp prec emax (Zdigits2 m + e) - e) as [| k | k]; cbn [fst];
    try (rewrite shr_record_of_loc_m; exact H).
  apply iter_shr_nonneg. rewrite shr_record_of_loc_m. exact H.
Qed.

Lemma round_nearest_even_nonneg (m : Z) (l : location) :
  0 <= m -> 0 <= round_nearest_even m l.
Proof.
  intros H. unfold round_nearest_even.
  destruct l as [| []]; try lia. destruct (Z.even m); lia.
Qed.

(** Rounding a non-negative significand gives a zero, a number or an
    infinity of the sign asked for, never [nan]. *)
Lemma binary_round_aux_class (prec emax : Z) (s : bool) (m e : Z) (l : location) :
  0 <= m ->
  match binary_round_aux prec emax s m e l with
  | S754_zero s' | S754_finite s' _ _ | S754_infinity s' => s' = s
  | S754_nan => False
  end.
Proof.
  intros H. unfold binary_round_aux.
  pose proof (shr_fexp_nonneg prec emax e l H) as H1.
  destruct (shr_fexp prec emax m e l) as [mrs' e'] eqn:E1. cbn [fst] in H1.
  pose proof (shr_fexp_nonneg prec emax e' loc_Exact
                (round_nearest_even_nonneg (loc_of_shr_record mrs') H1)) as H2.
  destruct (shr_fexp prec emax _ e' loc_Exact) as [mrs'' e''] eqn:E2.
  cbn [fst] in H2.
  destruct (shr_m mrs'') as [| p | p]; [reflexivity | | lia].
  destruct (e'' <=? emax - prec); reflexivity.
Qed.

Lemma binary_round_class (prec emax : Z) (s : bool) (m : positive) (e : Z) :
  match binary_round prec emax s m e with
  | S754_zero s' | S754_finite s' _ _ | S754_infinity s' => s' = s
  | S754_nan => False
  end.
Proof.
  unfold binary_round.
  destruct (shl_align m e _) as [mz ez].
  apply binary_round_aux_class. lia.
Qed.

(** The square of a number, and the sum of two non-negative numbers, are
    non-negative numbers or plus infinity. *)
Lemma square_nonneg (prec emax : Z) (v : spec_float) :
  is_finite v = true -> nonneg (SFmul prec emax v v) = true.
Proof.
  destruct v as [s | s | | s m e]; try discriminate; intros _.
  - destruct s; reflexivity.
  - cbn [SFmul].
    pose proof (@binary_round_aux_class prec emax (xorb s s)
                  (Zpos (m * m)) (e + e) loc_Exact ltac:(lia)) as H.
    destruct (binary_round_aux _ _ _ _ _ _) as [s' | s' | | s' m' e'];
      try contradiction; rewrite H, xorb_nilpotent; reflexivity.
Qed.

Lemma add_nonneg (prec emax : Z) (a b : spec_float) :
  nonneg a = true -> nonneg b = true -> nonneg (SFadd prec emax a b) = true.
Proof.
  destruct a as [[] | [] | | [] ma ea]; try discriminate;
    destruct b as [[] | [] | | [] mb eb]; try discriminate; intros _ _;
    try reflexivity.
  cbn [SFadd cond_Zopp].
  set (ez := Z.min ea eb).
  destruct (shl_align ma ea ez) as [ma' ea'].
  destruct (shl_align mb eb ez) as [mb' eb']. cbn [fst].
  change (Zpos ma' + Zpos mb') with (Zpos (ma' + mb')).
  cbn [binary_normalize].
  pose proof (binary_round_class prec emax false (ma' + mb') ez) as H.
  destruct (binary_round _ _ _ _ _) as [s' | s' | | s' m' e'];
    try contradiction; rewrite H; reflexivity.
Qed.

Section Format.

Variables prec emax : Z.

Lemma sum_nonneg (l : list spec_float) :
  forall acc, nonneg acc = true -> Forall (fun v => nonneg v = true) l ->
    nonneg (fold_left (SFadd prec emax) l acc) = true.
Proof.
  induction l as [| v l IH]; intros acc Ha Hl; cbn [fold_left].
  - exact Ha.
  - inversion Hl as [| ? ? Hv Hl']; subst.
    apply IH; [now apply add_nonneg | exact Hl'].
Qed.

Lemma float_squares_nonneg (x : list spec_float) :
  forallb is_finite x = true ->
  nonneg (np_sum prec emax (np_square prec emax x)) = true.
Proof.
  intros H. unfold np_sum. apply sum_nonneg; [reflexivity |].
  unfold np_square. apply Forall_map. apply Forall_forall. intros v Hv.
  apply square_nonneg. rewrite forallb_forall in H. now apply H.
Qed.

(** *** An array against itself *)

Lemma SFsub_diag (v : spec_float) :
  SFsub prec emax v v = if is_finite v then zero else S754_nan.
Proof.
  destruct v as [[] | [] | | s m e]; try reflexivity.
  cbn [SFsub is_finite]. rewrite Z.sub_diag. reflexivity.
Qed.

Lemma np_sub_diag (x : list spec_float) :
  np_sub prec emax x x
  = Ok (map (fun v => if is_finite v then zero else S754_nan) x).
Proof.
  unfold np_sub, broadcast2. rewrite Nat.eqb_refl. f_equal.
  induction x as [| v x IH]; cbn [combine map fst snd].
  - reflexivity.
  - now rewrite IH, SFsub_diag.
Qed.

Lemma SFadd_nan_l (v : spec_float) : SFadd prec emax S754_nan v = S754_nan.
Proof. reflexivity. Qed.

Lemma sum_from_nan (l : list spec_float) :
  fold_left (SFadd prec emax) l S754_nan = S754_nan.
Proof. induction l as [| v l IH]; cbn [fold_left]; [reflexivity | exact IH]. Qed.

(** The numerator of [nmse(x, x)]: zero for an array of numbers, [nan] as
    soon as one entry is an infinity or [nan]. *)
Lemma numerator_self (x : list spec_float) :
  np_sum prec emax
    (np_square prec emax
       (map (fun v => if is_finite v then zero else S754_nan) x))
  = if forallb is_finite x then zero else S754_nan.
Proof.
  unfold np_sum, np_square. rewrite map_map.
  assert (G : forall acc,
             acc = zero \/ acc = S754_nan ->
             fold_left (SFadd prec emax)
               (map (fun v => SFmul prec emax
                                (if is_finite v then zero else S754_nan)
                                (if is_finite v then zero else S754_nan)) x)
               acc
             = if is_nan acc then S754_nan
               else if forallb is_finite x then zero else S754_nan).
  { induction x as [| v x IH]; intros acc Ha; cbn [map fold_left forallb].
    - destruct Ha as [-> | ->]; reflexivity.
    - destruct Ha as [-> | ->].
      + destruct (is_finite v); cbn [andb].
        * change (SFadd prec emax zero (SFmul prec emax zero zero)) with zero.
          rewrite IH by (left; reflexivity). reflexivity.
        * change (SFadd prec emax zero (SFmul prec emax S754_nan S754_nan))
            with S754_nan.
          rewrite IH by (right; reflexivity). reflexivity.
      + rewrite SFadd_nan_l, IH by (right; reflexivity). reflexivity. }
  rewrite G by (left; reflexivity). reflexivity.
Qed.

Lemma zero_div_nonneg (d : spec_float) :
  nonneg d = true ->
  SFdiv prec emax zero d = if eq_zero d then S754_nan else zero.
Proof. destruct d as [[] | [] | | [] m e]; try discriminate; reflexivity. Qed.

Lemma nan_div (d : spec_float) : SFdiv prec emax S754_nan d = S754_nan.
Proof. reflexivity. Qed.

End Format.

End MetricsFacts.

Import Metrics MetricsFacts.

(** C5, as stated, fails on a zero input: the quotient is 0/0, which numpy
    evaluates to [nan], and [nan == 0] is false. *)
Lemma nmse_of_zero_is_nan :
  nmse64 [zero] [zero] = Ok S754_nan /\ eq_zero S754_nan = false.
Proof. split; reflexivity. Qed.

(** It fails as well on an infinite entry, where the difference is [nan],
    and on a number so small that its square is rounded to zero. *)
Lemma nmse_of_inf_is_nan :
  nmse64 [S754_infinity false] [S754_infinity false] = Ok S754_nan
  /\ nmse64 [tiny64] [tiny64] = Ok S754_nan.
Proof. split; vm_compute; reflexivity. Qed.

(** C5, amended.  For an array x of real floats, [nmse(x, x)] is 0 when
    every entry of x is a finite number (no infinity, no [nan]) and the sum
    of squares [np.sum(x**2)], as it is computed, is not zero; for every
    other x it is [nan]. *)
Theorem nmse_self (prec emax : Z) (x : list spec_float) :
  nmse prec emax x x
  = Ok (if forallb is_finite x
           && negb (eq_zero (np_sum prec emax (np_square prec emax x)))
        then zero else S754_nan).
Proof.
  unfold nmse. rewrite np_sub_diag. cbn [rbind]. f_equal.
  rewrite numerator_self.
  destruct (forallb is_finite x) eqn:F; cbn [andb].
  - rewrite zero_div_nonneg by now apply float_squares_nonneg.
    destruct (eq_zero _); reflexivity.
  - apply nan_div.
Qed.

Lemma nmse_self_witness :
  nmse64 [one64; tiny64] [one64; tiny64] = Ok zero.
Proof. exact (nmse_self 53 1024 [one64; tiny64]). Defined.

(** ** The binary64 product of the split *)

Module FloatFacts.

Import Loaders.
Local Open Scope Z_scope.
Unset Implicit Arguments.

Lemma digits2_size (p : positive) : digits2_pos p = Pos.size p.
Proof. induction p; cbn; congruence. Qed.

Lemma digits2_bounds (p : positive) :
  2 ^ (Zpos (digits2_pos p) - 1) <= Zpos p < 2 ^ Zpos (digits2_pos p).
Proof.
  rewrite digits2_size. split.
  - pose proof (Pos.size_le p) as H.
    assert (E : 2 ^ Zpos (Pos.size p) = 2 * 2 ^ (Zpos (Pos.size p) - 1)).
    { rewrite <- Z.pow_succ_r by lia. f_equal. lia. }
    assert (Zpos (2 ^ Pos.size p) <= Zpos p~0) by exact H.
    rewrite Pos2Z.inj_pow in H0. lia.
  - pose proof (Pos.size_gt p) as H.
    assert (Zpos p < Zpos (2 ^ Pos.size p)) by exact H.
    now rewrite Pos2Z.inj_pow in H0.
Qed.

Lemma shr_1_m (r : shr_record) :
  0 <= shr_m r -> shr_m (shr_1 r) = shr_m r / 2.
Proof.
  destruct r as [m b s]. cbn [shr_m]. intros H.
  destruct m as [| p | p]; [reflexivity | | lia].
  destruct p as [p | p |]; cbn [shr_1 shr_m].
  - rewrite Pos2Z.inj_xI. apply Z.div_unique with (r := 1); lia.
  - rewrite Pos2Z.inj_xO. apply Z.div_unique with (r := 0); lia.
  - reflexivity.
Qed.

Lemma iter_shr_m (k : positive) :
  forall r, 0 <= shr_m r ->
    shr_m (iter_pos shr_1 k r) = shr_m r / 2 ^ Zpos k.
Proof.
  induction k as [k IH | k IH |]; intros r H; cbn [iter_pos].
  - assert (H1 : 0 <= shr_m (shr_1 r)) by (rewrite shr_1_m by lia; apply Z.div_pos; lia).
    assert (H2 : 0 <= shr_m (iter_pos shr_1 k (shr_1 r)))
      by (rewrite IH by lia; apply Z.div_pos; lia).
    rewrite IH, IH, shr_1_m by lia.
    rewrite !Z.div_div by lia.
    f_equal. replace (Z.pos k~1) with (1 + Z.pos k + Z.pos k) by lia.
    rewrite !Z.pow_add_r by lia. change (2 ^ 1) with 2. ring.
  - assert (H2 : 0 <= shr_m (iter_pos shr_1 k r))
      by (rewrite IH by lia; apply Z.div_pos; lia).
    rewrite IH, IH by lia.
    rewrite !Z.div_div by lia.
    f_equal. replace (Z.pos k~0) with (Z.pos k + Z.pos k) by lia.
    rewrite !Z.pow_add_r by lia. ring.
  - rewrite shr_1_m by lia. reflexivity.
Qed.

(** Rounding of a positive integer significand, binary64 *)

Lemma fexp_normal (e : Z) : -1021 <= e -> fexp prec emax e = e - 53.
Proof. intros H. unfold fexp, emin, prec, emax. lia. Qed.

Lemma round_even_bounds (m : Z) (l : location) :
  m <= round_nearest_even m l <= m + 1.
Proof.
  unfold round_nearest_even. destruct l as [| [| |]]; try lia.
  destruct (Z.even m); lia.
Qed.

Lemma Zdigits2_pos (p : positive) : Zdigits2 (Zpos p) = Zpos (digits2_pos p).
Proof. reflexivity. Qed.

(** A significand of exactly 53 bits is kept as it is. *)
Lemma round_aux_exact (p : positive) (e : Z) :
  Zpos (digits2_pos p) = 53 -> -1074 <= e <= 971 ->
  binary_round_aux prec emax false (Zpos p) e loc_Exact = S754_finite false p e.
Proof.
  intros Hd He. unfold binary_round_aux, shr_fexp.
  rewrite Zdigits2_pos, Hd, fexp_normal by lia.
  replace (53 + e - 53 - e) with 0 by lia. cbn [shr shr_record_of_loc].
  cbn [shr_m loc_of_shr_record round_nearest_even].
  rewrite Zdigits2_pos, Hd, fexp_normal by lia.
  replace (53 + e - 53 - e) with 0 by lia. cbn [shr shr_record_of_loc shr_m].
  replace (e <=? emax - prec) with true by (symmetry; apply Z.leb_le; unfold emax, prec; lia).
  reflexivity.
Qed.

Lemma digits2_unique (p : positive) (n : Z) :
  2 ^ (n - 1) <= Zpos p < 2 ^ n -> Zpos (digits2_pos p) = n.
Proof.
  intros [H1 H2]. pose proof (digits2_bounds p) as [B1 B2].
  set (d := Zpos (digits2_pos p)) in *.
  assert (0 < d) by (unfold d; lia).
  destruct (Z.lt_trichotomy d n) as [L | [E | G]]; [| exact E |].
  - assert (2 ^ d <= 2 ^ (n - 1)) by (apply Z.pow_le_mono_r; lia). lia.
  - assert (0 <= n).
    { destruct (Z_lt_le_dec n 0) as [N | N]; [| exact N].
      rewrite (Z.pow_neg_r 2 n) in H2 by lia. lia. }
    assert (2 ^ n <= 2 ^ (d - 1)) by (apply Z.pow_le_mono_r; lia). lia.
Qed.

(** A significand of [53 + k] bits loses its [k] low bits and is rounded
    to one of its two neighbours; when the upper one is [2^53] the result
    is renormalised. *)
Lemma round_aux_shift (p : positive) (e : Z) (k : positive) :
  Zpos (digits2_pos p) = 53 + Zpos k -> -1074 <= e -> e + Zpos k < 971 ->
  exists m' e' m1 s,
    binary_round_aux prec emax false (Zpos p) e loc_Exact
      = S754_finite false m' e'
    /\ Zpos p / 2 ^ Zpos k <= m1 <= Zpos p / 2 ^ Zpos k + 1
    /\ 0 <= s <= 1 /\ Zpos m' = m1 / 2 ^ s /\ e' = e + Zpos k + s.
Proof.
  intros Hd He1 He2.
  pose proof (digits2_bounds p) as [B1 B2]. rewrite Hd in B1, B2.
  set (q := Zpos p / 2 ^ Zpos k).
  assert (Hq : 2 ^ 52 <= q < 2 ^ 53).
  { unfold q. split.
    - apply Z.div_le_lower_bound; [lia |].
      rewrite <- Z.pow_add_r by lia.
      replace (Zpos k + 52) with (53 + Zpos k - 1) by lia. exact B1.
    - apply Z.div_lt_upper_bound; [lia |].
      rewrite <- Z.pow_add_r by lia.
      replace (Zpos k + 53) with (53 + Zpos k) by lia. exact B2. }
  unfold binary_round_aux, shr_fexp.
  rewrite Zdigits2_pos, Hd, fexp_normal by lia.
  replace (53 + Zpos k + e - 53 - e) with (Zpos k) by lia.
  cbn [shr shr_record_of_loc].
  set (X := iter_pos shr_1 k _).
  assert (HX : shr_m X = q) by (unfold X; now rewrite iter_shr_m by (cbn; lia)).
  pose proof (round_even_bounds (shr_m X) (loc_of_shr_record X)) as Hm1.
  set (m1 := round_nearest_even _ _) in *. rewrite HX in Hm1.
  destruct (Z.eq_dec m1 (2 ^ 53)) as [E | N].
  - exists (2 ^ 52)%positive, (e + Zpos k + 1), m1, 1.
    rewrite E. 
    replace (Zdigits2 (2 ^ 53)) with 54 by reflexivity.
    rewrite fexp_normal by lia.
    replace (54 + (e + Zpos k) - 53 - (e + Zpos k)) with 1 by lia.
    cbn [shr iter_pos]. 
    replace (shr_m (shr_1 (shr_record_of_loc (2 ^ 53) loc_Exact)))
      with (Zpos (2 ^ 52)) by reflexivity.
    replace (e + Zpos k + 1 <=? emax - prec) with true
      by (symmetry; apply Z.leb_le; unfold emax, prec; lia).
    repeat split; try lia.
  - assert (Hp1 : 0 < m1) by lia.
    destruct m1 as [| pm | pm] eqn:Em; try lia.
    exists pm, (e + Zpos k), (Zpos pm), 0.
    rewrite Zdigits2_pos, (digits2_unique pm 53) by (change (53 - 1) with 52; lia).
    rewrite fexp_normal by lia.
    replace (53 + (e + Zpos k) - 53 - (e + Zpos k)) with 0 by lia.
    cbn [shr shr_record_of_loc shr_m].
    replace (e + Zpos k <=? emax - prec) with true
      by (symmetry; apply Z.leb_le; unfold emax, prec; lia).
    repeat split; try lia. now rewrite Z.div_1_r.
Qed.

Lemma iter_xO (p n : positive) :
  Zpos (Pos.iter xO p n) = Zpos p * 2 ^ Zpos n.
Proof.
  revert p. induction n as [| n IH] using Pos.peano_ind; intros p.
  - cbn [Pos.iter]. rewrite Pos2Z.inj_xO. change (2 ^ 1) with 2. lia.
  - rewrite Pos.iter_succ, Pos2Z.inj_xO, IH, Pos2Z.inj_succ, Z.pow_succ_r by lia.
    lia.
Qed.

(** An integer below [2^53] is converted without rounding: the result has
    a significand of 53 bits. *)
Lemma normalize_exact (p : positive) :
  Zpos p < 2 ^ 53 ->
  exists mz,
    binary_normalize prec emax (Zpos p) 0 false
      = S754_finite false mz (Zpos (digits2_pos p) - 53)
    /\ Zpos mz = Zpos p * 2 ^ (53 - Zpos (digits2_pos p))
    /\ Zpos (digits2_pos mz) = 53.
Proof.
  intros H. pose proof (digits2_bounds p) as [B1 B2].
  unfold binary_normalize, binary_round.
  remember (Zpos (digits2_pos p)) as d eqn:Ed.
  assert (Hd : 0 < d <= 53).
  { split; [lia |].
    destruct (Z_le_gt_dec d 53) as [L | G]; [exact L |].
    assert (2 ^ 53 <= 2 ^ (d - 1)) by (apply Z.pow_le_mono_r; lia). lia. }
  rewrite Z.add_0_r. rewrite fexp_normal by lia. unfold shl_align.
  rewrite Z.sub_0_r.
  destruct (d - 53) as [| z | z] eqn:E; [| lia |].
  - exists p. assert (d = 53) by lia. subst d.
    rewrite round_aux_exact by lia.
    repeat split; try lia. rewrite H0. change (2 ^ (53 - 53)) with 1. lia.
  - assert (Ez : 53 - d = Zpos z) by lia.
    assert (Hm : Zpos (Pos.iter xO p z) = Zpos p * 2 ^ (53 - d))
      by (rewrite iter_xO, Ez; reflexivity).
    assert (Hdz : Zpos (digits2_pos (Pos.iter xO p z)) = 53).
    { apply digits2_unique. rewrite Hm. change (53 - 1) with 52. split.
      - replace 52 with ((d - 1) + (53 - d)) by lia.
        rewrite Z.pow_add_r by lia. apply Z.mul_le_mono_nonneg_r; lia.
      - replace 53 with (d + (53 - d)) at 2 by lia.
        rewrite Z.pow_add_r by lia. apply Z.mul_lt_mono_pos_r; lia. }
    exists (Pos.iter xO p z).
    rewrite round_aux_exact by lia.
    repeat split; assumption.
Qed.

Lemma shiftl_neg (a e : Z) : e < 0 -> Z.shiftl a e = a / 2 ^ (- e).
Proof.
  intros H. rewrite <- Z.shiftr_opp_r. apply Z.shiftr_div_pow2. lia.
Qed.

(** The arithmetic core: a significand within one unit of the quotient
    [n * w * M / K] truncates to [4n/5]. *)
Lemma trunc_core (n w K J q m1 : Z) :
  0 < n -> 16 <= w -> n * w < 2 ^ 53 -> 0 < K <= 2 ^ 53 -> 0 < J ->
  K * J = 2 ^ 53 * w ->
  q = n * w * 7205759403792794 / K -> q <= m1 <= q + 1 ->
  m1 / J = 4 * n / 5.
Proof.
  intros Hn Hw Hnw HK HJ HKJ Hq Hm.
  set (t := 4 * n / 5).
  assert (Ht : 5 * t <= 4 * n < 5 * t + 5).
  { unfold t. pose proof (Z.mul_div_le (4 * n) 5).
    pose proof (Z.mul_succ_div_gt (4 * n) 5). lia. }
  set (P := n * w * 7205759403792794) in *.
  assert (Hq1 : q * K <= P < (q + 1) * K).
  { subst q. pose proof (Z.mul_div_le P K). pose proof (Z.mul_succ_div_gt P K).
    lia. }
  assert (HP1 : 5 * (t * (2 ^ 53 * w)) <= 5 * P).
  { unfold P. change (2 ^ 53) with 9007199254740992. nia. }
  assert (HP2 : 5 * P + 5 * 2 ^ 53 < 5 * ((t + 1) * (2 ^ 53 * w))).
  { unfold P. change (2 ^ 53) with 9007199254740992 in *. nia. }
  symmetry. apply Z.div_unique with (r := m1 - t * J).
  - left. split.
    + assert (t * J <= q); [| lia].
      destruct (Z_le_gt_dec (t * J) q) as [L | G]; [exact L |].
      assert ((q + 1) * K <= t * J * K) by nia.
      rewrite <- HKJ in HP1. nia.
    + assert (q + 1 < (t + 1) * J); [| lia].
      destruct (Z_lt_le_dec (q + 1) ((t + 1) * J)) as [L | G]; [exact L |].
      assert ((t + 1) * J * K <= (q + 1) * K) by nia.
      rewrite <- HKJ in HP2. nia.
  - lia.
Qed.

Lemma mul_0_8_trunc (p : positive) :
  Zpos p < 2 ^ 49 ->
  exists mz ez,
    binary_normalize prec emax (Zpos p) 0 false = S754_finite false mz ez
    /\ int_of_float (SFmul prec emax (S754_finite false mz ez) lit_0_8)
       = Ok (4 * Zpos p / 5).
Proof.
  intros H. pose proof (digits2_bounds p) as [B1 B2].
  destruct (normalize_exact p) as (mz & E & Hmz & Hdz); [lia |].
  remember (Zpos (digits2_pos p)) as d eqn:Ed.
  assert (Hd : 0 < d <= 49).
  { split; [lia |].
    destruct (Z_le_gt_dec d 49) as [L | G]; [exact L |].
    assert (2 ^ 49 <= 2 ^ (d - 1)) by (apply Z.pow_le_mono_r; lia). lia. }
  exists mz, (d - 53). split; [exact E |].
  cbn [SFmul lit_0_8 xorb].
  pose proof (digits2_bounds mz) as [Z1 Z2]. rewrite Hdz in Z1, Z2.
  change (53 - 1) with 52 in Z1.
  set (M := 7205759403792794%positive).
  pose proof (digits2_bounds (mz * M)) as [P1 P2].
  remember (Zpos (digits2_pos (mz * M))) as dP eqn:EdP.
  rewrite Pos2Z.inj_mul in P1, P2.
  assert (HM : 2 ^ 52 <= Zpos M < 2 ^ 53) by (unfold M; split; reflexivity || (apply Z.leb_le; reflexivity)).
  assert (HP : 2 ^ 104 <= Zpos mz * Zpos M < 2 ^ 106).
  { change (2 ^ 104) with (2 ^ 52 * 2 ^ 52). change (2 ^ 106) with (2 ^ 53 * 2 ^ 53).
    split; [apply Z.mul_le_mono_nonneg | apply Z.mul_lt_mono_nonneg]; lia. }
  assert (HdP : 105 <= dP <= 106).
  { split.
    - destruct (Z_le_gt_dec 105 dP) as [L | G]; [exact L |].
      assert (2 ^ dP <= 2 ^ 104) by (apply Z.pow_le_mono_r; lia). lia.
    - destruct (Z_le_gt_dec dP 106) as [L | G]; [exact L |].
      assert (2 ^ 106 <= 2 ^ (dP - 1)) by (apply Z.pow_le_mono_r; lia). lia. }
  destruct (dP - 53) as [| k | k] eqn:Ek; try lia.
  destruct (round_aux_shift (mz * M) (d - 53 + -53) k)
    as (m' & e' & m1 & s & R & Hm1 & Hs & Hm' & He'); try lia.
  rewrite R. cbn [int_of_float cond_Zopp]. f_equal.
  rewrite shiftl_neg by lia. rewrite Hm', Z.div_div by lia.
  rewrite <- Z.pow_add_r by lia.
  apply trunc_core with (w := 2 ^ (53 - d)) (K := 2 ^ Zpos k)
                        (q := Zpos (mz * M) / 2 ^ Zpos k).
  - lia.
  - change 16 with (2 ^ 4). apply Z.pow_le_mono_r; lia.
  - rewrite <- Hmz. lia.
  - split; [lia |]. apply Z.pow_le_mono_r; lia.
  - lia.
  - rewrite <- !Z.pow_add_r by lia. f_equal. lia.
  - rewrite Pos2Z.inj_mul, Hmz. reflexivity.
  - exact Hm1.
Qed.

End FloatFacts.

Set Implicit Arguments.

Import Loaders FloatFacts.

(** [int(n * 0.8)] for a few sizes *)
Example split_sizes_small :
  map split_sizes [0; 1; 5; 7; 10; 12345]%Z
  = [Ok (0, 0); Ok (0, 1); Ok (4, 1); Ok (5, 2); Ok (8, 2); Ok (9876, 2469)]%Z.
Proof. vm_compute. reflexivity. Qed.

Lemma floor_0_8_div (n : Z) : floor_0_8 n = (4 * n / 5)%Z.
Proof.
  unfold floor_0_8, Qround.Qfloor, QArith_base.Qmult, QArith_base.inject_Z.
  cbn [QArith_base.Qnum QArith_base.Qden].
  change (Z.pos (10 * 1)) with (5 * 2)%Z.
  replace (8 * n)%Z with ((4 * n) * 2)%Z by lia.
  apply Z.div_mul_cancel_r; lia.
Qed.

Lemma split_sizes_value (n : Z) :
  (0 <= n < 2 ^ 49)%Z ->
  split_sizes n = Ok ((4 * n / 5)%Z, (n - 4 * n / 5)%Z).
Proof.
  intros [H0 H1]. unfold split_sizes, float_of_int.
  destruct n as [| p | p]; [reflexivity | | lia].
  destruct (mul_0_8_trunc p H1) as (mz & ez & E & T).
  rewrite E. cbn [rbind]. rewrite T. reflexivity.
Qed.

Lemma list_slice_length {A : Type} (l : list A) (a b : Z) :
  (0 <= a <= b)%Z -> (b <= Z.of_nat (length l))%Z ->
  Z.of_nat (length (list_slice l a b)) = (b - a)%Z.
Proof.
  intros Ha Hb. unfold list_slice, Py.adjust.
  destruct (a <? 0)%Z eqn:Ea; [apply Z.ltb_lt in Ea; lia |].
  destruct (b <? 0)%Z eqn:Eb; [apply Z.ltb_lt in Eb; lia |].
  rewrite length_firstn, length_skipn. lia.
Qed.

(** C6, as stated, fails for a dataset of 2^51 - 2 slices: the binary64
    product [n_slices * 0.8] is rounded up to an integer, and [train_num]
    exceeds [floor(0.8 * total)] by one. *)
Lemma split_rounds_up :
  split_sizes 2251799813685246
  = Ok (1801439850948197%Z, 450359962737049%Z)
  /\ floor_0_8 2251799813685246 = 1801439850948196%Z.
Proof. split; vm_compute; reflexivity. Qed.

(** C6, amended.  For a dataset of fewer than 2^49 slices,
    [prepare_train_loaders] returns a training and a validation subset whose
    sizes add up to [total_slices], the training subset having
    [floor(0.8 * total_slices)] items. *)
Theorem split_counts (n_slices : nat) (perm : list nat) :
  (Z.of_nat n_slices < 2 ^ 49)%Z -> length perm = n_slices ->
  exists train valid,
    prepare_train_loaders n_slices perm = Ok (train, valid)
    /\ (length train + length valid = n_slices)%nat
    /\ Z.of_nat (length train) = floor_0_8 (Z.of_nat n_slices).
Proof.
  intros Hn Hp. unfold prepare_train_loaders.
  rewrite split_sizes_value by lia. cbn [rbind fst snd].
  set (n := Z.of_nat n_slices) in *. set (t := (4 * n / 5)%Z).
  assert (Ht : (0 <= t <= n)%Z).
  { unfold t. split; [apply Z.div_pos; lia |].
    apply Z.div_le_upper_bound; lia. }
  unfold random_split. fold n.
  replace (t + (n - t) =? n)%Z with true by (symmetry; apply Z.eqb_eq; lia).
  eexists. eexists. split; [reflexivity |].
  assert (L1 : Z.of_nat (length (list_slice perm 0 t)) = (t - 0)%Z)
    by (apply list_slice_length; rewrite ?Hp; fold n; lia).
  assert (L2 : Z.of_nat (length (list_slice perm t (t + (n - t))))
               = (t + (n - t) - t)%Z)
    by (apply list_slice_length; rewrite ?Hp; fold n; lia).
  rewrite floor_0_8_div. fold t. split; lia.
Qed.

Lemma split_counts_witness :
  exists train valid,
    prepare_train_loaders 7 [3; 0; 6; 1; 5; 2; 4]%nat = Ok (train, valid)
    /\ length train = 5%nat /\ length valid = 2%nat.
Proof.
  destruct (@split_counts 7 [3; 0; 6; 1; 5; 2; 4]%nat)
    as (train & valid & E & S & T); [reflexivity | reflexivity |].
  exists train, valid. split; [exact E |].
  change (floor_0_8 (Z.of_nat 7)) with 5%Z in T. lia.
Defined.

(** C9.  [encode(x, S, None)] is [fft2] of the product of S with x, x being
    repeated along the coil axis, and nothing else; [encode(x, S, m)] is that
    transform multiplied entry by entry with m, m being repeated along the
    batch and coil axes. *)
Theorem encode_entries (x : tensor3) (S : tensor4) (m : tensor2 C) :
  shape3 x = (len4 S, rows4 S, cols4 S) ->
  (0 < rows4 S)%nat -> (0 < cols4 S)%nat ->
  rows m = rows4 S -> cols m = cols4 S ->
  exists p y ym,
    bmul4 S (unsqueeze3 x) = Ok p
    /\ fft2 p = Ok y
    /\ encode x S None = Ok y
    /\ encode x S (Some m) = Ok ym
    /\ shape4 p = shape4 S /\ shape4 y = shape4 S /\ shape4 ym = shape4 S
    /\ forall b i j c,
         (b < len4 S)%nat -> (i < rows4 S)%nat -> (j < cols4 S)%nat ->
         (c < coils4 S)%nat ->
         at4 p b i j c = Cmul (at4 S b i j c) (at3 x b i j)
         /\ at4 ym b i j c = Cmul (at4 y b i j c) (at2 m i j).
Proof.
  intros Hx Hr Hc Mr Mc.
  destruct (@bmul4_coil S x Hx) as (p & Ep & Hp & Vp).
  pose proof (@shape4_inv p _ _ _ _ Hp) as (P0 & P1 & P2 & P3).
  destruct (@fft2_ok p) as (y & Ey & Hy); [lia | lia |].
  pose proof (@shape4_inv y _ _ _ _ Hy) as (Y0 & Y1 & Y2 & Y3).
  destruct (@bmul4_plane y m) as (ym & Em & Hm & Vm); [congruence .. |].
  exists p, y, ym. unfold encode. rewrite Ep. cbn [rbind]. rewrite Ey.
  cbn [rbind]. repeat split; try assumption; try congruence.
  - apply Vp; assumption.
  - apply Vm; congruence || lia.
Qed.

Lemma encode_entries_witness :
  exists p y ym,
    fft2 p = Ok y
    /\ encode image22 sens222 None = Ok y
    /\ encode image22 sens222 (Some ones22) = Ok ym
    /\ at4 p 0 1 1 1 = Cmul (at4 sens222 0 1 1 1) (at3 image22 0 1 1)
    /\ at4 ym 0 1 1 1 = Cmul (at4 y 0 1 1 1) (at2 ones22 1 1).
Proof.
  destruct (@encode_entries image22 sens222 ones22)
    as (p & y & ym & _ & Ey & E1 & E2 & _ & _ & _ & V);
    [reflexivity | cbn; lia | cbn; lia | reflexivity | reflexivity |].
  exists p, y, ym.
  destruct (V 0 1 1 1)%nat as (V1 & V2); [cbn; lia .. |].
  repeat split; assumption.
Defined.

(** ** The operations read entries inside the shape only *)

Module ExtFacts.

Import Py Fourier Kernel TensorFacts.

Lemma teq4_refl (x : tensor4) : teq4 x x.
Proof. split; [reflexivity | intros; reflexivity]. Qed.

Lemma teq4_sym (x y : tensor4) : teq4 x y -> teq4 y x.
Proof.
  intros [Hs Hv]. split; [congruence |].
  pose proof (@shape4_inv x _ _ _ _ Hs) as (S0 & S1 & S2 & S3).
  intros b i j c Hb Hi Hj Hc. symmetry. apply Hv; congruence.
Qed.

Lemma teq4_trans (x y z : tensor4) : teq4 x y -> teq4 y z -> teq4 x z.
Proof.
  intros [Hs Hv] [Hs' Hv']. split; [congruence |].
  pose proof (@shape4_inv x _ _ _ _ Hs) as (S0 & S1 & S2 & S3).
  intros b i j c Hb Hi Hj Hc. rewrite Hv by assumption.
  apply Hv'; congruence.
Qed.

Lemma Csum_ext (f g : nat -> C) (n : nat) :
  (forall k, (k < n)%nat -> f k = g k) -> Csum f n = Csum g n.
Proof.
  induction n as [| n IH]; intros H; cbn [Csum]; [reflexivity |].
  rewrite IH by (intros; apply H; lia). rewrite H by lia. reflexivity.
Qed.

Lemma source_lt (n s i : nat) : (0 < n)%nat -> (source n s i < n)%nat.
Proof. intros H. unfold source. apply Nat.mod_upper_bound. lia. Qed.

Lemma roll12_ext (s1 s2 : nat) (x y : tensor4) :
  teq4 x y -> teq4 (roll12 s1 s2 x) (roll12 s1 s2 y).
Proof.
  intros [Hs Hv].
  pose proof (@shape4_inv x _ _ _ _ Hs) as (S0 & S1 & S2 & S3).
  split; [exact Hs |].
  intros b i j c Hb Hi Hj Hc. cbn in *. rewrite <- S1, <- S2.
  apply Hv; try assumption; apply source_lt; lia.
Qed.

Lemma fftshift_ext (x y : tensor4) :
  teq4 x y -> teq4 (fftshift x) (fftshift y).
Proof.
  intros H. unfold fftshift.
  pose proof (@shape4_inv x _ _ _ _ (proj1 H)) as (S0 & S1 & S2 & S3).
  rewrite <- S1, <- S2. now apply roll12_ext.
Qed.

Lemma ifftshift_ext (x y : tensor4) :
  teq4 x y -> teq4 (ifftshift x) (ifftshift y).
Proof.
  intros H. unfold ifftshift.
  pose proof (@shape4_inv x _ _ _ _ (proj1 H)) as (S0 & S1 & S2 & S3).
  rewrite <- S1, <- S2. now apply roll12_ext.
Qed.

Lemma dft12_ext (sgn : R) (x y a : tensor4) :
  teq4 x y -> dft12 sgn x = Ok a ->
  exists b, dft12 sgn y = Ok b /\ teq4 a b.
Proof.
  intros [Hs Hv] H.
  pose proof (@shape4_inv x _ _ _ _ Hs) as (S0 & S1 & S2 & S3).
  unfold dft12 in *. rewrite <- S1, <- S2.
  destruct ((rows4 x =? 0) || (cols4 x =? 0))%nat; [discriminate |].
  injection H as <-. eexists. split; [reflexivity |].
  split; [unfold shape4; cbn; congruence |].
  intros b k1 k2 c Hb H1 H2 Hc. cbn in *. f_equal.
  apply Csum_ext. intros n1 Hn1. apply Csum_ext. intros n2 Hn2.
  f_equal. now apply Hv.
Qed.

Lemma ifft2_ext (x y a : tensor4) :
  teq4 x y -> ifft2 x = Ok a -> exists b, ifft2 y = Ok b /\ teq4 a b.
Proof.
  intros Hxy H. unfold ifft2, ifftn in *.
  destruct (dft12 1 (fftshift x)) as [u |] eqn:E; [| discriminate].
  cbn [rbind] in H. injection H as <-.
  destruct (@dft12_ext 1 _ _ _ (@fftshift_ext _ _ Hxy) E) as (v & E' & Huv).
  rewrite E'. cbn [rbind]. eexists. split; [reflexivity |].
  now apply ifftshift_ext.
Qed.

Lemma fft2_ext (x y a : tensor4) :
  teq4 x y -> fft2 x = Ok a -> exists b, fft2 y = Ok b /\ teq4 a b.
Proof.
  intros Hxy H. unfold fft2, fftn in *.
  destruct (dft12 (-1) (ifftshift x)) as [u |] eqn:E; [| discriminate].
  cbn [rbind] in H. injection H as <-.
  destruct (@dft12_ext (-1) _ _ _ (@ifftshift_ext _ _ Hxy) E) as (v & E' & Huv).
  rewrite E'. cbn [rbind]. eexists. split; [reflexivity |].
  now apply fftshift_ext.
Qed.

Lemma bdim_bpos (n m r i : nat) :
  bdim n m = Ok r -> (i < r)%nat -> (bpos n i < n)%nat /\ (bpos m i < m)%nat.
Proof.
  unfold bdim, bpos. intros H Hi.
  destruct (n =? m)%nat eqn:E1.
  { apply Nat.eqb_eq in E1. injection H as <-. subst m.
    destruct (n =? 1)%nat eqn:E; [apply Nat.eqb_eq in E |]; lia. }
  apply Nat.eqb_neq in E1.
  destruct (n =? 1)%nat eqn:E2.
  { apply Nat.eqb_eq in E2. injection H as <-. subst n.
    destruct (m =? 1)%nat eqn:E; [apply Nat.eqb_eq in E |]; lia. }
  destruct (m =? 1)%nat eqn:E3; [| discriminate].
  apply Nat.eqb_eq in E3. injection H as <-. lia.
Qed.

Lemma bmul4_inv (x y p : tensor4) :
  bmul4 x y = Ok p ->
  bdim (len4 x) (len4 y) = Ok (len4 p)
  /\ bdim (rows4 x) (rows4 y) = Ok (rows4 p)
  /\ bdim (cols4 x) (cols4 y) = Ok (cols4 p)
  /\ bdim (coils4 x) (coils4 y) = Ok (coils4 p)
  /\ forall s i j c,
       at4 p s i j c =
       Cmul (at4 x (bpos (len4 x) s) (bpos (rows4 x) i)
                   (bpos (cols4 x) j) (bpos (coils4 x) c))
            (at4 y (bpos (len4 y) s) (bpos (rows4 y) i)
                   (bpos (cols4 y) j) (bpos (coils4 y) c)).
Proof.
  unfold bmul4. intros H.
  destruct (bdim (len4 x) (len4 y)) as [n0 |]; [| discriminate].
  destruct (bdim (rows4 x) (rows4 y)) as [n1 |]; [| discriminate].
  destruct (bdim (cols4 x) (cols4 y)) as [n2 |]; [| discriminate].
  destruct (bdim (coils4 x) (coils4 y)) as [n3 |]; [| discriminate].
  cbn [rbind] in H. injection H as <-. cbn. repeat split.
Qed.

Lemma bmul4_ext (x x' y y' p : tensor4) :
  teq4 x x' -> teq4 y y' -> bmul4 x y = Ok p ->
  exists p', bmul4 x' y' = Ok p' /\ teq4 p p'.
Proof.
  intros [Hs Hv] [Hs' Hv'] H.
  pose proof (@shape4_inv x _ _ _ _ Hs) as (S0 & S1 & S2 & S3).
  pose proof (@shape4_inv y _ _ _ _ Hs') as (T0 & T1 & T2 & T3).
  destruct (@bmul4_inv _ _ _ H) as (B0 & B1 & B2 & B3 & Vp).
  unfold bmul4. rewrite <- S0, <- S1, <- S2, <- S3, <- T0, <- T1, <- T2, <- T3.
  rewrite B0, B1, B2, B3. cbn [rbind]. eexists. split; [reflexivity |].
  split; [reflexivity |].
  intros s i j c Hs_ Hi Hj Hc. rewrite Vp. cbn [at4].
  destruct (@bdim_bpos _ _ _ _ B0 Hs_). destruct (@bdim_bpos _ _ _ _ B1 Hi).
  destruct (@bdim_bpos _ _ _ _ B2 Hj). destruct (@bdim_bpos _ _ _ _ B3 Hc).
  rewrite Hv, Hv' by assumption. reflexivity.
Qed.

Lemma conj4_ext (x y : tensor4) : teq4 x y -> teq4 (conj4 x) (conj4 y).
Proof.
  intros [Hs Hv]. split; [exact Hs |].
  intros b i j c Hb Hi Hj Hc. cbn in *. f_equal. now apply Hv.
Qed.

Lemma sum_axis3_ext (x y : tensor4) :
  teq4 x y -> teq3 (sum_axis3 x) (sum_axis3 y).
Proof.
  intros [Hs Hv].
  pose proof (@shape4_inv x _ _ _ _ Hs) as (S0 & S1 & S2 & S3).
  split; [unfold shape3; cbn; congruence |].
  intros b i j Hb Hi Hj. cbn in *. rewrite <- S3.
  apply Csum_ext. intros c Hc. now apply Hv.
Qed.

Lemma decode_ext (x x' S : tensor4) (a : tensor3) :
  teq4 x x' -> decode x S = Ok a ->
  exists a', decode x' S = Ok a' /\ teq3 a a'.
Proof.
  intros Hx H. unfold decode in *.
  destruct (ifft2 x) as [u |] eqn:E; [| discriminate]. cbn [rbind] in H.
  destruct (bmul4 u (conj4 S)) as [p |] eqn:Ep; [| discriminate].
  cbn [rbind] in H. injection H as <-.
  destruct (@ifft2_ext _ _ _ Hx E) as (u' & E' & Hu).
  destruct (@bmul4_ext _ _ _ _ _ Hu (teq4_refl (conj4 S)) Ep) as (p' & Ep' & Hp).
  rewrite E'. cbn [rbind]. rewrite Ep'. cbn [rbind].
  eexists. split; [reflexivity |]. now apply sum_axis3_ext.
Qed.

Lemma decode_shape (x S : tensor4) (a : tensor3) :
  decode x S = Ok a ->
  bdim (len4 x) (len4 S) = Ok (len3 a)
  /\ bdim (rows4 x) (rows4 S) = Ok (rows3 a)
  /\ bdim (cols4 x) (cols4 S) = Ok (cols3 a).
Proof.
  intros H. unfold decode, ifft2, ifftn, dft12 in H.
  destruct (_ || _)%bool; [discriminate |]. cbn [rbind] in H.
  destruct (bmul4 _ (conj4 S)) as [p |] eqn:Ep; [| discriminate].
  cbn [rbind] in H. injection H as <-.
  destruct (@bmul4_inv _ _ _ Ep) as (B0 & B1 & B2 & _). cbn in *.
  repeat split; assumption.
Qed.

End ExtFacts.

(** ** Maxima and moduli *)

Module MaxFacts.

Import Kernel.
Local Open Scope R_scope.

Lemma fold_Rmax_ge_acc (l : list R) (x : R) : x <= fold_left Rmax l x.
Proof.
  revert x. induction l as [| y l IH]; intros x; cbn [fold_left]; [lra |].
  eapply Rle_trans; [apply Rmax_l | apply IH].
Qed.

Lemma fold_Rmax_ge_in (l : list R) (x y : R) :
  In y l -> y <= fold_left Rmax l x.
Proof.
  revert x. induction l as [| z l IH]; intros x H; cbn [fold_left]; [contradiction |].
  destruct H as [<- | H]; [| now apply IH].
  eapply Rle_trans; [apply Rmax_r | apply fold_Rmax_ge_acc].
Qed.

Lemma max_list_ge (l : list R) (m y : R) :
  max_list l = Ok m -> In y l -> y <= m.
Proof.
  destruct l as [| x l]; [discriminate |]. cbn [max_list].
  intros H. injection H as <-. intros [<- | H].
  - apply fold_Rmax_ge_acc.
  - now apply fold_Rmax_ge_in.
Qed.






End MaxFacts.

(** ** The entries of a tensor, listed *)

Module EntryFacts.

Import Kernel TensorFacts.

Lemma flat_map_ext_in {A B : Type} (f g : A -> list B) (l : list A) :
  (forall a, In a l -> f a = g a) -> flat_map f l = flat_map g l.
Proof.
  induction l as [| a l IH]; intros H; cbn [flat_map]; [reflexivity |].
  rewrite H by (left; reflexivity).
  rewrite IH by (intros; apply H; right; assumption). reflexivity.
Qed.

Lemma map_flat_map_in {A B D : Type} (f : B -> D) (g : A -> list B)
    (h : A -> list D) (l : list A) :
  (forall a, In a l -> h a = map f (g a)) ->
  flat_map h l = map f (flat_map g l).
Proof.
  induction l as [| a l IH]; intros H; cbn [flat_map]; [reflexivity |].
  rewrite map_app, H by (left; reflexivity).
  rewrite IH by (intros; apply H; right; assumption). reflexivity.
Qed.

(** If every entry of [y] is [f] of the entry of [x] at its place, the list
    of entries of [y] is the list of entries of [x], mapped. *)
Lemma entries4_map (f : C -> C) (x y : tensor4) :
  shape4 y = shape4 x ->
  (forall b i j c,
     (b < len4 x)%nat -> (i < rows4 x)%nat -> (j < cols4 x)%nat ->
     (c < coils4 x)%nat -> at4 y b i j c = f (at4 x b i j c)) ->
  entries4 y = map f (entries4 x).
Proof.
  intros Hs Hv.
  pose proof (@shape4_inv y _ _ _ _ Hs) as (S0 & S1 & S2 & S3).
  unfold entries4. rewrite S0, S1, S2, S3.
  apply map_flat_map_in. intros b Hb. apply in_seq in Hb.
  apply map_flat_map_in. intros i Hi. apply in_seq in Hi.
  apply map_flat_map_in. intros j Hj. apply in_seq in Hj.
  rewrite map_map. apply map_ext_in. intros c Hc. apply in_seq in Hc.
  apply Hv; lia.
Qed.

Lemma in_entries4 (x : tensor4) (b i j c : nat) :
  (b < len4 x)%nat -> (i < rows4 x)%nat -> (j < cols4 x)%nat ->
  (c < coils4 x)%nat -> In (at4 x b i j c) (entries4 x).
Proof.
  intros Hb Hi Hj Hc. unfold entries4.
  apply in_flat_map. exists b. split; [apply in_seq; lia |].
  apply in_flat_map. exists i. split; [apply in_seq; lia |].
  apply in_flat_map. exists j. split; [apply in_seq; lia |].
  apply in_map_iff. exists c. split; [reflexivity | apply in_seq; lia].
Qed.

Lemma max_abs4_ext (x y : tensor4) : teq4 x y -> max_abs4 y = max_abs4 x.
Proof.
  intros [Hs Hv]. unfold max_abs4.
  rewrite (@entries4_map (fun z => z) x y); [now rewrite map_id | congruence |].
  intros. symmetry. now apply Hv.
Qed.

End EntryFacts.

(** ** The loop of [__init__] normalises every slice *)

Module LoopFacts.

Import Py Dataset Kernel Fourier TensorFacts InitFacts ExtFacts MaxFacts
  EntryFacts.

Lemma teq4_slab (t t' : tensor4) (i : nat) :
  shape4 t' = shape4 t -> (i < len4 t)%nat ->
  (forall r c q, at4 t' i r c q = at4 t i r c q) ->
  teq4 (slab t' i) (slab t i).
Proof.
  intros Hs Hi Hv.
  pose proof (@shape4_inv t' _ _ _ _ Hs) as (S0 & S1 & S2 & S3).
  split.
  - rewrite !slab_shape by lia. congruence.
  - intros b r c q Hb _ _ _.
    assert (L : len4 (slab t' i) = 1%nat).
    { pose proof (@slab_shape t' i) as E. rewrite S0 in E.
      specialize (E Hi). apply shape4_inv in E. tauto. }
    assert (b = 0%nat) by lia. subst b.
    rewrite !slab_at by lia. apply Hv.
Qed.

Lemma bdim_fits (n m r : nat) :
  bdim n m = Ok r -> fits r n = true -> r = n.
Proof.
  unfold bdim, fits. intros H F.
  destruct (n =? m)%nat eqn:E1; [injection H as <-; reflexivity |].
  destruct (n =? 1)%nat eqn:E2.
  - apply Nat.eqb_eq in E2. injection H as <-. subst n.
    apply orb_prop in F as [F | F]; apply Nat.eqb_eq in F; congruence.
  - destruct (m =? 1)%nat; [injection H as <-; reflexivity | discriminate].
Qed.

Lemma setrow3_inv (t v t' : tensor3) (i : nat) :
  setrow3 t i v = Ok t' ->
  len3 v = 1%nat /\ fits (rows3 v) (rows3 t) = true
  /\ fits (cols3 v) (cols3 t) = true
  /\ shape3 t' = shape3 t
  /\ forall b r c,
       at3 t' b r c =
       if (b =? i)%nat then at3 v 0 (bpos (rows3 v) r) (bpos (cols3 v) c)
       else at3 t b r c.
Proof.
  unfold setrow3. intros H.
  destruct (len3 v =? 1)%nat eqn:E0; [| discriminate].
  destruct (fits (rows3 v) (rows3 t)) eqn:E1; [| discriminate].
  destruct (fits (cols3 v) (cols3 t)) eqn:E2; [| discriminate].
  cbn [andb] in H. injection H as <-. apply Nat.eqb_eq in E0.
  repeat split; assumption.
Qed.

Section Loop.

Variables (msk : tensor2 C) (sens ks0 : tensor4).
Hypotheses (Hmr : rows msk = rows4 ks0) (Hmc : cols msk = cols4 ks0).

Lemma init_step_inv_loop (k : nat) (st st' : tensor4 * tensor3 * tensor3) :
  (k < len4 ks0)%nat -> loop_inv msk sens ks0 k st ->
  init_step msk sens st k = Ok st' -> loop_inv msk sens ks0 (S k) st'.
Proof.
  destruct st as [[ks a] b], st' as [[ks' a'] b'].
  intros Hk (I0 & I1 & I2 & I3 & I4) H. cbn [fst snd] in *.
  pose proof (@shape4_inv ks _ _ _ _ I0) as (K0 & K1 & K2 & K3).
  pose proof (@shape3_inv a _ _ _ I1) as (A0 & A1 & A2).
  pose proof (@shape3_inv b _ _ _ I2) as (B0 & B1 & B2).
  apply init_step_inv in H
    as (nv & masked & da & db & E1 & -> & E2 & E3 & E4 & E5 & E6).
  set (ks' := scale_slice ks k nv) in *.
  assert (F1 : shape4 ks' = shape4 ks) by reflexivity.
  assert (F2 : forall i r c q,
             i <> k -> at4 ks' i r c q = at4 ks i r c q).
  { intros i r c q Hi. unfold ks', scale_slice. cbn [at4].
    apply Nat.eqb_neq in Hi. now rewrite Hi. }
  assert (F3 : forall r c q,
             at4 ks' k r c q = Cdivr (at4 ks0 k r c q) nv).
  { intros r c q. unfold ks', scale_slice. cbn [at4].
    rewrite Nat.eqb_refl, slab_at by lia. now rewrite I3 by lia. }
  apply setrow3_inv in E4 as (La & Ra & Ca & Sa & Va).
  apply setrow3_inv in E6 as (Lb & Rb & Cb & Sb & Vb).
  (* shapes of the two reconstructions *)
  destruct (@bmul4_inv _ _ _ E2) as (_ & M1 & M2 & _).
  cbn [rows4 cols4 unsqueeze03] in M1, M2.
  assert (Hsl : shape4 (slab ks' k) = (1%nat, rows4 ks0, cols4 ks0, coils4 ks0)).
  { rewrite slab_shape by (cbn; lia). cbn. congruence. }
  pose proof (@shape4_inv _ _ _ _ _ Hsl) as (L0 & L1 & L2 & L3).
  rewrite L1, Hmr, bdim_same in M1. rewrite L2, Hmc, bdim_same in M2.
  injection M1 as M1. injection M2 as M2.
  destruct (@decode_shape _ _ _ E3) as (_ & D1 & D2).
  destruct (@decode_shape _ _ _ E5) as (_ & D3 & D4).
  rewrite <- M1 in D1. rewrite <- M2 in D2. rewrite L1 in D3. rewrite L2 in D4.
  rewrite A1 in Ra. rewrite A2 in Ca. rewrite B1 in Rb. rewrite B2 in Cb.
  apply (@bdim_fits _ _ _ D1) in Ra. apply (@bdim_fits _ _ _ D2) in Ca.
  apply (@bdim_fits _ _ _ D3) in Rb. apply (@bdim_fits _ _ _ D4) in Cb.
  assert (Hda : shape3 da = (1%nat, rows4 ks0, cols4 ks0))
    by (unfold shape3; congruence).
  assert (Hdb : shape3 db = (1%nat, rows4 ks0, cols4 ks0))
    by (unfold shape3; congruence).
  (* the invariant *)
  unfold loop_inv. cbn [fst snd].
  split; [congruence |]. split; [congruence |]. split; [congruence |].
  split.
  { intros i r c q Hi. rewrite F2 by lia. apply I3. lia. }
  intros i Hi. destruct (Nat.eq_dec i k) as [-> | Hne].
  - (* the slice just processed *)
    exists nv, masked, da, db. cbn [fst snd].
    split.
    { rewrite <- E1. apply max_abs4_ext. apply teq4_slab; [congruence | lia |].
      intros. apply I3. lia. }
    split; [exact F3 |]. split; [exact E2 |]. split; [exact E3 |].
    split; [exact E5 |]. split; [exact Hda |]. split; [exact Hdb |].
    intros r c Hr Hc. rewrite Va, Vb, Nat.eqb_refl.
    rewrite !bpos_inside by congruence. split; reflexivity.
  - (* an earlier slice *)
    destruct (I4 i) as (nvi & mi & dai & dbi & G1 & G2 & G3 & G4 & G5 & G6 & G7 & G8);
      [lia |]. cbn [fst snd] in *.
    assert (T : teq4 (slab ks i) (slab ks' i)).
    { apply teq4_sym. apply teq4_slab; [exact F1 | lia |].
      intros. now apply F2. }
    destruct (@bmul4_ext _ _ _ _ _ T (teq4_refl (unsqueeze03 msk)) G3)
      as (mi' & G3' & Tm).
    destruct (@decode_ext _ _ _ _ Tm G4) as (dai' & G4' & Ta).
    destruct (@decode_ext _ _ _ _ T G5) as (dbi' & G5' & Tb).
    exists nvi, mi', dai', dbi'. cbn [fst snd].
    split; [exact G1 |].
    split; [intros; rewrite F2 by exact Hne; apply G2 |].
    split; [exact G3' |]. split; [exact G4' |]. split; [exact G5' |].
    split; [rewrite <- (proj1 Ta); exact G6 |].
    split; [rewrite <- (proj1 Tb); exact G7 |].
    intros r c Hr Hc. rewrite Va, Vb.
    apply Nat.eqb_neq in Hne. rewrite Hne.
    destruct (G8 r c Hr Hc) as (X1 & X2). rewrite X1, X2.
    pose proof (@shape3_inv _ _ _ _ G6) as (P0 & P1 & P2).
    pose proof (@shape3_inv _ _ _ _ G7) as (Q0 & Q1 & Q2).
    split; [apply (proj2 Ta) | apply (proj2 Tb)]; lia.
Qed.

Lemma init_loop_inv (m : nat) :
  forall k st st',
    (k + m <= len4 ks0)%nat -> loop_inv msk sens ks0 k st ->
    init_loop msk sens (seq k m) st = Ok st' ->
    loop_inv msk sens ks0 (k + m) st'.
Proof.
  induction m as [| m IH]; intros k st st' Hk Hinv H; cbn [seq init_loop] in H.
  - injection H as <-. now rewrite Nat.add_0_r.
  - destruct (init_step msk sens st k) as [st1 |] eqn:E; [| discriminate].
    replace (k + S m)%nat with (S k + m)%nat by lia.
    apply IH with (st := st1); [lia | | exact H].
    apply init_step_inv_loop with (st := st); [lia | exact Hinv | exact E].
Qed.

End Loop.

End LoopFacts.

Import ExtFacts MaxFacts EntryFacts LoopFacts.

(** ** Complex arithmetic and finite sums *)

Module CplxFacts.

Local Open Scope R_scope.

Ltac csolve :=
  repeat match goal with z : C |- _ => destruct z end;
  unfold Cadd, Csub, Cmul, Cconj, Cscal, RtoC, C0, C1; cbn [fst snd];
  apply (f_equal2 (@pair R R)); ring.

Lemma Cadd_comm (z w : C) : Cadd z w = Cadd w z.
Proof. csolve. Qed.

Lemma Cadd_assoc (z w v : C) : Cadd z (Cadd w v) = Cadd (Cadd z w) v.
Proof. csolve. Qed.

Lemma Cadd_0_r (z : C) : Cadd z C0 = z.
Proof. csolve. Qed.

Lemma Cadd_0_l' (z : C) : Cadd C0 z = z.
Proof. csolve. Qed.

Lemma Cmul_comm (z w : C) : Cmul z w = Cmul w z.
Proof. csolve. Qed.

Lemma Cmul_assoc (z w v : C) : Cmul z (Cmul w v) = Cmul (Cmul z w) v.
Proof. csolve. Qed.

Lemma Cmul_1_l (z : C) : Cmul C1 z = z.
Proof. csolve. Qed.

Lemma Cmul_1_r (z : C) : Cmul z C1 = z.
Proof. csolve. Qed.

Lemma Cmul_0_r (z : C) : Cmul z C0 = C0.
Proof. csolve. Qed.

Lemma Cmul_0_l' (z : C) : Cmul C0 z = C0.
Proof. csolve. Qed.

Lemma Cmul_add_distr_l (z w v : C) :
  Cmul z (Cadd w v) = Cadd (Cmul z w) (Cmul z v).
Proof. csolve. Qed.

Lemma Cmul_add_distr_r (z w v : C) :
  Cmul (Cadd z w) v = Cadd (Cmul z v) (Cmul w v).
Proof. csolve. Qed.

Lemma Cscal_mul (r : R) (z : C) : Cscal r z = Cmul (RtoC r) z.
Proof. csolve. Qed.

Lemma Cscal_Cmul_l (r : R) (z w : C) : Cmul (Cscal r z) w = Cscal r (Cmul z w).
Proof. csolve. Qed.

Lemma RtoC_mul (r s : R) : Cmul (RtoC r) (RtoC s) = RtoC (r * s).
Proof. csolve. Qed.

Lemma RtoC_add (r s : R) : Cadd (RtoC r) (RtoC s) = RtoC (r + s).
Proof. csolve. Qed.

(** The complex numbers have no zero divisors. *)
Lemma Cmul_integral (z w : C) : Cmul z w = C0 -> z = C0 \/ w = C0.
Proof.
  destruct z as [a b], w as [c d]. unfold Cmul, C0. cbn [fst snd].
  intros H. injection H as H1 H2.
  assert (E : (a * a + b * b) * (c * c + d * d) = 0) by nra.
  apply Rmult_integral in E as [E | E].
  - left. assert (a = 0) by nra. assert (b = 0) by nra. congruence.
  - right. assert (c = 0) by nra. assert (d = 0) by nra. congruence.
Qed.

Lemma Csum_add (f g : nat -> C) (n : nat) :
  Csum (fun k => Cadd (f k) (g k)) n = Cadd (Csum f n) (Csum g n).
Proof.
  induction n as [| n IH]; cbn [Csum]; [csolve |]. rewrite IH.
  generalize (Csum f n) (Csum g n) (f n) (g n). intros. csolve.
Qed.

Lemma Csum_mul_l (a : C) (f : nat -> C) (n : nat) :
  Csum (fun k => Cmul a (f k)) n = Cmul a (Csum f n).
Proof.
  induction n as [| n IH]; cbn [Csum]; [csolve |]. rewrite IH.
  now rewrite Cmul_add_distr_l.
Qed.

Lemma Csum_mul_r (a : C) (f : nat -> C) (n : nat) :
  Csum (fun k => Cmul (f k) a) n = Cmul (Csum f n) a.
Proof.
  induction n as [| n IH]; cbn [Csum]; [csolve |]. rewrite IH.
  now rewrite Cmul_add_distr_r.
Qed.

Lemma Csum_zero (n : nat) : Csum (fun _ => C0) n = C0.
Proof.
  induction n as [| n IH]; cbn [Csum]; [reflexivity |]. rewrite IH. csolve.
Qed.

Lemma Csum_const (a : C) (n : nat) :
  Csum (fun _ => a) n = Cmul (RtoC (INR n)) a.
Proof.
  induction n as [| n IH]; [cbn; csolve |].
  cbn [Csum]. rewrite IH, S_INR. csolve.
Qed.

Lemma Csum_swap (f : nat -> nat -> C) (n m : nat) :
  Csum (fun i => Csum (fun j => f i j) m) n
  = Csum (fun j => Csum (fun i => f i j) n) m.
Proof.
  induction n as [| n IH]; cbn [Csum].
  - now rewrite Csum_zero.
  - rewrite IH. now rewrite <- Csum_add.
Qed.

(** A sum with a single non-zero term *)
Lemma Csum_single (f : nat -> C) (n m : nat) :
  (m < n)%nat -> (forall k, (k < n)%nat -> k <> m -> f k = C0) ->
  Csum f n = f m.
Proof.
  induction n as [| n IH]; intros Hm H; [lia |]. cbn [Csum].
  destruct (Nat.eq_dec m n) as [-> | Hne].
  - rewrite (@Csum_ext f (fun _ => C0)) by (intros; apply H; lia).
    rewrite Csum_zero. apply Cadd_0_l'.
  - rewrite IH by (try lia; intros; apply H; lia).
    rewrite (H n) by lia. apply Cadd_0_r.
Qed.

End CplxFacts.

(** ** Roots of unity *)

Module RootFacts.

Import CplxFacts.
Local Open Scope R_scope.

Lemma Cexp_add (a b : R) : Cexp (a + b) = Cmul (Cexp a) (Cexp b).
Proof.
  unfold Cexp, Cmul. cbn [fst snd]. rewrite cos_plus, sin_plus.
  apply (f_equal2 (@pair R R)); ring.
Qed.

Lemma Cexp_0 : Cexp 0 = C1.
Proof. unfold Cexp, C1. now rewrite cos_0, sin_0. Qed.

Lemma Cexp_neg (a : R) : Cexp (- a) = Cconj (Cexp a).
Proof. unfold Cexp, Cconj. cbn [fst snd]. now rewrite cos_neg, sin_neg. Qed.

Lemma Cexp_2PI_nat (k : nat) : Cexp (2 * PI * INR k) = C1.
Proof.
  unfold Cexp, C1.
  replace (2 * PI * INR k) with (0 + 2 * INR k * PI) by ring.
  now rewrite cos_period, sin_period, cos_0, sin_0.
Qed.

Lemma Cexp_2PI_Z (m : Z) : Cexp (2 * PI * IZR m) = C1.
Proof.
  destruct (Z_le_gt_dec 0 m) as [H | H].
  - rewrite <- (Z2Nat.id m) by exact H. rewrite <- INR_IZR_INZ.
    apply Cexp_2PI_nat.
  - replace (2 * PI * IZR m) with (- (2 * PI * IZR (- m)))
      by (rewrite opp_IZR; ring).
    rewrite Cexp_neg. rewrite <- (Z2Nat.id (- m)) by lia.
    rewrite <- INR_IZR_INZ, Cexp_2PI_nat. unfold Cconj, C1. cbn [fst snd].
    apply (f_equal2 (@pair R R)); ring.
Qed.

Lemma INR_nonzero (N : nat) : (0 < N)%nat -> INR N <> 0.
Proof. intros H. apply not_0_INR. lia. Qed.

Lemma root_add (N : nat) (s t : Z) :
  root N (s + t) = Cmul (root N s) (root N t).
Proof.
  unfold root. rewrite <- Cexp_add. f_equal. rewrite plus_IZR.
  unfold Rdiv. ring.
Qed.

Lemma root_0 (N : nat) : root N 0 = C1.
Proof.
  unfold root. replace (2 * PI * 0 / INR N) with 0 by (unfold Rdiv; ring).
  apply Cexp_0.
Qed.

Lemma root_multiple (N : nat) (m : Z) :
  (0 < N)%nat -> root N (Z.of_nat N * m) = C1.
Proof.
  intros H. unfold root. rewrite mult_IZR, <- INR_IZR_INZ.
  replace (2 * PI * (INR N * IZR m) / INR N) with (2 * PI * IZR m)
    by (field; now apply INR_nonzero).
  apply Cexp_2PI_Z.
Qed.

Lemma twiddle_forward (N k n : nat) :
  twiddle (-1) N k n = root N (- (Z.of_nat k * Z.of_nat n)).
Proof.
  unfold twiddle, root. f_equal.
  rewrite opp_IZR, mult_IZR, <- !INR_IZR_INZ. unfold Rdiv. ring.
Qed.

Lemma twiddle_backward (N k n : nat) :
  twiddle 1 N k n = root N (Z.of_nat k * Z.of_nat n).
Proof.
  unfold twiddle, root. f_equal.
  rewrite mult_IZR, <- !INR_IZR_INZ. unfold Rdiv. ring.
Qed.

(** [cos] of an integer multiple of [pi] *)
Lemma cos_IZR_PI_even (m : Z) : cos (IZR (2 * m) * PI) = 1.
Proof.
  replace (IZR (2 * m) * PI) with (2 * PI * IZR m) by (rewrite mult_IZR; ring).
  pose proof (Cexp_2PI_Z m) as H. unfold Cexp, C1 in H. now injection H.
Qed.

Lemma cos_IZR_PI_odd (m : Z) : cos (IZR (2 * m + 1) * PI) = -1.
Proof.
  replace (IZR (2 * m + 1) * PI) with (2 * PI * IZR m + PI)
    by (rewrite plus_IZR, mult_IZR; ring).
  rewrite cos_plus.
  pose proof (Cexp_2PI_Z m) as H. unfold Cexp, C1 in H. injection H as Hc Hs.
  rewrite Hc, Hs, cos_PI, sin_PI. ring.
Qed.

(** The only roots equal to one are those of the multiples of [N]. *)
Lemma root_eq_1 (N : nat) (d : Z) :
  (0 < N)%nat -> root N d = C1 -> (Z.of_nat N | d)%Z.
Proof.
  intros HN H. unfold root, Cexp, C1 in H. injection H as Hc Hs.
  apply sin_eq_0_0 in Hs as [k Hk].
  destruct (Z.Even_or_Odd k) as [[m Hm] | [m Hm]].
  - exists m. subst k.
    assert (E : IZR d = IZR (m * Z.of_nat N)).
    { rewrite mult_IZR, <- INR_IZR_INZ. rewrite mult_IZR in Hk.
      pose proof (INR_nonzero HN). pose proof PI_neq0.
      apply Rmult_eq_reg_l with (r := 2 * PI); [| lra].
      replace (2 * PI * IZR d) with ((2 * PI * IZR d / INR N) * INR N)
        by (field; assumption).
      rewrite Hk. ring. }
    now apply eq_IZR in E.
  - exfalso. rewrite Hk, Hm, cos_IZR_PI_odd in Hc. lra.
Qed.

Lemma root_pow (N : nat) (d : Z) (k : nat) :
  root N (Z.of_nat (S k) * d) = Cmul (root N (Z.of_nat k * d)) (root N d).
Proof.
  rewrite <- root_add. f_equal. lia.
Qed.

(** The sum of the powers of a root of unity *)
Lemma root_sum_multiple (N : nat) (d : Z) :
  (0 < N)%nat -> (Z.of_nat N | d)%Z ->
  Csum (fun k => root N (Z.of_nat k * d)) N = RtoC (INR N).
Proof.
  intros HN [m ->].
  rewrite (@Csum_ext _ (fun _ => C1)).
  - rewrite Csum_const. apply Cmul_1_r.
  - intros k _.
    replace (Z.of_nat k * (m * Z.of_nat N))%Z
      with (Z.of_nat N * (Z.of_nat k * m))%Z by ring.
    now apply root_multiple.
Qed.

Lemma geometric_telescope (N : nat) (d : Z) (n : nat) :
  Cmul (Csum (fun k => root N (Z.of_nat k * d)) n) (Csub (root N d) C1)
  = Csub (root N (Z.of_nat n * d)) C1.
Proof.
  induction n as [| n IH].
  - cbn [Csum]. change (Z.of_nat 0 * d)%Z with 0%Z. rewrite root_0.
    unfold Cmul, Csub, C0, C1. cbn [fst snd].
    apply (f_equal2 (@pair R R)); ring.
  - cbn [Csum]. rewrite Cmul_add_distr_r, IH, root_pow.
    generalize (root N (Z.of_nat n * d)) (root N d). intros z w.
    destruct z, w. unfold Cmul, Csub, Cadd, C1. cbn [fst snd].
    apply (f_equal2 (@pair R R)); ring.
Qed.

Lemma root_sum_other (N : nat) (d : Z) :
  (0 < N)%nat -> ~ (Z.of_nat N | d)%Z ->
  Csum (fun k => root N (Z.of_nat k * d)) N = C0.
Proof.
  intros HN Hd.
  pose proof (geometric_telescope N d N) as T.
  rewrite root_multiple in T by exact HN.
  replace (Csub C1 C1) with C0 in T
    by (unfold Csub, C1, C0; cbn; apply (f_equal2 (@pair R R)); ring).
  apply Cmul_integral in T as [T | T]; [exact T |].
  exfalso. apply Hd. apply root_eq_1; [exact HN |].
  destruct (root N d) as [a b]. unfold Csub, C1, C0 in *. cbn [fst snd] in T.
  injection T as Ta Tb. apply (f_equal2 (@pair R R)); lra.
Qed.

(** Orthogonality of the forward and backward kernels *)
Lemma kernel_orthogonal (N n m : nat) :
  (n < N)%nat -> (m < N)%nat ->
  Csum (fun k => Cmul (twiddle (-1) N k n) (twiddle 1 N m k)) N
  = if (n =? m)%nat then RtoC (INR N) else C0.
Proof.
  intros Hn Hm.
  rewrite (@Csum_ext _ (fun k => root N (Z.of_nat k * (Z.of_nat m - Z.of_nat n)))).
  - destruct (Nat.eqb_spec n m) as [-> | Hne].
    + apply root_sum_multiple; [lia |]. exists 0%Z. lia.
    + apply root_sum_other; [lia |]. intros [q Hq].
      assert (Z.abs (Z.of_nat m - Z.of_nat n) < Z.of_nat N)%Z by lia.
      assert (q = 0)%Z by nia. lia.
  - intros k _. rewrite twiddle_forward, twiddle_backward, <- root_add.
    f_equal. ring.
Qed.

End RootFacts.

(** ** The backward transform undoes the forward transform *)

Module InversionFacts.

Import CplxFacts RootFacts.
Local Open Scope R_scope.

Lemma inversion_1d (N m : nat) (g : nat -> C) :
  (m < N)%nat ->
  Csum (fun k =>
          Cmul (Csum (fun n => Cmul (g n) (twiddle (-1) N k n)) N)
               (twiddle 1 N m k)) N
  = Cmul (RtoC (INR N)) (g m).
Proof.
  intros Hm.
  rewrite (@Csum_ext _
             (fun k => Csum (fun n => Cmul (g n)
                                        (Cmul (twiddle (-1) N k n)
                                              (twiddle 1 N m k))) N)).
  2:{ intros k _. rewrite <- Csum_mul_r. apply Csum_ext. intros n _.
      now rewrite Cmul_assoc. }
  rewrite Csum_swap.
  rewrite (@Csum_ext _
             (fun n => Cmul (g n) (if (n =? m)%nat then RtoC (INR N) else C0))).
  2:{ intros n Hn. rewrite Csum_mul_l. f_equal.
      now apply kernel_orthogonal. }
  rewrite (@Csum_single _ N m Hm).
  - rewrite Nat.eqb_refl. apply Cmul_comm.
  - intros k _ Hk. apply Nat.eqb_neq in Hk. rewrite Hk. apply Cmul_0_r.
Qed.

Lemma inversion_2d (N1 N2 m1 m2 : nat) (x : nat -> nat -> C) :
  (m1 < N1)%nat -> (m2 < N2)%nat ->
  Csum (fun k1 =>
    Csum (fun k2 =>
      Cmul (Csum (fun n1 =>
              Csum (fun n2 =>
                Cmul (x n1 n2)
                     (Cmul (twiddle (-1) N1 k1 n1) (twiddle (-1) N2 k2 n2)))
                N2) N1)
           (Cmul (twiddle 1 N1 m1 k1) (twiddle 1 N2 m2 k2))) N2) N1
  = Cmul (RtoC (INR N1 * INR N2)) (x m1 m2).
Proof.
  intros H1 H2.
  set (h := fun k2 n1 =>
              Csum (fun n2 => Cmul (x n1 n2) (twiddle (-1) N2 k2 n2)) N2).
  rewrite Csum_swap.
  rewrite (@Csum_ext _
             (fun k2 => Cmul (Cmul (RtoC (INR N1)) (h k2 m1))
                             (twiddle 1 N2 m2 k2))).
  2:{ intros k2 _.
      rewrite <- (@inversion_1d N1 m1 (h k2) H1).
      rewrite <- Csum_mul_r. apply Csum_ext. intros k1 _.
      rewrite Cmul_assoc. f_equal. f_equal.
      apply Csum_ext. intros n1 _. unfold h. rewrite <- Csum_mul_r.
      apply Csum_ext. intros n2 _.
      generalize (x n1 n2) (twiddle (-1) N1 k1 n1) (twiddle (-1) N2 k2 n2).
      intros z w v. csolve. }
  rewrite (@Csum_ext _
             (fun k2 => Cmul (RtoC (INR N1))
                             (Cmul (h k2 m1) (twiddle 1 N2 m2 k2))))
    by (intros; now rewrite Cmul_assoc).
  rewrite Csum_mul_l. unfold h.
  rewrite (@inversion_1d N2 m2 (fun n2 => x m1 n2) H2).
  now rewrite Cmul_assoc, RtoC_mul.
Qed.

Lemma ortho_scale (N1 N2 : nat) (z : C) :
  (0 < N1)%nat -> (0 < N2)%nat ->
  Cscal (/ sqrt (INR (N1 * N2)))
    (Cmul (Cscal (/ sqrt (INR (N1 * N2))) (Cmul (RtoC (INR N1 * INR N2)) z)) C1)
  = z.
Proof.
  intros H1 H2.
  assert (Hp : 0 < INR (N1 * N2)).
  { apply lt_0_INR. apply Nat.mul_pos_pos; assumption. }
  pose proof (sqrt_lt_R0 _ Hp) as Hs.
  pose proof (sqrt_sqrt (INR (N1 * N2)) (Rlt_le _ _ Hp)) as Hq.
  rewrite mult_INR in *. set (q := sqrt (INR N1 * INR N2)) in *.
  rewrite <- Hq. destruct z as [a b].
  unfold Cscal, Cmul, RtoC, C1. cbn [fst snd].
  apply (f_equal2 (@pair R R)); field; lra.
Qed.

End InversionFacts.

(** ** The centered transforms on even axes *)

Module CentredFacts.

Import CplxFacts RootFacts InversionFacts.

(** On three points [fftshift] moves [a, b, c] to [c, a, b] and
    [ifftshift] moves it to [b, c, a]; two [fftshift]s in a row are a roll by
    two positions, not the identity. *)
Example fftshift_three :
  map (source 3 (3 / 2)) [0; 1; 2]%nat = [2; 0; 1]%nat
  /\ map (source 3 ((3 + 1) / 2)) [0; 1; 2]%nat = [1; 2; 0]%nat
  /\ map (fun i => source 3 (3 / 2) (source 3 (3 / 2) i)) [0; 1; 2]%nat
     = [1; 2; 0]%nat.
Proof. repeat split. Qed.

Lemma source_twice_half (N i : nat) :
  Nat.even N = true -> (i < N)%nat ->
  source N (N / 2) (source N (N / 2) i) = i.
Proof.
  intros He Hi. apply Nat.even_spec in He as [h ->].
  rewrite (Nat.mul_comm 2 h), Nat.div_mul by lia.
  rewrite (Nat.mul_comm h 2).
  unfold source. replace (2 * h - h)%nat with h by lia.
  rewrite Nat.Div0.add_mod_idemp_l.
  replace (i + h + h)%nat with (i + 1 * (2 * h))%nat by lia.
  rewrite Nat.Div0.mod_add. apply Nat.mod_small. lia.
Qed.

Lemma half_up_even (N : nat) : Nat.even N = true -> ((N + 1) / 2 = N / 2)%nat.
Proof.
  intros He. apply Nat.even_spec in He as [h ->].
  rewrite (Nat.mul_comm 2 h), Nat.div_mul by lia.
  symmetry. apply Nat.div_unique with (r := 1%nat); lia.
Qed.

Lemma source_one (s i : nat) : (i < 1)%nat -> source 1 s i = i.
Proof. intros H. unfold source. rewrite Nat.mod_1_r. lia. Qed.

Lemma fftshift_twice_at (N i : nat) :
  even_or_one N -> (i < N)%nat -> source N (N / 2) (source N (N / 2) i) = i.
Proof.
  intros [He | ->] Hi; [now apply source_twice_half |].
  now rewrite !(@source_one (1 / 2) i Hi).
Qed.

Lemma ifftshift_twice_at (N i : nat) :
  even_or_one N -> (i < N)%nat ->
  source N ((N + 1) / 2) (source N ((N + 1) / 2) i) = i.
Proof.
  intros [He | ->] Hi.
  - rewrite half_up_even by exact He. now apply source_twice_half.
  - now rewrite !(@source_one ((1 + 1) / 2) i Hi).
Qed.

Lemma fftshift_twice (x : tensor4) :
  even_or_one (rows4 x) -> even_or_one (cols4 x) ->
  teq4 (fftshift (fftshift x)) x.
Proof.
  intros H1 H2. split; [reflexivity |].
  intros b i j c Hb Hi Hj Hc. cbn in *.
  now rewrite !fftshift_twice_at.
Qed.

Lemma ifftshift_twice (x : tensor4) :
  even_or_one (rows4 x) -> even_or_one (cols4 x) ->
  teq4 (ifftshift (ifftshift x)) x.
Proof.
  intros H1 H2. split; [reflexivity |].
  intros b i j c Hb Hi Hj Hc. cbn in *.
  now rewrite !ifftshift_twice_at.
Qed.

(** [ifftn(fftn(x))] is [x]. *)
Lemma ifftn_fftn (x y : tensor4) :
  fftn x = Ok y -> exists z, ifftn y = Ok z /\ teq4 z x.
Proof.
  unfold fftn, ifftn, dft12. intros H.
  destruct ((rows4 x =? 0) || (cols4 x =? 0))%nat eqn:E; [discriminate |].
  injection H as <-. cbn [rows4 cols4]. rewrite E.
  apply orb_false_elim in E as [E1 E2].
  apply Nat.eqb_neq in E1, E2.
  eexists. split; [reflexivity |]. split; [reflexivity |].
  intros b m1 m2 c Hb H1 H2 Hc. cbn in *.
  rewrite (@Csum_ext _
    (fun k1 => Csum (fun k2 =>
       Cscal (/ sqrt (INR (rows4 x * cols4 x)))
         (Cmul (Csum (fun n1 => Csum (fun n2 =>
                  Cmul (at4 x b n1 n2 c)
                       (Cmul (twiddle (-1) (rows4 x) k1 n1)
                             (twiddle (-1) (cols4 x) k2 n2)))
                  (cols4 x)) (rows4 x))
               (Cmul (twiddle 1 (rows4 x) m1 k1) (twiddle 1 (cols4 x) m2 k2))))
       (cols4 x))).
  2:{ intros k1 _. apply Csum_ext. intros k2 _. apply Cscal_Cmul_l. }
  rewrite (@Csum_ext _
    (fun k1 => Cmul (RtoC (/ sqrt (INR (rows4 x * cols4 x))))
       (Csum (fun k2 =>
         (Cmul (Csum (fun n1 => Csum (fun n2 =>
                  Cmul (at4 x b n1 n2 c)
                       (Cmul (twiddle (-1) (rows4 x) k1 n1)
                             (twiddle (-1) (cols4 x) k2 n2)))
                  (cols4 x)) (rows4 x))
               (Cmul (twiddle 1 (rows4 x) m1 k1) (twiddle 1 (cols4 x) m2 k2))))
       (cols4 x)))).
  2:{ intros k1 _. rewrite <- Csum_mul_l. apply Csum_ext. intros k2 _.
      now rewrite Cscal_mul. }
  rewrite Csum_mul_l.
  rewrite (@inversion_2d (rows4 x) (cols4 x) m1 m2
             (fun n1 n2 => at4 x b n1 n2 c) H1 H2).
  rewrite <- Cscal_mul.
  rewrite <- (@ortho_scale (rows4 x) (cols4 x) (at4 x b m1 m2 c)) at 2
    by lia.
  now rewrite Cmul_1_r.
Qed.

(** On axes of even length (or of length one), [ifft2] undoes [fft2]. *)
Lemma ifft2_fft2_centred (x y : tensor4) :
  even_or_one (rows4 x) -> even_or_one (cols4 x) ->
  fft2 x = Ok y -> exists z, ifft2 y = Ok z /\ teq4 z x.
Proof.
  intros H1 H2 H. unfold fft2 in H.
  destruct (fftn (ifftshift x)) as [u |] eqn:E; [| discriminate].
  cbn [rbind] in H. injection H as <-.
  destruct (@ifftn_fftn _ _ E) as (w & Ew & Tw).
  assert (Su : shape4 u = shape4 x).
  { unfold fftn, dft12 in E. destruct (_ || _)%bool; [discriminate |].
    injection E as <-. reflexivity. }
  pose proof (@shape4_inv u _ _ _ _ Su) as (U0 & U1 & U2 & U3).
  assert (T : teq4 u (fftshift (fftshift u))).
  { apply teq4_sym. apply fftshift_twice; congruence. }
  destruct (@dft12_ext 1 _ _ _ T Ew) as (w' & Ew' & Tw').
  unfold ifft2, ifftn. rewrite Ew'. cbn [rbind].
  eexists. split; [reflexivity |].
  eapply teq4_trans; [apply ifftshift_ext; apply teq4_sym; exact Tw' |].
  eapply teq4_trans; [apply ifftshift_ext; exact Tw |].
  now apply ifftshift_twice.
Qed.

End CentredFacts.

(** ** The centered transforms on an axis of three points *)

Module OddFacts.

Import CplxFacts RootFacts InversionFacts CentredFacts.

Lemma root_congr (N : nat) (t t' : Z) :
  (0 < N)%nat -> (Z.of_nat N | t - t')%Z -> root N t = root N t'.
Proof.
  intros HN [m Hm]. replace t with (t' + Z.of_nat N * m)%Z by lia.
  rewrite root_add, root_multiple by exact HN. apply Cmul_1_r.
Qed.

Lemma root_one (t : Z) : root 1 t = C1.
Proof.
  rewrite <- (root_0 1). apply root_congr; [lia |].
  exists t. cbn. lia.
Qed.

Lemma three_roots_cancel :
  Cadd (Cadd (root 3 0) (root 3 1)) (root 3 2) = C0.
Proof.
  pose proof (@root_sum_other 3 1) as H. cbn [Csum] in H.
  rewrite Cadd_0_l' in H. apply H; [lia |].
  intros [q Hq]. lia.
Qed.

(** [ifft2(fft2(x))] at the first point of the line [1, 0, 0] *)
Lemma round_trip_delta3 (y z : tensor4) :
  fft2 delta3 = Ok y -> ifft2 y = Ok z -> at4 z 0 0 0 0 = C0.
Proof.
  intros Hy Hz. cbv [fft2 fftn dft12 delta3 rows4 cols4 Nat.eqb orb rbind] in Hy.
  injection Hy as <-.
  cbv [ifft2 ifftn dft12 fftshift roll12 rows4 cols4 Nat.eqb orb rbind] in Hz.
  injection Hz as <-.
  cbn [at4 ifftshift fftshift roll12 rows4 cols4 len4 coils4].
  change (source 3 ((3 + 1) / 2) 0) with 1%nat.
  rewrite !Cmul_0_l', !Cadd_0_l', !Cmul_1_l.
  rewrite !twiddle_forward, !twiddle_backward, !root_one, !Cmul_1_l.
  rewrite !Cscal_Cmul_l, <- !root_add.
  cbn [Z.of_nat Pos.of_succ_nat Pos.succ Z.mul Z.opp Pos.mul Z.add Z.pos_sub
       Pos.add Pos.pred_double].
  rewrite (@root_congr 3 (-2) 1), (@root_congr 3 (-3) 0)
    by (try lia; (exists (-1)%Z; lia)).
  generalize three_roots_cancel.
  generalize (root 3 0) (root 3 1) (root 3 2) (/ sqrt (1 + 1 + 1))%R.
  intros a b c r H. destruct a, b, c. unfold Cadd, Cscal, C0 in *.
  cbn [fst snd] in *. injection H as H1 H2.
  apply (f_equal2 (@pair R R)); nra.
Qed.

End OddFacts.

(** ** Encoding followed by decoding *)

Module AdjointFacts.

Import CplxFacts RootFacts InversionFacts CentredFacts OddFacts.

Lemma unit3_orthonormal : orthonormal unit3.
Proof.
  intros b i j _ _ _. cbn [unit3 const4 coils4 at4 Csum].
  unfold Cadd, Cmul, Cconj, C0, C1. cbn [fst snd].
  apply (f_equal2 (@pair R R)); ring.
Qed.

(** With even axes and a sensitivity map that is orthonormal at every pixel,
    [decode] undoes [encode] without mask. *)
Lemma decode_encode_centred (x : tensor3) (S : tensor4) (y : tensor4) :
  shape3 x = (len4 S, rows4 S, cols4 S) ->
  even_or_one (rows4 S) -> even_or_one (cols4 S) -> orthonormal S ->
  encode x S None = Ok y ->
  exists z, decode y S = Ok z /\ teq3 z x.
Proof.
  intros Hx H1 H2 HS H. unfold encode in H.
  destruct (@bmul4_coil S x Hx) as (p & Ep & Hp & Vp).
  rewrite Ep in H. cbn [rbind] in H.
  pose proof (@shape4_inv p _ _ _ _ Hp) as (P0 & P1 & P2 & P3).
  destruct (@ifft2_fft2_centred p y) as (u & Eu & Tu);
    [congruence | congruence | exact H |].
  pose proof (@shape4_inv u _ _ _ _ (proj1 Tu)) as (U0 & U1 & U2 & U3).
  destruct (@bmul4_same u (conj4 S)) as (q & Eq & Hq & Vq).
  { unfold shape4. cbn. congruence. }
  pose proof (@shape4_inv q _ _ _ _ Hq) as (Q0 & Q1 & Q2 & Q3).
  pose proof (@shape3_inv x _ _ _ Hx) as (X0 & X1 & X2).
  unfold decode. rewrite Eu. cbn [rbind]. rewrite Eq. cbn [rbind].
  eexists. split; [reflexivity |]. split.
  - unfold shape3. cbn. congruence.
  - intros b i j Hb Hi Hj. cbn in *.
    rewrite (@Csum_ext _
      (fun c => Cmul (at3 x b i j)
                     (Cmul (at4 S b i j c) (Cconj (at4 S b i j c))))).
    + rewrite Csum_mul_l. rewrite Q3, U3, P3.
      rewrite HS by congruence. apply Cmul_1_r.
    + intros c Hc. rewrite Vq by congruence.
      rewrite (proj2 Tu) by congruence. rewrite Vp by congruence.
      cbn [conj4 at4].
      generalize (at4 S b i j c) (at3 x b i j). intros s v. csolve.
Qed.

(** [decode(encode(x, S, None), S)] at the first point of the line [1, 0, 0],
    for the unit sensitivity map *)
Lemma decode_encode_delta3 (y : tensor4) (z : tensor3) :
  encode image3 unit3 None = Ok y -> decode y unit3 = Ok z ->
  at3 z 0 0 0 = C0.
Proof.
  intros Hy Hz. unfold encode in Hy.
  destruct (@bmul4_coil unit3 image3 eq_refl) as (p & Ep & Hp & Vp).
  rewrite Ep in Hy. cbn [rbind] in Hy.
  assert (Tp : teq4 p delta3).
  { split; [exact Hp |].
    pose proof (@shape4_inv p _ _ _ _ Hp) as (P0 & P1 & P2 & P3).
    intros b i j c Hb Hi Hj Hc. rewrite Vp by congruence.
    cbn [unit3 const4 image3 delta3 at4 at3]. apply Cmul_1_l. }
  destruct (@fft2_ext _ _ _ Tp Hy) as (y' & Ey' & Ty).
  unfold decode in Hz.
  destruct (ifft2 y) as [u |] eqn:Eu; [| discriminate]. cbn [rbind] in Hz.
  destruct (@ifft2_ext _ _ _ Ty Eu) as (u' & Eu' & Tu).
  pose proof (@round_trip_delta3 _ _ Ey' Eu') as Z0.
  destruct (bmul4 u (conj4 unit3)) as [q |] eqn:Eq; [| discriminate].
  cbn [rbind] in Hz. injection Hz as <-.
  destruct (@bmul4_inv _ _ _ Eq) as (_ & _ & _ & B3 & Vq).
  assert (Su : shape4 u = (1, 1, 3, 1)%nat).
  { rewrite (proj1 Tu).
    cbv [ifft2 ifftn dft12 rbind] in Eu'.
    cbv [fft2 fftn dft12 rbind delta3 ifftshift roll12 rows4 cols4 Nat.eqb orb]
      in Ey'. injection Ey' as <-.
    cbn [fftshift roll12 rows4 cols4 Nat.eqb orb] in Eu'.
    injection Eu' as <-. reflexivity. }
  pose proof (@shape4_inv u _ _ _ _ Su) as (U0 & U1 & U2 & U3).
  rewrite U3 in B3. cbn in B3. injection B3 as B3.
  cbn [sum_axis3 at3]. rewrite <- B3. cbn [Csum].
  rewrite Vq, U0, U1, U2, U3. cbn [bpos Nat.eqb len4 rows4 cols4 coils4 conj4 unit3 const4 at4].
  rewrite (proj2 Tu) by lia. rewrite Z0.
  unfold Cadd, Cmul, Cconj, C0, C1. cbn [fst snd].
  apply (f_equal2 (@pair R R)); lra.
Qed.

End AdjointFacts.

Import CplxFacts RootFacts InversionFacts CentredFacts OddFacts AdjointFacts.

(** C3.  On the line of three points [1, 0, 0] (a tensor of shape
    [1, 1, 3, 1]) the round trip [ifft2(fft2(x))] does not return x: its
    first entry is 0 where x has 1.  On an axis of odd length the shifts of
    [ifft2] do not undo those of [fft2]; on axes of even length they do
    ([ifft2_fft2_centred]). *)
Theorem ifft2_fft2_odd_axis :
  exists y z,
    fft2 delta3 = Ok y /\ ifft2 y = Ok z
    /\ at4 z 0 0 0 0 = C0 /\ at4 delta3 0 0 0 0 = C1.
Proof.
  destruct (@fft2_ok delta3) as (y & Ey & Hy); [cbn; lia .. |].
  pose proof (@shape4_inv y _ _ _ _ Hy) as (_ & Y1 & Y2 & _).
  destruct (@ifft2_ok y) as (z & Ez & _);
    [rewrite Y1; cbn; lia | rewrite Y2; cbn; lia |].
  exists y, z. split; [exact Ey |]. split; [exact Ez |].
  split; [exact (@round_trip_delta3 y z Ey Ez) | reflexivity].
Qed.

(** Encoding without mask succeeds on an image of the shape of the map. *)
Lemma encode_none_ok (x : tensor3) (S : tensor4) :
  shape3 x = (len4 S, rows4 S, cols4 S) ->
  (0 < rows4 S)%nat -> (0 < cols4 S)%nat ->
  exists y, encode x S None = Ok y /\ shape4 y = shape4 S.
Proof.
  intros Hx Hr Hc.
  destruct (@bmul4_coil S x Hx) as (p & Ep & Hp & _).
  pose proof (@shape4_inv p _ _ _ _ Hp) as (P0 & P1 & P2 & P3).
  destruct (@fft2_ok p) as (y & Ey & Hy); [lia | lia |].
  exists y. unfold encode. rewrite Ep. cbn [rbind].
  split; [exact Ey | congruence].
Qed.

(** C4.  With the unit sensitivity map of one coil, which is orthonormal at
    every pixel, and the image [1, 0, 0] of three columns,
    [decode(encode(x, S, None), S)] does not return x: its first entry is 0
    where x has 1.  With axes of even length it does return x
    ([decode_encode_centred]). *)
Theorem decode_encode_odd_axis :
  orthonormal unit3
  /\ exists y z,
       encode image3 unit3 None = Ok y /\ decode y unit3 = Ok z
       /\ at3 z 0 0 0 = C0 /\ at3 image3 0 0 0 = C1.
Proof.
  split; [exact unit3_orthonormal |].
  destruct (@encode_none_ok image3 unit3) as (y & Ey & Hy);
    [reflexivity | cbn; lia | cbn; lia |].
  pose proof (@shape4_inv y _ _ _ _ Hy) as (_ & Y1 & Y2 & _).
  destruct (@decode_ok y unit3) as (z & Ez & _);
    [rewrite Y1; cbn; lia | rewrite Y2; cbn; lia | now rewrite Hy |].
  exists y, z. split; [exact Ey |]. split; [exact Ez |].
  split; [exact (@decode_encode_delta3 y z Ey Ez) | reflexivity].
Qed.

(* ================================================================== *)
(** * Further properties *)

(** ** The dataset object over its whole life *)

Module ReachFacts.

Import Py PyFacts Dataset MaskFacts Kernel Fourier TensorFacts InitFacts
  GetitemFacts Totality MaskClaims.

(** The number of slices read from a file of [n] slices *)
Lemma slice0_len (t : tensor4) (k : Z) :
  (0 <= k)%Z -> len4 (slice0 t 0 (0 + k * 1)) = Nat.min (Z.to_nat k) (len4 t).
Proof.
  intros Hk. unfold slice0, lower, upper, range_, adjust.
  cbn [sl_start sl_stop len4].
  change (0 <? 0)%Z with false. cbv iota.
  replace (0 + k * 1)%Z with k by lia.
  destruct (k <? 0)%Z eqn:E; [apply Z.ltb_lt in E; lia |].
  lia.
Qed.

Lemma init_attr_shapes (kfile sfile : tensor4)
    (junk0 junk1 : nat -> nat -> nat -> C) (R_ num_slice nACS : Z)
    (ds : KneeDataset) :
  init kfile sfile junk0 junk1 R_ num_slice nACS = Ok ds ->
  shape4 (kspace ds) = (n_slices ds, rows4 kfile, cols4 kfile, coils4 kfile)
  /\ shape3 (x0 ds) = (n_slices ds, rows4 kfile, cols4 kfile)
  /\ shape3 (xref ds) = (n_slices ds, rows4 kfile, cols4 kfile)
  /\ rows (mask ds) = rows4 kfile /\ cols (mask ds) = cols4 kfile.
Proof.
  intros H.
  pose proof (init_shapes _ _ _ _ _ _ _ H) as (_ & Hsh & Mr & Mc).
  pose proof (init_inv _ _ _ _ _ _ _ H) as (_ & Hl & _ & _ & Hn & _).
  apply init_loop_shape in Hl as (_ & Hx & Hy).
  pose proof (@shape4_inv _ _ _ _ _ Hsh) as (K0 & K1 & K2 & K3).
  cbn [rows4 cols4 coils4 slice0] in K1, K2, K3.
  apply shape3_inv in Hx as (X0 & X1 & X2).
  apply shape3_inv in Hy as (Y0 & Y1 & Y2).
  cbn [len3 rows3 cols3 rows4 cols4 slice0] in X0, X1, X2, Y0, Y1, Y2.
  rewrite Hn. unfold shape4, shape3.
  repeat split; try congruence.
Qed.

(** In every state of the object the stored arrays have [n_slices] rows. *)
Lemma reachable_lengths (s : KneeDataset) :
  reachable s ->
  len4 (kspace s) = n_slices s /\ len3 (x0 s) = n_slices s
  /\ len3 (xref s) = n_slices s.
Proof.
  induction 1 as [kfile sfile j0 j1 R_ ns nACS ds H | s draw index _ IH].
  - destruct (init_attr_shapes _ _ _ _ _ _ _ H) as (Hk & Hx & Hy & _).
    apply shape4_inv in Hk as (K0 & _).
    apply shape3_inv in Hx as (X0 & _). apply shape3_inv in Hy as (Y0 & _).
    auto.
  - destruct (preserves_getitem draw index s)
      as (_ & Ek & En & _ & _ & Ex & Er & _).
    rewrite Ek, En, Ex, Er. exact IH.
Qed.

(** The fixed mask of every state is the pattern of retained columns. *)
Lemma reachable_mask_entries (s : KneeDataset) :
  reachable s ->
  forall i j, (i < rows (mask s))%nat ->
    at2 (mask s) i j =
    if retained (accel s) (cols (mask s)) (cols (mask s)) (num_ACS s) j
    then C1 else C0.
Proof.
  induction 1 as [kfile sfile j0 j1 R_ ns nACS ds H | s draw index _ IH].
  - destruct (init_mask_entries _ _ _ _ _ _ _ H) as (_ & _ & Hv).
    apply init_inv in H as (_ & _ & -> & -> & _). exact Hv.
  - destruct (preserves_getitem draw index s)
      as (En & _ & _ & _ & Em & _ & _ & Ea).
    rewrite Em, Ea, En. exact IH.
Qed.

Lemma index_out_of_range (n : nat) (i : Z) :
  (i < - Z.of_nat n \/ Z.of_nat n <= i)%Z -> Py.index n i = Raise IndexError.
Proof.
  intros H. unfold Py.index.
  destruct (i <? 0)%Z eqn:E; [apply Z.ltb_lt in E | apply Z.ltb_ge in E].
  - replace (0 <=? i + Z.of_nat n)%Z with false
      by (symmetry; apply Z.leb_gt; lia).
    reflexivity.
  - replace (i <? Z.of_nat n)%Z with false by (symmetry; apply Z.ltb_ge; lia).
    now rewrite andb_false_r.
Qed.

Lemma index_negative (n : nat) (i : Z) :
  (- Z.of_nat n <= i < 0)%Z -> Py.index n i = Py.index n (i + Z.of_nat n).
Proof.
  intros H. unfold Py.index.
  replace (i <? 0)%Z with true by (symmetry; apply Z.ltb_lt; lia).
  replace (i + Z.of_nat n <? 0)%Z with false by (symmetry; apply Z.ltb_ge; lia).
  reflexivity.
Qed.

(** The steps of an item access up to the reads at [index] *)
Lemma getitem_mask_steps (draw : nat -> nat -> R) (s : KneeDataset) :
  rows (mask s) = rows4 (kspace s) -> cols (mask s) = cols4 (kspace s) ->
  (0 < rows4 (kspace s))%nat -> (0 < cols4 (kspace s))%nat ->
  (0 < accel s)%Z ->
  exists g m5,
    gauss_gen (rows4 (kspace s)) (cols4 (kspace s)) (1 / 2) = Ok g
    /\ rows g = rows4 (kspace s) /\ cols g = cols4 (kspace s)
    /\ rows m5 = rows4 (kspace s) /\ cols m5 = cols4 (kspace s)
    /\ (forall i j, (i < rows4 (kspace s))%nat -> (j < cols4 (kspace s))%nat ->
          at2 m5 i j =
          if retained (accel s) (cols4 (kspace s)) (cols4 (kspace s))
               (num_ACS s) j
          then true
          else if selects (range_ 158 162) (rows4 (kspace s)) i
                  && selects (range_ 182 186) (cols4 (kspace s)) j
               then false
               else if Rlt_dec (6 / 10) (draw i j * at2 g i j)
                    then true else false)
    /\ forall index,
         getitem draw index s =
         (mkKneeDataset (num_ACS s) (kspace s) (n_slices s) (sens_map s)
            (mask s) (x0 s) (xref s) (accel s) (Some g)
            (Some (T2 (rows4 (kspace s)) (cols4 (kspace s)) draw)) (Some m5),
          (a <- row3 (x0 s) index ;;
           b <- row3 (xref s) index ;;
           c <- row4 (kspace s) index ;;
           d <- row4 (sens_map s) index ;;
           Ok (mkItem a b c d m5 index))%result).
Proof.
  intros Hr Hc Hx Hy HR.
  destruct (@gauss_gen_ok (rows4 (kspace s)) (cols4 (kspace s)) (1 / 2))
    as (g & Eg & Gr & Gc); [lia | lia |].
  destruct (retain_lines_ok true (cols4 (kspace s)) (num_ACS s)
              (T2 (rows4 (kspace s)) (cols4 (kspace s))
                 (fun i j =>
                    if selects (range_ 158 162) (rows4 (kspace s)) i
                       && selects (range_ 182 186) (cols4 (kspace s)) j
                    then false
                    else
                      if Rlt_dec (6 / 10)
                           (draw (bpos (rows4 (kspace s)) i)
                                 (bpos (cols4 (kspace s)) j)
                            * at2 g (bpos (rows4 (kspace s)) i)
                                    (bpos (cols4 (kspace s)) j))
                      then true else false)) HR)
    as (m5 & E5 & R5 & C5 & V5).
  cbn [rows cols at2] in E5, R5, C5, V5.
  exists g, m5. split; [exact Eg |]. split; [exact Gr |]. split; [exact Gc |].
  split; [exact R5 |]. split; [exact C5 |]. split.
  - intros i j Hi Hj. rewrite V5 by exact Hi.
    rewrite !bpos_inside by assumption. reflexivity.
  - intros index.
    unfold getitem, bind, lift, attr, ret, set_gauss_kernel, set_random,
      set_rand_mask. cbn [fst snd kspace mask accel num_ACS x0 xref sens_map
                          n_slices gauss_kernel random rand_mask].
    rewrite Hr, Hc, Eg.
    unfold bzip2. cbn [rows cols at2]. rewrite Gr, Gc, !bdim_same.
    cbn [rbind].
    unfold setitem2 at 1.
    cbn [step_of range_ sl_step Z.leb Z.compare orb rows cols at2].
    rewrite E5.
    destruct (row3 (x0 s) index) as [a |]; [| reflexivity].
    destruct (row3 (xref s) index) as [b |]; [| reflexivity].
    destruct (row4 (kspace s) index) as [c |]; [| reflexivity].
    destruct (row4 (sens_map s) index) as [d |]; reflexivity.
Qed.

End ReachFacts.

Import ReachFacts.

(** ** The Gaussian kernel *)

Module GaussFacts.

Import Kernel TensorFacts MaxFacts.
Local Open Scope R_scope.

Lemma fold_Rmax_in (l : list R) (x : R) :
  fold_left Rmax l x = x \/ In (fold_left Rmax l x) l.
Proof.
  revert x. induction l as [| y l IH]; intros x; cbn [fold_left].
  - left. reflexivity.
  - destruct (IH (Rmax x y)) as [E | E].
    + rewrite E. unfold Rmax. destruct (Rle_dec x y); [right; left |]; auto.
    + right. right. exact E.
Qed.

(** The maximum of a list is one of its members. *)
Lemma max_list_in (l : list R) (m : R) : max_list l = Ok m -> In m l.
Proof.
  destruct l as [| x l]; [discriminate |]. cbn [max_list].
  intros H. injection H as <-.
  destruct (fold_Rmax_in l x) as [E | E]; [left; now rewrite E | right; exact E].
Qed.

Lemma in_entries2 {A : Type} (t : tensor2 A) (i j : nat) :
  (i < rows t)%nat -> (j < cols t)%nat -> In (at2 t i j) (entries2 t).
Proof.
  intros Hi Hj. unfold entries2.
  apply in_flat_map. exists i. split; [apply in_seq; lia |].
  apply in_map_iff. exists j. split; [reflexivity | apply in_seq; lia].
Qed.

Lemma entries2_inv {A : Type} (t : tensor2 A) (v : A) :
  In v (entries2 t) ->
  exists i j, (i < rows t)%nat /\ (j < cols t)%nat /\ v = at2 t i j.
Proof.
  unfold entries2. intros H.
  apply in_flat_map in H as (i & Hi & H). apply in_seq in Hi.
  apply in_map_iff in H as (j & <- & Hj). apply in_seq in Hj.
  exists i, j. repeat split; lia.
Qed.

(** The grid of [linspace(-1, 1, n)] is symmetric about zero. *)
Lemma linspace_mirror (n i : nat) :
  (i < n)%nat ->
  linspace n (n - 1 - i) * linspace n (n - 1 - i) = linspace n i * linspace n i.
Proof.
  intros Hi. destruct n as [| [| m]]; [lia | |].
  - reflexivity.
  - unfold linspace.
    replace (S (S m) - 1)%nat with (S m) by lia.
    rewrite minus_INR by lia.
    assert (HM : INR (S m) <> 0) by (apply not_0_INR; lia).
    field. exact HM.
Qed.

(** The point of the grid at a position, as a quotient of integers *)
Lemma linspace_quotient (m i : nat) :
  linspace (S (S m)) i
  = IZR (2 * Z.of_nat i - Z.of_nat (S m)) / INR (S m).
Proof.
  unfold linspace. replace (S (S m) - 1)%nat with (S m) by lia.
  rewrite minus_IZR, mult_IZR, <- !INR_IZR_INZ.
  assert (HM : INR (S m) <> 0) by (apply not_0_INR; lia).
  field. exact HM.
Qed.

(** No point of the grid is nearer to zero than the one in the middle. *)
Lemma linspace_middle (n i : nat) :
  (i < n)%nat ->
  linspace n ((n - 1) / 2) * linspace n ((n - 1) / 2)
  <= linspace n i * linspace n i.
Proof.
  intros Hi. destruct n as [| [| m]]; [lia | |].
  - unfold linspace. lra.
  - replace (S (S m) - 1)%nat with (S m) by lia.
    rewrite !linspace_quotient.
    assert (HM : 0 < INR (S m)) by (apply lt_0_INR; lia).
    remember (S m) as M eqn:EM.
    remember (M / 2)%nat as c eqn:Ec.
    assert (Hc : (M = 2 * c + M mod 2)%nat)
      by (rewrite Ec; apply Nat.div_mod_eq).
    assert (Hr : (M mod 2 < 2)%nat) by (apply Nat.mod_upper_bound; lia).
    remember (M mod 2)%nat as r eqn:Er.
    remember (2 * Z.of_nat c - Z.of_nat M)%Z as a eqn:Ea.
    remember (2 * Z.of_nat i - Z.of_nat M)%Z as b eqn:Eb.
    assert (Hab : (a * a <= b * b)%Z).
    { destruct r as [| [| r]]; [| | lia].
      - assert (a = 0)%Z by lia. subst a. nia.
      - assert (a = -1)%Z by lia.
        assert (b <= -1 \/ 1 <= b)%Z by lia. nia. }
    apply IZR_le in Hab. rewrite !mult_IZR in Hab.
    unfold Rdiv.
    replace (IZR a * / INR M * (IZR a * / INR M))
      with ((IZR a * IZR a) * (/ INR M * / INR M)) by ring.
    replace (IZR b * / INR M * (IZR b * / INR M))
      with ((IZR b * IZR b) * (/ INR M * / INR M)) by ring.
    apply Rmult_le_compat_r; [| exact Hab].
    apply Rlt_le. apply Rmult_lt_0_compat; now apply Rinv_0_lt_compat.
Qed.

Section Kernel.

Variables (Nx Ny : nat) (sigma : R).
Hypotheses (HNx : (0 < Nx)%nat) (HNy : (0 < Ny)%nat).

Let z : tensor2 R :=
  T2 Nx Ny (fun i j =>
    exp (- ((linspace Nx i * linspace Nx i
             + linspace Ny j * linspace Ny j) / (2 * sigma)))).

Lemma gauss_gen_inv (g : tensor2 R) :
  gauss_gen Nx Ny sigma = Ok g ->
  exists m,
    max_list (entries2 z) = Ok m /\ 0 < m
    /\ rows g = Nx /\ cols g = Ny
    /\ forall i j, at2 g i j = at2 z i j / m.
Proof.
  unfold gauss_gen. fold z. intros H.
  destruct (max_list (entries2 z)) as [m |] eqn:E; [| discriminate].
  cbn [rbind] in H. injection H as <-.
  exists m. split; [reflexivity |]. split.
  - apply max_list_in in E. apply entries2_inv in E as (i & j & _ & _ & ->).
    cbn [z at2]. apply exp_pos.
  - repeat split.
Qed.

(** Every entry of the kernel lies in (0, 1], and one entry is 1. *)
Lemma gauss_gen_bounds (g : tensor2 R) :
  gauss_gen Nx Ny sigma = Ok g ->
  (forall i j, (i < Nx)%nat -> (j < Ny)%nat -> 0 < at2 g i j <= 1)
  /\ exists i j, (i < Nx)%nat /\ (j < Ny)%nat /\ at2 g i j = 1.
Proof.
  intros H. apply gauss_gen_inv in H as (m & E & Hm & _ & _ & Hv).
  split.
  - intros i j Hi Hj. rewrite Hv.
    assert (Hz : 0 < at2 z i j) by (cbn [z at2]; apply exp_pos).
    assert (Hle : at2 z i j <= m).
    { eapply max_list_ge; [exact E |]. now apply in_entries2. }
    split.
    + now apply Rdiv_lt_0_compat.
    + apply Rmult_le_reg_r with (r := m); [exact Hm |].
      unfold Rdiv. rewrite Rmult_assoc, Rinv_l by lra. lra.
  - pose proof (max_list_in _ E) as Hin.
    apply entries2_inv in Hin as (i & j & Hi & Hj & Em).
    exists i, j. cbn [z rows cols] in Hi, Hj.
    split; [exact Hi |]. split; [exact Hj |].
    rewrite Hv, <- Em. field. lra.
Qed.

(** The kernel is symmetric under the reflection of either axis. *)
Lemma gauss_gen_mirror (g : tensor2 R) (i j : nat) :
  gauss_gen Nx Ny sigma = Ok g -> (i < Nx)%nat -> (j < Ny)%nat ->
  at2 g (Nx - 1 - i) j = at2 g i j /\ at2 g i (Ny - 1 - j) = at2 g i j.
Proof.
  intros H Hi Hj. apply gauss_gen_inv in H as (m & _ & _ & _ & _ & Hv).
  rewrite !Hv. cbn [z at2].
  rewrite (linspace_mirror Hi), (linspace_mirror Hj). split; reflexivity.
Qed.

(** For a positive [sigma] the kernel is 1 in the middle of the grid. *)
Lemma gauss_gen_middle (g : tensor2 R) :
  0 < sigma -> gauss_gen Nx Ny sigma = Ok g ->
  at2 g ((Nx - 1) / 2) ((Ny - 1) / 2) = 1.
Proof.
  intros Hs H. apply gauss_gen_inv in H as (m & E & Hm & _ & _ & Hv).
  assert (Hcx : ((Nx - 1) / 2 < Nx)%nat).
  { apply Nat.le_lt_trans with (m := (Nx - 1)%nat); [| lia].
    apply Nat.Div0.div_le_upper_bound. lia. }
  assert (Hcy : ((Ny - 1) / 2 < Ny)%nat).
  { apply Nat.le_lt_trans with (m := (Ny - 1)%nat); [| lia].
    apply Nat.Div0.div_le_upper_bound. lia. }
  assert (Em : m = at2 z ((Nx - 1) / 2) ((Ny - 1) / 2)).
  { apply Rle_antisym.
    - pose proof (max_list_in _ E) as Hin.
      apply entries2_inv in Hin as (i & j & Hi & Hj & ->).
      cbn [z rows cols] in Hi, Hj. cbn [z at2].
      pose proof (linspace_middle Hi) as Lx.
      pose proof (linspace_middle Hj) as Ly.
      destruct (Rle_lt_or_eq_dec _ _
                  (Rplus_le_compat _ _ _ _ Lx Ly)) as [L | L].
      + left. apply exp_increasing. apply Ropp_lt_contravar.
        unfold Rdiv. apply Rmult_lt_compat_r; [| exact L].
        apply Rinv_0_lt_compat. lra.
      + right. now rewrite L.
    - eapply max_list_ge; [exact E |]. apply in_entries2; assumption. }
  rewrite Hv, <- Em. field. lra.
Qed.

End Kernel.

End GaussFacts.

Import GaussFacts.

(** ** The fixed mask in closed form, and what the loop leaves behind *)

Module InitMore.

Import Py PyFacts Dataset MaskFacts Kernel Fourier TensorFacts InitFacts
  GetitemFacts Totality MaskClaims ExtFacts LoopFacts CplxFacts ReachFacts.

(** The retained columns, by comparisons of integers *)
Lemma retained_arith (R_ A : Z) (n j : nat) :
  (0 < R_)%Z -> (- Z.of_nat n <= A <= Z.of_nat n)%Z -> (j < n)%nat ->
  retained R_ n n A j
  = ((Z.of_nat j mod R_ =? 0) || (Z.of_nat j <? 18)
     || (Z.of_nat n - 18 <=? Z.of_nat j)
     || (((Z.of_nat n - A) / 2 <=? Z.of_nat j)
         && (Z.of_nat j <? (Z.of_nat n + A) / 2)))%Z.
Proof.
  intros HR HA Hj. unfold retained.
  rewrite selects_every by exact HR. rewrite !selects_range.
  replace (j <? n)%nat with true by (symmetry; apply Nat.ltb_lt; lia).
  cbn [andb].
  assert (L : (0 <= (Z.of_nat n - A) / 2)%Z) by (apply Z.div_pos; lia).
  assert (U : ((Z.of_nat n + A) / 2 <= Z.of_nat n)%Z)
    by (apply Z.div_le_upper_bound; lia).
  assert (U0 : (0 <= (Z.of_nat n + A) / 2)%Z) by (apply Z.div_pos; lia).
  f_equal; [f_equal; [f_equal |] |].
  - unfold adjust. change (0 <? 0)%Z with false. change (18 <? 0)%Z with false.
    cbv iota.
    replace (Z.min 0 (Z.of_nat n) <=? Z.of_nat j)%Z with true
      by (symmetry; apply Z.leb_le; lia).
    cbn [andb].
    destruct (Z.ltb_spec (Z.of_nat j) 18);
      [apply Z.ltb_lt | apply Z.ltb_ge]; lia.
  - unfold adjust. change (-18 <? 0)%Z with true. cbv iota.
    replace (Z.of_nat n <? 0)%Z with false by (symmetry; apply Z.ltb_ge; lia).
    replace (Z.of_nat j <? Z.min (Z.of_nat n) (Z.of_nat n))%Z with true
      by (symmetry; apply Z.ltb_lt; lia).
    rewrite andb_true_r.
    destruct (Z.leb_spec (Z.of_nat n - 18) (Z.of_nat j));
      [apply Z.leb_le | apply Z.leb_gt]; lia.
  - unfold adjust.
    replace ((Z.of_nat n - A) / 2 <? 0)%Z with false
      by (symmetry; apply Z.ltb_ge; lia).
    replace ((Z.of_nat n + A) / 2 <? 0)%Z with false
      by (symmetry; apply Z.ltb_ge; lia).
    f_equal.
    + destruct (Z.leb_spec ((Z.of_nat n - A) / 2) (Z.of_nat j));
        [apply Z.leb_le | apply Z.leb_gt]; lia.
    + destruct (Z.ltb_spec (Z.of_nat j) ((Z.of_nat n + A) / 2));
        [apply Z.ltb_lt | apply Z.ltb_ge]; lia.
Qed.

(** With stride one every column is retained. *)
Lemma retained_unit_stride (A : Z) (n Ny j : nat) :
  (j < n)%nat -> retained 1 n Ny A j = true.
Proof.
  intros Hj. unfold retained. rewrite selects_every by lia.
  replace (j <? n)%nat with true by (symmetry; apply Nat.ltb_lt; lia).
  now rewrite Z.mod_1_r.
Qed.

(** The state of the loop after it has run over all slices *)
Lemma init_loop_done (kfile sfile : tensor4)
    (junk0 junk1 : nat -> nat -> nat -> C) (R_ num_slice nACS : Z)
    (ds : KneeDataset) :
  init kfile sfile junk0 junk1 R_ num_slice nACS = Ok ds ->
  loop_inv (mask ds) (slice0 sfile 0 (0 + num_slice * 1))
    (slice0 kfile 0 (0 + num_slice * 1))
    (len4 (slice0 kfile 0 (0 + num_slice * 1)))
    (kspace ds, x0 ds, xref ds).
Proof.
  intros H.
  pose proof (init_shapes _ _ _ _ _ _ _ H) as (_ & Hsh & Mr & Mc).
  pose proof (init_inv _ _ _ _ _ _ _ H) as (_ & Hl & _).
  set (ks0 := slice0 kfile 0 (0 + num_slice * 1)) in *.
  pose proof (@shape4_inv _ _ _ _ _ Hsh) as (K0 & K1 & K2 & K3).
  change (len4 ks0) with (0 + len4 ks0)%nat.
  eapply init_loop_inv; [congruence | congruence | lia | | exact Hl].
  unfold loop_inv. cbn [fst snd]. repeat split. intros j Hj. lia.
Qed.

(** Two runs of one pass of the loop that differ only in the rows of [x0]
    and [xref] not yet written *)
Lemma init_step_rows (msk : tensor2 C) (sens ks ks' : tensor4)
    (a b a' b' a2 b2 : tensor3) (i : nat) :
  init_step msk sens (ks, a, b) i = Ok (ks', a', b') ->
  shape3 a2 = shape3 a -> shape3 b2 = shape3 b ->
  exists a2' b2',
    init_step msk sens (ks, a2, b2) i = Ok (ks', a2', b2')
    /\ shape3 a2' = shape3 a' /\ shape3 b2' = shape3 b'
    /\ forall s r c,
         (s = i \/ (at3 a2 s r c = at3 a s r c /\ at3 b2 s r c = at3 b s r c)) ->
         at3 a2' s r c = at3 a' s r c /\ at3 b2' s r c = at3 b' s r c.
Proof.
  intros H Ha Hb.
  apply init_step_inv in H
    as (nv & masked & da & db & E1 & -> & E2 & E3 & E4 & E5 & E6).
  pose proof (@shape3_inv a2 _ _ _ Ha) as (A0 & A1 & A2).
  pose proof (@shape3_inv b2 _ _ _ Hb) as (B0 & B1 & B2).
  apply setrow3_inv in E4 as (La & Ra & Ca & Sa & Va).
  apply setrow3_inv in E6 as (Lb & Rb & Cb & Sb & Vb).
  unfold init_step. rewrite E1. cbn [rbind]. rewrite E2. cbn [rbind].
  rewrite E3. cbn [rbind].
  unfold setrow3 at 1. rewrite La, A1, A2, Ra, Ca, Nat.eqb_refl. cbn [andb rbind].
  rewrite E5. cbn [rbind].
  unfold setrow3 at 1. rewrite Lb, B1, B2, Rb, Cb, Nat.eqb_refl. cbn [andb rbind].
  eexists. eexists. split; [reflexivity |].
  split; [unfold shape3 in *; cbn; congruence |].
  split; [unfold shape3 in *; cbn; congruence |].
  intros s r c Hs. cbn [at3]. rewrite Va, Vb.
  destruct (Nat.eqb_spec s i) as [-> | Hne]; [split; reflexivity |].
  destruct Hs as [Hs | Hs]; [contradiction | exact Hs].
Qed.

Lemma init_loop_rows (msk : tensor2 C) (sens : tensor4) (is_ : list nat) :
  forall ks ks' a b a' b' a2 b2,
    init_loop msk sens is_ (ks, a, b) = Ok (ks', a', b') ->
    shape3 a2 = shape3 a -> shape3 b2 = shape3 b ->
    exists a2' b2',
      init_loop msk sens is_ (ks, a2, b2) = Ok (ks', a2', b2')
      /\ shape3 a2' = shape3 a' /\ shape3 b2' = shape3 b'
      /\ forall s r c,
           (In s is_
            \/ (at3 a2 s r c = at3 a s r c /\ at3 b2 s r c = at3 b s r c)) ->
           at3 a2' s r c = at3 a' s r c /\ at3 b2' s r c = at3 b' s r c.
Proof.
  induction is_ as [| i rest IH]; intros ks ks' a b a' b' a2 b2 H Ha Hb;
    cbn [init_loop] in *.
  - injection H as <- <- <-. exists a2, b2.
    split; [reflexivity |]. split; [exact Ha |]. split; [exact Hb |].
    intros s r c [[] | Hs]. exact Hs.
  - destruct (init_step msk sens (ks, a, b) i) as [[[ks1 a1] b1] |] eqn:E;
      [| discriminate].
    destruct (@init_step_rows _ _ _ _ _ _ _ _ a2 b2 _ E Ha Hb)
      as (a3 & b3 & E' & Ha3 & Hb3 & V).
    rewrite E'.
    destruct (IH _ _ _ _ _ _ a3 b3 H Ha3 Hb3) as (a4 & b4 & E4 & Ha4 & Hb4 & V4).
    exists a4, b4. split; [exact E4 |]. split; [exact Ha4 |].
    split; [exact Hb4 |].
    intros s r c Hs. apply V4.
    destruct (in_dec Nat.eq_dec s rest) as [Hin | Hnin]; [left; exact Hin |].
    right. apply V. destruct Hs as [[<- | Hs] | Hs];
      [left; reflexivity | contradiction | right; exact Hs].
Qed.

End InitMore.

Import InitMore.

(** ** Item access: the mask in closed form, and the index *)

Module AccessFacts.

Import Py PyFacts Dataset MaskFacts Kernel TensorFacts InitFacts GetitemFacts
  Totality Samples MaskClaims ReachFacts GaussFacts.


(** Every entry of the returned mask, with the thresholded field spelled
    out; [g] is the kernel that the access has stored. *)
Lemma rand_mask_formula (s s' : KneeDataset) (draw : nat -> nat -> R)
    (index : Z) (it : item) :
  reachable s -> getitem draw index s = (s', Ok it) ->
  exists g,
    gauss_gen (rows4 (kspace s)) (cols4 (kspace s)) (1 / 2) = Ok g
    /\ gauss_kernel s' = Some g
    /\ rows (item_mask it) = rows4 (kspace s)
    /\ cols (item_mask it) = cols4 (kspace s)
    /\ forall i j, (i < rows4 (kspace s))%nat -> (j < cols4 (kspace s))%nat ->
         at2 (item_mask it) i j =
         if retained (accel s) (cols4 (kspace s)) (cols4 (kspace s))
              (num_ACS s) j
         then true
         else if selects (range_ 158 162) (rows4 (kspace s)) i
                 && selects (range_ 182 186) (cols4 (kspace s)) j
              then false
              else if Rlt_dec (6 / 10) (draw i j * at2 g i j)
                   then true else false.
Proof.
  intros Hs H.
  pose proof (@reachable_shapes _ Hs) as (HR & Mr & Mc).
  pose proof (@getitem_inv _ _ _ _ _ H)
    as (g & m0 & m1 & Eg & _ & _ & _ & _ & _ & _ & _ & _ & Sg & _).
  rewrite Mr, Mc in Eg.
  destruct (@rand_mask_entries _ _ _ _ _ Hs H) as (Hr & Hc & _).
  exists g. split; [exact Eg |]. split; [exact Sg |].
  split; [exact Hr |]. split; [exact Hc |].
  intros i j Hi Hj.
  destruct (@getitem_mask_steps draw s Mr Mc) as (g' & m5 & Eg' & _ & _ & _ & _ & V & G);
    [lia | lia | exact HR |].
  rewrite Eg in Eg'. injection Eg' as <-.
  rewrite (G index) in H. injection H as _ H.
  destruct (row3 (x0 s) index) as [a |]; [| discriminate]. cbn [rbind] in H.
  destruct (row3 (xref s) index) as [b |]; [| discriminate]. cbn [rbind] in H.
  destruct (row4 (kspace s) index) as [c |]; [| discriminate]. cbn [rbind] in H.
  destruct (row4 (sens_map s) index) as [d |]; [| discriminate].
  cbn [rbind] in H. injection H as <-. cbn [item_mask].
  now apply V.
Qed.

Lemma row3_negative (t : tensor3) (i : Z) :
  (- Z.of_nat (len3 t) <= i < 0)%Z -> row3 t i = row3 t (i + Z.of_nat (len3 t)).
Proof. intros H. unfold row3. now rewrite index_negative. Qed.

Lemma row4_negative (t : tensor4) (i : Z) :
  (- Z.of_nat (len4 t) <= i < 0)%Z -> row4 t i = row4 t (i + Z.of_nat (len4 t)).
Proof. intros H. unfold row4. now rewrite index_negative. Qed.

Lemma index_in_range (n : nat) (i : Z) :
  (- Z.of_nat n <= i < Z.of_nat n)%Z -> exists k, Py.index n i = Ok k.
Proof.
  intros H. unfold Py.index.
  destruct (i <? 0)%Z eqn:E; [apply Z.ltb_lt in E | apply Z.ltb_ge in E].
  - replace (0 <=? i + Z.of_nat n)%Z with true
      by (symmetry; apply Z.leb_le; lia).
    replace (i + Z.of_nat n <? Z.of_nat n)%Z with true
      by (symmetry; apply Z.ltb_lt; lia).
    eexists. reflexivity.
  - replace (0 <=? i)%Z with true by (symmetry; apply Z.leb_le; lia).
    replace (i <? Z.of_nat n)%Z with true by (symmetry; apply Z.ltb_lt; lia).
    eexists. reflexivity.
Qed.

(** An item access succeeds at every index from [-n] to [n - 1]. *)
Lemma getitem_in_range (s : KneeDataset) (draw : nat -> nat -> R) (index : Z) :
  reachable s -> (0 < rows4 (kspace s))%nat -> (0 < cols4 (kspace s))%nat ->
  len4 (sens_map s) = len s ->
  (- Z.of_nat (len s) <= index < Z.of_nat (len s))%Z ->
  exists s' it, getitem draw index s = (s', Ok it).
Proof.
  intros Hs Hx Hy Hsm Hi.
  pose proof (@reachable_shapes _ Hs) as (HR & Mr & Mc).
  pose proof (@reachable_lengths _ Hs) as (Lk & Lx & Lr).
  destruct (@getitem_mask_steps draw s Mr Mc Hx Hy HR)
    as (g & m5 & _ & _ & _ & _ & _ & _ & G).
  rewrite (G index). unfold row3, row4, len in *.
  rewrite Lx, Lr, Lk, Hsm.
  destruct (@index_in_range (n_slices s) index Hi) as (k & ->).
  cbn [rbind]. eexists. eexists. reflexivity.
Qed.

(** The dataset built from one slice of ones *)
Lemma knee_dataset (R_ nACS : Z) :
  (0 < R_)%Z ->
  exists ds,
    init knee knee zeros3 zeros3 R_ 1 nACS = Ok ds
    /\ reachable ds
    /\ shape4 (kspace ds) = (1, 320, 368, 1)%nat
    /\ len4 (sens_map ds) = len ds /\ len ds = 1%nat
    /\ rows (mask ds) = 320%nat /\ cols (mask ds) = 368%nat
    /\ accel ds = R_ /\ num_ACS ds = nACS.
Proof.
  intros HR.
  destruct (@init_total knee knee zeros3 zeros3 R_ 1 nACS) as (ds & E);
    [exact HR | cbn; lia .. | reflexivity |].
  exists ds. split; [exact E |].
  split; [exact (@reach_init _ _ _ _ _ _ _ _ E) |].
  destruct (init_attr_shapes _ _ _ _ _ _ _ E) as (Hk & _ & _ & Mr & Mc).
  pose proof (init_inv _ _ _ _ _ _ _ E) as (_ & _ & HA & Ha & Hn & Hsm & _).
  unfold len. rewrite Hsm, Hn in *. cbn in Hk, Mr, Mc |- *.
  repeat split; assumption.
Qed.

End AccessFacts.

Import AccessFacts.

(** ** What the constructor can raise *)

Module RaiseFacts.

Import Py PyFacts Dataset MaskFacts Kernel Fourier TensorFacts InitFacts.

Lemma bdim_raises (n m : nat) (e : exn) :
  bdim n m = Raise e -> e = RuntimeError.
Proof.
  unfold bdim. destruct (n =? m)%nat; [discriminate |].
  destruct (n =? 1)%nat; [discriminate |].
  destruct (m =? 1)%nat; [discriminate |]. congruence.
Qed.

Lemma bmul4_raises (a b : tensor4) (e : exn) :
  bmul4 a b = Raise e -> e = RuntimeError.
Proof.
  unfold bmul4. intros H.
  destruct (bdim (len4 a) (len4 b)) eqn:E0;
    [| apply bdim_raises in E0; cbn in H; congruence].
  destruct (bdim (rows4 a) (rows4 b)) eqn:E1;
    [| apply bdim_raises in E1; cbn in H; congruence].
  destruct (bdim (cols4 a) (cols4 b)) eqn:E2;
    [| apply bdim_raises in E2; cbn in H; congruence].
  destruct (bdim (coils4 a) (coils4 b)) eqn:E3;
    [| apply bdim_raises in E3; cbn in H; congruence].
  discriminate.
Qed.

Lemma dft12_raises (sgn : R) (x : tensor4) (e : exn) :
  dft12 sgn x = Raise e -> e = RuntimeError.
Proof. unfold dft12. destruct (_ || _)%bool; congruence. Qed.

Lemma decode_raises (x S : tensor4) (e : exn) :
  decode x S = Raise e -> e = RuntimeError.
Proof.
  unfold decode, ifft2, ifftn. intros H.
  destruct (dft12 1 (fftshift x)) eqn:E0;
    [| apply dft12_raises in E0; cbn in H; congruence].
  cbn [rbind] in H.
  destruct (bmul4 _ (conj4 S)) eqn:E1;
    [| apply bmul4_raises in E1; cbn in H; congruence].
  discriminate.
Qed.

Lemma max_abs4_raises (t : tensor4) (e : exn) :
  max_abs4 t = Raise e -> e = RuntimeError.
Proof.
  unfold max_abs4, max_list. destruct (map Cmod (entries4 t)); congruence.
Qed.

Lemma setrow3_raises (t v : tensor3) (i : nat) (e : exn) :
  setrow3 t i v = Raise e -> e = RuntimeError.
Proof. unfold setrow3. destruct (_ && _); congruence. Qed.

(** One pass of the loop can fail with [RuntimeError] only. *)
Lemma init_step_raises (msk : tensor2 C) (sens : tensor4)
    (st : tensor4 * tensor3 * tensor3) (i : nat) (e : exn) :
  init_step msk sens st i = Raise e -> e = RuntimeError.
Proof.
  destruct st as [[ks a] b]. unfold init_step. intros H.
  destruct (max_abs4 (slab ks i)) as [nv |] eqn:E1;
    [| apply max_abs4_raises in E1; cbn in H; congruence].
  cbn [rbind] in H.
  destruct (bmul4 _ (unsqueeze03 msk)) as [masked |] eqn:E2;
    [| apply bmul4_raises in E2; cbn in H; congruence].
  cbn [rbind] in H.
  destruct (decode masked _) as [da |] eqn:E3;
    [| apply decode_raises in E3; cbn in H; congruence].
  cbn [rbind] in H.
  destruct (setrow3 a i da) as [a1 |] eqn:E4;
    [| apply setrow3_raises in E4; cbn in H; congruence].
  cbn [rbind] in H.
  destruct (decode (slab _ i) _) as [db |] eqn:E5;
    [| apply decode_raises in E5; cbn in H; congruence].
  cbn [rbind] in H.
  destruct (setrow3 b i db) as [b1 |] eqn:E6;
    [| apply setrow3_raises in E6; cbn in H; congruence].
  discriminate.
Qed.

Lemma init_loop_raises (msk : tensor2 C) (sens : tensor4) (is_ : list nat) :
  forall st e, init_loop msk sens is_ st = Raise e -> e = RuntimeError.
Proof.
  induction is_ as [| i rest IH]; intros st e H; cbn [init_loop] in H.
  - discriminate.
  - destruct (init_step msk sens st i) as [st1 |] eqn:E.
    + now apply IH in H.
    + apply init_step_raises in E. congruence.
Qed.

End RaiseFacts.

Import RaiseFacts.

(** X9.  The errors of the constructor.  For a stride R that is zero or
    negative it raises [ValueError], whatever the files hold: the slice
    [::R] of the mask is refused.  For a positive stride the only error it
    can raise is [RuntimeError] (an empty slice under [max], shapes that do
    not broadcast or do not fit the row of [x0] or [xref], an empty axis
    under the transform), and it raises nothing when the two files have the
    same shape with at least one row, one column and one coil. *)
Theorem init_errors (kfile sfile : tensor4)
    (junk0 junk1 : nat -> nat -> nat -> C) (R_ num_slice nACS : Z) :
  ((R_ <= 0)%Z ->
   init kfile sfile junk0 junk1 R_ num_slice nACS = Raise ValueError)
  /\ ((0 < R_)%Z ->
      forall e, init kfile sfile junk0 junk1 R_ num_slice nACS = Raise e ->
                e = RuntimeError)
  /\ ((0 < R_)%Z ->
      (0 < rows4 kfile)%nat -> (0 < cols4 kfile)%nat ->
      (0 < coils4 kfile)%nat -> shape4 sfile = shape4 kfile ->
      exists ds, init kfile sfile junk0 junk1 R_ num_slice nACS = Ok ds).
Proof.
  split; [| split].
  - intros H. unfold init. now rewrite retain_lines_raises by exact H.
  - intros HR e H. unfold init in H.
    destruct (retain_lines_ok C1
                (cols4 (slice0 kfile 0 (0 + num_slice * 1))) nACS
                (full2 (rows4 (slice0 kfile 0 (0 + num_slice * 1)))
                       (cols4 (slice0 kfile 0 (0 + num_slice * 1))) C0) HR)
      as (msk & E & _).
    rewrite E in H. cbn [rbind] in H.
    destruct (init_loop msk _ _ _) as [[[ks' a'] b'] |] eqn:El.
    + discriminate.
    + apply init_loop_raises in El. cbn [rbind] in H. congruence.
  - intros HR H1 H2 H3 HS. now apply init_total.
Qed.

Lemma init_errors_witness :
  init knee knee zeros3 zeros3 0 1 24 = Raise ValueError
  /\ exists ds, init knee knee zeros3 zeros3 4 1 24 = Ok ds.
Proof.
  destruct (@init_errors knee knee zeros3 zeros3 0 1 24) as (V & _).
  destruct (@init_errors knee knee zeros3 zeros3 4 1 24) as (_ & _ & T).
  split.
  - apply V. lia.
  - apply T; [lia | cbn; lia | cbn; lia | cbn; lia | reflexivity].
Defined.

(** X10.  For a non-negative [num_slice] the dataset holds
    [min(num_slice, slices in the k-space file)] slices: asking for more
    slices than the file has gives fewer, without an error.  [kspace], [x0]
    and [xref] have that many rows, of the size of a slice of the file, and
    the mask has the size of one slice. *)
Theorem init_lengths (kfile sfile : tensor4)
    (junk0 junk1 : nat -> nat -> nat -> C) (R_ num_slice nACS : Z)
    (ds : KneeDataset) :
  init kfile sfile junk0 junk1 R_ num_slice nACS = Ok ds ->
  (0 <= num_slice)%Z ->
  len ds = Nat.min (Z.to_nat num_slice) (len4 kfile)
  /\ shape4 (kspace ds) = (len ds, rows4 kfile, cols4 kfile, coils4 kfile)
  /\ shape3 (x0 ds) = (len ds, rows4 kfile, cols4 kfile)
  /\ shape3 (xref ds) = (len ds, rows4 kfile, cols4 kfile)
  /\ (rows (mask ds), cols (mask ds)) = (rows4 kfile, cols4 kfile).
Proof.
  intros H Hn.
  destruct (init_attr_shapes _ _ _ _ _ _ _ H) as (Hk & Hx & Hy & Mr & Mc).
  pose proof (init_inv _ _ _ _ _ _ _ H) as (_ & _ & _ & _ & En & _).
  unfold len. split; [rewrite En; now apply slice0_len |].
  repeat split; try assumption. congruence.
Qed.

Lemma init_lengths_witness :
  exists ds,
    init knee knee zeros3 zeros3 4 5 24 = Ok ds /\ len ds = 1%nat.
Proof.
  destruct (@init_total knee knee zeros3 zeros3 4 5 24) as (ds & E);
    [reflexivity | cbn; lia .. | reflexivity |].
  exists ds. split; [exact E |].
  exact (proj1 (@init_lengths _ _ _ _ _ _ _ _ E ltac:(lia))).
Defined.

(** X11.  The fixed mask in closed form, for [num_ACS] between -Ny and Ny:
    entry (i, j) is 1 if j is a multiple of R, or j < 18, or j >= Ny - 18,
    or (Ny - num_ACS)//2 <= j < (Ny + num_ACS)//2, and 0 otherwise. *)
Theorem init_mask_pattern (kfile sfile : tensor4)
    (junk0 junk1 : nat -> nat -> nat -> C) (R_ num_slice nACS : Z)
    (ds : KneeDataset) :
  init kfile sfile junk0 junk1 R_ num_slice nACS = Ok ds ->
  (- Z.of_nat (cols4 kfile) <= nACS <= Z.of_nat (cols4 kfile))%Z ->
  forall i j, (i < rows4 kfile)%nat -> (j < cols4 kfile)%nat ->
    get2 (mask ds) i j =
    Some (if ((Z.of_nat j mod R_ =? 0) || (Z.of_nat j <? 18)
              || (Z.of_nat (cols4 kfile) - 18 <=? Z.of_nat j)
              || (((Z.of_nat (cols4 kfile) - nACS) / 2 <=? Z.of_nat j)
                  && (Z.of_nat j <? (Z.of_nat (cols4 kfile) + nACS) / 2)))%Z
          then C1 else C0).
Proof.
  intros H HA i j Hi Hj.
  pose proof (init_shapes _ _ _ _ _ _ _ H) as (HR & _).
  destruct (init_mask_entries _ _ _ _ _ _ _ H) as (Hr & Hc & Hv).
  unfold get2. rewrite Hr, Hc.
  replace (i <? rows4 kfile)%nat with true by (symmetry; apply Nat.ltb_lt; lia).
  replace (j <? cols4 kfile)%nat with true by (symmetry; apply Nat.ltb_lt; lia).
  cbn [andb]. rewrite Hv by lia. rewrite Hc.
  now rewrite retained_arith by assumption.
Qed.

Lemma init_mask_pattern_witness :
  exists ds,
    init knee knee zeros3 zeros3 4 1 24 = Ok ds
    /\ get2 (mask ds) 0 101 = Some C0 /\ get2 (mask ds) 0 195 = Some C1.
Proof.
  destruct (@init_total knee knee zeros3 zeros3 4 1 24) as (ds & E);
    [reflexivity | cbn; lia .. | reflexivity |].
  exists ds. split; [exact E |].
  split.
  - rewrite (@init_mask_pattern _ _ _ _ _ _ _ _ E); cbn [knee const4 cols4 rows4];
      [reflexivity | lia | lia | lia].
  - rewrite (@init_mask_pattern _ _ _ _ _ _ _ _ E); cbn [knee const4 cols4 rows4];
      [reflexivity | lia | lia | lia].
Defined.

(** X12.  With stride R = 1 the mask keeps every column, and the
    zero-filled reconstruction [x0] has the shape and the entries of the
    reference reconstruction [xref]. *)
Theorem unit_stride_x0_is_xref (kfile sfile : tensor4)
    (junk0 junk1 : nat -> nat -> nat -> C) (num_slice nACS : Z)
    (ds : KneeDataset) :
  init kfile sfile junk0 junk1 1 num_slice nACS = Ok ds ->
  teq3 (x0 ds) (xref ds).
Proof.
  intros H.
  destruct (init_attr_shapes _ _ _ _ _ _ _ H) as (Hk & Hx & Hy & Mr & Mc).
  pose proof (init_inv _ _ _ _ _ _ _ H) as (_ & _ & _ & _ & En & _).
  destruct (init_mask_entries _ _ _ _ _ _ _ H) as (_ & _ & Hv).
  pose proof (init_loop_done _ _ _ _ _ _ _ H) as (_ & _ & _ & _ & Hdone).
  pose proof (@shape4_inv _ _ _ _ _ Hk) as (K0 & K1 & K2 & K3).
  pose proof (@shape3_inv _ _ _ _ Hx) as (X0 & X1 & X2).
  split; [congruence |].
  intros b r c Hb Hr Hc.
  destruct (Hdone b) as (nv & masked & da & db & _ & _ & G3 & G4 & G5 & G6 & G7 & G8);
    [lia |]. cbn [fst snd] in *.
  cbn [rows4 cols4 slice0] in G6, G7, G8.
  destruct (G8 r c) as (V0 & V1); [congruence | congruence |].
  rewrite V0, V1.
  assert (Hsl : shape4 (slab (kspace ds) b)
                = (1%nat, rows4 kfile, cols4 kfile, coils4 kfile)).
  { rewrite slab_shape by lia. congruence. }
  pose proof (@shape4_inv _ _ _ _ _ Hsl) as (L0 & L1 & L2 & L3).
  destruct (@bmul4_plane (slab (kspace ds) b) (mask ds))
    as (p & Ep & Hp & Vp); [congruence | congruence |].
  rewrite Ep in G3. injection G3 as ->.
  assert (T : teq4 masked (slab (kspace ds) b)).
  { split; [exact Hp |].
    pose proof (@shape4_inv _ _ _ _ _ (eq_trans Hp Hsl)) as (P0 & P1 & P2 & P3).
    intros s i j q Hs Hi Hj Hq. rewrite Vp by congruence.
    rewrite Hv by congruence.
    rewrite retained_unit_stride by congruence. apply Cmul_1_r. }
  destruct (@decode_ext _ _ _ _ T G4) as (db' & E' & Td).
  rewrite G5 in E'. injection E' as <-.
  pose proof (@shape3_inv _ _ _ _ G6) as (D0 & D1 & D2).
  apply (proj2 Td); lia.
Qed.

Lemma unit_stride_x0_is_xref_witness :
  exists ds,
    init knee knee zeros3 zeros3 1 1 24 = Ok ds /\ teq3 (x0 ds) (xref ds).
Proof.
  destruct (@init_total knee knee zeros3 zeros3 1 1 24) as (ds & E);
    [reflexivity | cbn; lia .. | reflexivity |].
  exists ds. split; [exact E |].
  exact (@unit_stride_x0_is_xref _ _ _ _ _ _ _ E).
Defined.

(** X13.  What [torch.empty] finds in memory never reaches the dataset:
    two constructions from the same files and parameters succeed or fail
    together, and give the same [kspace], mask and [sens_map] and, inside
    their shape, the same [x0] and [xref], whatever the uninitialised
    contents were.  Every row of [x0] and [xref] is overwritten by the
    loop. *)
Theorem init_ignores_uninitialised (kfile sfile : tensor4)
    (junk0 junk1 junk0' junk1' : nat -> nat -> nat -> C)
    (R_ num_slice nACS : Z) (ds : KneeDataset) :
  init kfile sfile junk0 junk1 R_ num_slice nACS = Ok ds ->
  exists ds',
    init kfile sfile junk0' junk1' R_ num_slice nACS = Ok ds'
    /\ kspace ds' = kspace ds /\ mask ds' = mask ds
    /\ sens_map ds' = sens_map ds /\ n_slices ds' = n_slices ds
    /\ teq3 (x0 ds') (x0 ds) /\ teq3 (xref ds') (xref ds).
Proof.
  intros H.
  pose proof (init_inv _ _ _ _ _ _ _ H)
    as (Hm & Hl & HA & Ha & Hn & Hs & _).
  set (ks0 := slice0 kfile 0 (0 + num_slice * 1)) in *.
  set (sens0 := slice0 sfile 0 (0 + num_slice * 1)) in *.
  destruct (@init_loop_rows _ _ _ _ _ _ _ _ _
              (T3 (len4 ks0) (rows4 ks0) (cols4 ks0) junk0')
              (T3 (len4 ks0) (rows4 ks0) (cols4 ks0) junk1')
              Hl eq_refl eq_refl)
    as (a2 & b2 & E & Sa & Sb & V).
  pose proof (init_loop_shape _ _ _ _ _ _ Hl) as (_ & Hx & Hy).
  pose proof (@shape3_inv _ _ _ _ Hx) as (X0 & X1 & X2).
  pose proof (@shape3_inv _ _ _ _ Hy) as (Y0 & Y1 & Y2).
  cbn [len3 rows3 cols3] in X0, X1, X2, Y0, Y1, Y2.
  exists (mkKneeDataset nACS (kspace ds) (len4 ks0) sens0 (mask ds) a2 b2 R_
            None None None).
  split.
  - unfold init. fold ks0 sens0. rewrite Hm. cbn [rbind].
    rewrite E. cbn [rbind]. reflexivity.
  - cbn [kspace mask sens_map n_slices x0 xref].
    repeat split; try congruence.
    + intros s r c Hb _ _. apply V. left. apply in_seq.
      pose proof (@shape3_inv _ _ _ _ Sa) as (Q0 & _). lia.
    + intros s r c Hb _ _. apply V. left. apply in_seq.
      pose proof (@shape3_inv _ _ _ _ Sb) as (Q0 & _). lia.
Qed.

Lemma init_ignores_uninitialised_witness :
  exists ds ds',
    init knee knee zeros3 zeros3 4 1 24 = Ok ds
    /\ init knee knee (fun _ _ _ => C1) (fun _ _ _ => C1) 4 1 24 = Ok ds'
    /\ kspace ds' = kspace ds /\ teq3 (x0 ds') (x0 ds)
    /\ teq3 (xref ds') (xref ds).
Proof.
  destruct (@knee_dataset 4 24) as (ds & E & _); [lia |].
  destruct (@init_ignores_uninitialised knee knee zeros3 zeros3
              (fun _ _ _ => C1) (fun _ _ _ => C1) 4 1 24 ds E)
    as (ds' & E' & Hk & _ & _ & _ & Hx & Hr).
  exists ds, ds'. auto.
Defined.

(** X14.  In every state of the object, after construction and after any
    number of item accesses, [__len__] is the number of rows of [kspace],
    [x0] and [xref], the mask has the size of one k-space slice and the
    stride is positive; an item access does not change [__len__]. *)
Theorem len_is_slice_count (s : KneeDataset) (draw : nat -> nat -> R)
    (index : Z) :
  reachable s ->
  len4 (kspace s) = len s /\ len3 (x0 s) = len s /\ len3 (xref s) = len s
  /\ rows (mask s) = rows4 (kspace s) /\ cols (mask s) = cols4 (kspace s)
  /\ (0 < accel s)%Z
  /\ len (fst (getitem draw index s)) = len s.
Proof.
  intros Hs.
  pose proof (@reachable_shapes _ Hs) as (HR & Mr & Mc).
  pose proof (@reachable_lengths _ Hs) as (Lk & Lx & Lr).
  destruct (preserves_getitem draw index s) as (_ & _ & En & _).
  unfold len. repeat split; assumption.
Qed.

Lemma len_is_slice_count_witness :
  exists ds,
    init knee knee zeros3 zeros3 4 1 24 = Ok ds
    /\ len4 (kspace ds) = len ds
    /\ len (fst (getitem draw0 7 ds)) = len ds.
Proof.
  destruct (@knee_dataset 4 24) as (ds & E & Hs & _); [lia |].
  exists ds. split; [exact E |].
  destruct (@len_is_slice_count ds draw0 7 Hs) as (Lk & _ & _ & _ & _ & _ & Lg).
  split; [exact Lk | exact Lg].
Defined.

(** X15.  An index below -len or not below len makes [__getitem__] raise
    [IndexError] (the slices having rows and columns); by then the call
    has already replaced [gauss_kernel], [random] and [rand_mask]. *)
Theorem getitem_index_error (s : KneeDataset) (draw : nat -> nat -> R)
    (index : Z) :
  reachable s -> (0 < rows4 (kspace s))%nat -> (0 < cols4 (kspace s))%nat ->
  (index < - Z.of_nat (len s) \/ Z.of_nat (len s) <= index)%Z ->
  snd (getitem draw index s) = Raise IndexError
  /\ exists g m,
       gauss_kernel (fst (getitem draw index s)) = Some g
       /\ random (fst (getitem draw index s))
          = Some (T2 (rows4 (kspace s)) (cols4 (kspace s)) draw)
       /\ rand_mask (fst (getitem draw index s)) = Some m.
Proof.
  intros Hs Hx Hy Hi.
  pose proof (@reachable_shapes _ Hs) as (HR & Mr & Mc).
  pose proof (@reachable_lengths _ Hs) as (_ & L & _).
  destruct (@getitem_mask_steps draw s Mr Mc Hx Hy HR)
    as (g & m5 & _ & _ & _ & _ & _ & _ & G).
  rewrite (G index). cbn [fst snd gauss_kernel random rand_mask]. split.
  - unfold row3. unfold len in Hi.
    rewrite index_out_of_range by (rewrite L; exact Hi). reflexivity.
  - exists g, m5. repeat split.
Qed.

Lemma getitem_index_error_witness :
  exists ds,
    init knee knee zeros3 zeros3 4 1 24 = Ok ds
    /\ snd (getitem draw0 1 ds) = Raise IndexError.
Proof.
  destruct (@init_total knee knee zeros3 zeros3 4 1 24) as (ds & E);
    [reflexivity | cbn; lia .. | reflexivity |].
  exists ds. split; [exact E |].
  pose proof (init_shapes _ _ _ _ _ _ _ E) as (_ & Hsh & _).
  apply shape4_inv in Hsh as (_ & K1 & K2 & _). cbn in K1, K2.
  pose proof (init_inv _ _ _ _ _ _ _ E) as (_ & _ & _ & _ & Hn & _).
  refine (proj1 (@getitem_index_error ds draw0 1
                   (@reach_init _ _ _ _ _ _ _ _ E) _ _ _)).
  - rewrite K1. lia.
  - rewrite K2. lia.
  - right. unfold len. rewrite Hn. cbn. lia.
Defined.

(** X16.  A negative index counts from the end: an access at index < 0
    that returns has -len <= index, returns the index as it was passed, and
    returns the data and the mask that the access at index + len returns for
    the same draw ([sens_map] having as many slices as [kspace]). *)
Theorem getitem_negative_index (s s' : KneeDataset) (draw : nat -> nat -> R)
    (index : Z) (it : item) :
  reachable s -> len4 (sens_map s) = len s ->
  (index < 0)%Z ->
  getitem draw index s = (s', Ok it) ->
  (- Z.of_nat (len s) <= index)%Z
  /\ item_index it = index
  /\ getitem draw (index + Z.of_nat (len s)) s
     = (s', Ok (mkItem (item_x0 it) (item_xref it) (item_kspace it)
                       (item_sens_map it) (item_mask it)
                       (index + Z.of_nat (len s)))).
Proof.
  intros Hs Hsm Hneg H.
  pose proof (@reachable_lengths _ Hs) as (Lk & Lx & Lr).
  unfold len in *.
  pose proof (@getitem_inv _ _ _ _ _ H)
    as (g & m0 & m1 & Eg & E0 & E1 & E5 & Ea & Eb & Ec & Ed & Ei & _).
  assert (Hlo : (- Z.of_nat (n_slices s) <= index)%Z).
  { destruct (Z_le_gt_dec (- Z.of_nat (n_slices s)) index) as [L | L];
      [exact L |].
    unfold row3 in Ea. rewrite index_out_of_range in Ea by (rewrite Lx; lia).
    discriminate. }
  split; [exact Hlo |]. split; [exact Ei |].
  pose proof Ea as Ea'. pose proof Eb as Eb'.
  pose proof Ec as Ec'. pose proof Ed as Ed'.
  rewrite row3_negative in Ea' by (rewrite Lx; lia). rewrite Lx in Ea'.
  rewrite row3_negative in Eb' by (rewrite Lr; lia). rewrite Lr in Eb'.
  rewrite row4_negative in Ec' by (rewrite Lk; lia). rewrite Lk in Ec'.
  rewrite row4_negative in Ed' by (rewrite Hsm; lia). rewrite Hsm in Ed'.
  revert H.
  unfold getitem, bind, lift, attr, ret, set_gauss_kernel, set_random,
    set_rand_mask. cbn [fst snd kspace mask accel num_ACS x0 xref sens_map].
  rewrite Eg, E0, E1, E5, Ea, Eb, Ec, Ed, Ea', Eb', Ec', Ed'.
  intros H. injection H as <- <-. reflexivity.
Qed.

Lemma getitem_negative_index_witness :
  exists ds s' it,
    init knee knee zeros3 zeros3 4 1 24 = Ok ds
    /\ getitem draw0 (-1) ds = (s', Ok it)
    /\ item_index it = (-1)%Z
    /\ getitem draw0 0 ds
       = (s', Ok (mkItem (item_x0 it) (item_xref it) (item_kspace it)
                         (item_sens_map it) (item_mask it) 0)).
Proof.
  destruct (@knee_dataset 4 24) as (ds & E & Hs & Hk & Hsm & Hl & _); [lia |].
  apply shape4_inv in Hk as (_ & K1 & K2 & _).
  destruct (@getitem_in_range ds draw0 (-1) Hs) as (s' & it & G);
    [lia | lia | exact Hsm | rewrite Hl; cbn; lia |].
  exists ds, s', it. split; [exact E |]. split; [exact G |].
  destruct (@getitem_negative_index ds s' draw0 (-1) it Hs Hsm ltac:(lia) G)
    as (_ & Hi & H).
  rewrite Hl in H. split; [exact Hi | exact H].
Defined.

(** X17.  The random mask covers the fixed mask: wherever the fixed mask
    is 1, the mask returned by [__getitem__] is 1, for every draw. *)
Theorem rand_mask_covers_mask (s s' : KneeDataset) (draw : nat -> nat -> R)
    (index : Z) (it : item) :
  reachable s -> getitem draw index s = (s', Ok it) ->
  forall i j,
    get2 (mask s) i j = Some C1 -> get2 (item_mask it) i j = Some true.
Proof.
  intros Hs H i j Hm.
  pose proof (@reachable_shapes _ Hs) as (HR & Mr & Mc).
  destruct (@rand_mask_formula _ _ _ _ _ Hs H) as (g & _ & _ & Hr & Hc & V).
  unfold get2 in *. rewrite Hr, Hc. rewrite Mr, Mc in Hm.
  destruct (i <? rows4 (kspace s))%nat eqn:Ei; [| discriminate].
  destruct (j <? cols4 (kspace s))%nat eqn:Ej; [| discriminate].
  cbn [andb] in *. apply Nat.ltb_lt in Ei, Ej.
  rewrite V by assumption.
  rewrite (@reachable_mask_entries _ Hs) in Hm by (rewrite Mr; exact Ei).
  rewrite Mc in Hm.
  destruct (retained _ _ _ _ j); [reflexivity |].
  injection Hm as Hm. lra.
Qed.

Lemma rand_mask_covers_mask_witness :
  exists ds s' it,
    init knee knee zeros3 zeros3 4 1 24 = Ok ds
    /\ getitem draw0 0 ds = (s', Ok it)
    /\ get2 (mask ds) 5 100 = Some C1
    /\ get2 (item_mask it) 5 100 = Some true.
Proof.
  destruct (@knee_dataset 4 24)
    as (ds & E & Hs & Hk & Hsm & Hl & Mr & Mc & Ha & HA); [lia |].
  apply shape4_inv in Hk as (_ & K1 & K2 & _).
  destruct (@getitem_in_range ds draw0 0 Hs) as (s' & it & G);
    [lia | lia | exact Hsm | rewrite Hl; cbn; lia |].
  assert (Hm : get2 (mask ds) 5 100 = Some C1).
  { unfold get2. rewrite Mr, Mc. cbn [Nat.ltb Nat.leb andb].
    rewrite (@reachable_mask_entries _ Hs) by (rewrite Mr; lia).
    rewrite Mc, Ha, HA. reflexivity. }
  exists ds, s', it. split; [exact E |]. split; [exact G |].
  split; [exact Hm |].
  exact (@rand_mask_covers_mask ds s' draw0 0 it Hs G 5%nat 100%nat Hm).
Defined.



(** X19.  Where the fixed mask is 0 and the random number is at most 0.6,
    the returned mask is 0: the kernel never exceeds 1. *)
Theorem rand_mask_low_draw (s s' : KneeDataset) (draw : nat -> nat -> R)
    (index : Z) (it : item) (i j : nat) :
  reachable s -> getitem draw index s = (s', Ok it) ->
  get2 (mask s) i j = Some C0 ->
  (draw i j <= 6 / 10)%R ->
  get2 (item_mask it) i j = Some false.
Proof.
  intros Hs H Hm Hd.
  pose proof (@reachable_shapes _ Hs) as (HR & Mr & Mc).
  destruct (@rand_mask_formula _ _ _ _ _ Hs H) as (g & Eg & Sg & Hr & Hc & V).
  unfold get2 in *. rewrite Hr, Hc. rewrite Mr, Mc in Hm.
  destruct (i <? rows4 (kspace s))%nat eqn:Ei; [| discriminate].
  destruct (j <? cols4 (kspace s))%nat eqn:Ej; [| discriminate].
  cbn [andb] in *. apply Nat.ltb_lt in Ei, Ej.
  rewrite V by assumption.
  rewrite (@reachable_mask_entries _ Hs) in Hm by (rewrite Mr; exact Ei).
  rewrite Mc in Hm.
  destruct (retained _ _ _ _ j).
  - injection Hm as Hm. lra.
  - destruct (_ && _); [reflexivity |].
    assert (Hx : (0 < rows4 (kspace s))%nat) by lia.
    assert (Hy : (0 < cols4 (kspace s))%nat) by lia.
    destruct (@gauss_gen_bounds _ _ (1 / 2) g Eg) as (B & _).
    specialize (B i j Ei Ej).
    destruct (Rlt_dec (6 / 10) (draw i j * at2 g i j)) as [L | L];
      [| reflexivity].
    exfalso. destruct (Rle_lt_dec 0 (draw i j)) as [P | P]; nra.
Qed.

Lemma rand_mask_low_draw_witness :
  exists ds s' it,
    init knee knee zeros3 zeros3 4 1 24 = Ok ds
    /\ getitem draw0 0 ds = (s', Ok it)
    /\ get2 (item_mask it) 5 101 = Some false.
Proof.
  destruct (@knee_dataset 4 24)
    as (ds & E & Hs & Hk & Hsm & Hl & Mr & Mc & Ha & HA); [lia |].
  apply shape4_inv in Hk as (_ & K1 & K2 & _).
  destruct (@getitem_in_range ds draw0 0 Hs) as (s' & it & G);
    [lia | lia | exact Hsm | rewrite Hl; cbn; lia |].
  assert (Hm : get2 (mask ds) 5 101 = Some C0).
  { unfold get2. rewrite Mr, Mc. cbn [Nat.ltb Nat.leb andb].
    rewrite (@reachable_mask_entries _ Hs) by (rewrite Mr; lia).
    rewrite Mc, Ha, HA. reflexivity. }
  exists ds, s', it. split; [exact E |]. split; [exact G |].
  apply (@rand_mask_low_draw ds s' draw0 0 it 5 101 Hs G Hm).
  unfold draw0. lra.
Defined.

(** X20.  For a grid that is not empty and [sigma] of absolute value 0.02
    or more, [gauss_gen] returns a kernel of Nx rows and Ny columns whose
    entries all lie in (0, 1], and one entry is exactly 1.  (The bound on
    [sigma] keeps the arguments of the exponential between -50 and 50 on
    the whole grid, where float32 neither underflows nor overflows; the
    exact arithmetic of the proof does not need it.) *)
Theorem gauss_gen_range (Nx Ny : nat) (sigma : R) :
  (0 < Nx)%nat -> (0 < Ny)%nat -> (1 / 50 <= Rabs sigma)%R ->
  exists g,
    gauss_gen Nx Ny sigma = Ok g /\ rows g = Nx /\ cols g = Ny
    /\ (forall i j, (i < Nx)%nat -> (j < Ny)%nat ->
          (0 < at2 g i j <= 1)%R)
    /\ exists i j, (i < Nx)%nat /\ (j < Ny)%nat /\ at2 g i j = 1%R.
Proof.
  intros Hx Hy _.
  destruct (@gauss_gen_ok Nx Ny sigma Hx Hy) as (g & E & Hr & Hc).
  exists g. split; [exact E |]. split; [exact Hr |]. split; [exact Hc |].
  exact (@gauss_gen_bounds Nx Ny sigma g E).
Qed.

Lemma gauss_gen_range_witness :
  exists g,
    gauss_gen 320 368 (1 / 2) = Ok g
    /\ (0 < at2 g 0 0 <= 1)%R.
Proof.
  destruct (@gauss_gen_range 320 368 (1 / 2)%R) as (g & E & _ & _ & B & _);
    [lia | lia | rewrite Rabs_pos_eq; lra |].
  exists g. split; [exact E |]. apply B; lia.
Defined.

(** X21.  The kernel is symmetric under the reflection of either axis, and
    of both. *)
Theorem gauss_gen_symmetric (Nx Ny : nat) (sigma : R) (g : tensor2 R)
    (i j : nat) :
  sigma <> 0%R -> gauss_gen Nx Ny sigma = Ok g ->
  (i < Nx)%nat -> (j < Ny)%nat ->
  at2 g (Nx - 1 - i) j = at2 g i j /\ at2 g i (Ny - 1 - j) = at2 g i j
  /\ at2 g (Nx - 1 - i) (Ny - 1 - j) = at2 g i j.
Proof.
  intros _ E Hi Hj.
  destruct (@gauss_gen_mirror Nx Ny sigma g i j E Hi Hj) as (M1 & M2).
  split; [exact M1 |]. split; [exact M2 |].
  destruct (@gauss_gen_mirror Nx Ny sigma g (Nx - 1 - i) j E) as (_ & M3);
    [lia | exact Hj |].
  now rewrite M3.
Qed.

Lemma gauss_gen_symmetric_witness :
  exists g,
    gauss_gen 320 368 (1 / 2) = Ok g
    /\ at2 g 319 367 = at2 g 0 0.
Proof.
  destruct (@gauss_gen_ok 320 368 (1 / 2)%R) as (g & E & _); [lia | lia |].
  exists g. split; [exact E |].
  refine (proj2 (proj2 (@gauss_gen_symmetric 320 368 (1 / 2)%R g 0 0 _ E _ _)));
    [lra | lia | lia].
Defined.

(** X22.  For [sigma] of 0.02 or more the kernel is 1 at the middle of the
    grid, at row [(Nx - 1) // 2] and column [(Ny - 1) // 2] and at row
    [Nx // 2] and column [Ny // 2].  (For a positive [sigma] below 0.01 the
    float32 exponentials of the code can all underflow to 0, and its kernel
    is then [nan]; the exact arithmetic of the proof needs [sigma] positive
    only.) *)
Theorem gauss_gen_peak (Nx Ny : nat) (sigma : R) (g : tensor2 R) :
  (1 / 50 <= sigma)%R -> gauss_gen Nx Ny sigma = Ok g ->
  (0 < Nx)%nat -> (0 < Ny)%nat ->
  at2 g ((Nx - 1) / 2) ((Ny - 1) / 2) = 1%R
  /\ at2 g (Nx / 2) (Ny / 2) = 1%R.
Proof.
  intros Hs' E Hx Hy.
  assert (Hs : (0 < sigma)%R) by lra.
  pose proof (@gauss_gen_middle Nx Ny sigma Hx Hy g Hs E) as M.
  split; [exact M |].
  assert (Cx : ((Nx - 1) / 2 < Nx)%nat).
  { apply Nat.le_lt_trans with (m := (Nx - 1)%nat); [| lia].
    apply Nat.Div0.div_le_upper_bound. lia. }
  assert (Cy : ((Ny - 1) / 2 < Ny)%nat).
  { apply Nat.le_lt_trans with (m := (Ny - 1)%nat); [| lia].
    apply Nat.Div0.div_le_upper_bound. lia. }
  destruct (@gauss_gen_mirror Nx Ny sigma g _ _ E Cx Cy) as (M1 & _).
  destruct (@gauss_gen_mirror Nx Ny sigma g (Nx - 1 - (Nx - 1) / 2)
              ((Ny - 1) / 2) E)
    as (_ & M2); [lia | exact Cy |].
  assert (Hx' : (Nx - 1 - (Nx - 1) / 2 = Nx / 2)%nat).
  { pose proof (Nat.div_mod_eq (Nx - 1) 2) as D1.
    pose proof (Nat.mod_upper_bound (Nx - 1) 2 ltac:(lia)) as R1.
    apply Nat.div_unique with (r := (1 - (Nx - 1) mod 2)%nat); lia. }
  assert (Hy' : (Ny - 1 - (Ny - 1) / 2 = Ny / 2)%nat).
  { pose proof (Nat.div_mod_eq (Ny - 1) 2) as D1.
    pose proof (Nat.mod_upper_bound (Ny - 1) 2 ltac:(lia)) as R1.
    apply Nat.div_unique with (r := (1 - (Ny - 1) mod 2)%nat); lia. }
  rewrite Hx', Hy' in M2. rewrite Hx' in M1. now rewrite M2, M1.
Qed.

Lemma gauss_gen_peak_witness :
  exists g,
    gauss_gen 320 368 (1 / 2) = Ok g
    /\ at2 g 159 183 = 1%R /\ at2 g 160 184 = 1%R.
Proof.
  destruct (@gauss_gen_ok 320 368 (1 / 2)%R) as (g & E & _); [lia | lia |].
  exists g. split; [exact E |].
  exact (@gauss_gen_peak 320 368 (1 / 2)%R g ltac:(lra) E ltac:(lia) ltac:(lia)).
Defined.

(** ** Sums over cyclic axes, and the transform as a unitary map *)

Module SumFacts.

Import Fourier Inner ExtFacts CplxFacts RootFacts InversionFacts.
Local Open Scope R_scope.

Lemma Cconj_add (z w : C) : Cconj (Cadd z w) = Cadd (Cconj z) (Cconj w).
Proof. csolve. Qed.

Lemma Cconj_mul (z w : C) : Cconj (Cmul z w) = Cmul (Cconj z) (Cconj w).
Proof. csolve. Qed.

Lemma Cconj_invol (z : C) : Cconj (Cconj z) = z.
Proof. csolve. Qed.

Lemma Cconj_scal (r : R) (z : C) : Cconj (Cscal r z) = Cscal r (Cconj z).
Proof. csolve. Qed.

Lemma Cconj_RtoC (r : R) : Cconj (RtoC r) = RtoC r.
Proof. csolve. Qed.

Lemma Cconj_sum (f : nat -> C) (n : nat) :
  Cconj (Csum f n) = Csum (fun k => Cconj (f k)) n.
Proof.
  induction n as [| n IH]; cbn [Csum]; [csolve |].
  now rewrite Cconj_add, IH.
Qed.

Lemma twiddle_conj_forward (N k n : nat) :
  Cconj (twiddle (-1) N k n) = twiddle 1 N k n.
Proof.
  unfold twiddle. rewrite <- Cexp_neg. f_equal. ring.
Qed.

Lemma twiddle_conj_backward (N k n : nat) :
  Cconj (twiddle 1 N k n) = twiddle (-1) N k n.
Proof. now rewrite <- twiddle_conj_forward, Cconj_invol. Qed.

Lemma twiddle_sym (sgn : R) (N k n : nat) : twiddle sgn N k n = twiddle sgn N n k.
Proof. unfold twiddle. f_equal. unfold Rdiv. ring. Qed.

(** Sums over two indices *)
Lemma Csum2_ext (f g : nat -> nat -> C) (n m : nat) :
  (forall a b, (a < n)%nat -> (b < m)%nat -> f a b = g a b) ->
  Csum2 f n m = Csum2 g n m.
Proof.
  intros H. unfold Csum2. apply Csum_ext. intros a Ha.
  apply Csum_ext. intros b Hb. now apply H.
Qed.

Lemma Csum2_mul_l (z : C) (f : nat -> nat -> C) (n m : nat) :
  Csum2 (fun a b => Cmul z (f a b)) n m = Cmul z (Csum2 f n m).
Proof.
  unfold Csum2. rewrite <- Csum_mul_l. apply Csum_ext. intros a _.
  apply Csum_mul_l.
Qed.

Lemma Csum2_mul_r (z : C) (f : nat -> nat -> C) (n m : nat) :
  Csum2 (fun a b => Cmul (f a b) z) n m = Cmul (Csum2 f n m) z.
Proof.
  unfold Csum2. rewrite <- Csum_mul_r. apply Csum_ext. intros a _.
  apply Csum_mul_r.
Qed.

Lemma Cconj_sum2 (f : nat -> nat -> C) (n m : nat) :
  Cconj (Csum2 f n m) = Csum2 (fun a b => Cconj (f a b)) n m.
Proof.
  unfold Csum2. rewrite Cconj_sum. apply Csum_ext. intros a _.
  apply Cconj_sum.
Qed.

(** Two sums over two indices, exchanged *)
Lemma Csum2_swap (h : nat -> nat -> nat -> nat -> C) (n1 n2 m1 m2 : nat) :
  Csum2 (fun a b => Csum2 (fun c d => h a b c d) m1 m2) n1 n2
  = Csum2 (fun c d => Csum2 (fun a b => h a b c d) n1 n2) m1 m2.
Proof.
  unfold Csum2.
  transitivity
    (Csum (fun a => Csum (fun c => Csum (fun b => Csum (fun d => h a b c d) m2)
                                        n2) m1) n1).
  { apply Csum_ext. intros a _.
    apply (@Csum_swap (fun b c => Csum (fun d => h a b c d) m2)). }
  rewrite (@Csum_swap
             (fun a c => Csum (fun b => Csum (fun d => h a b c d) m2) n2)).
  apply Csum_ext. intros c _.
  transitivity
    (Csum (fun a => Csum (fun d => Csum (fun b => h a b c d) n2) m2) n1).
  { apply Csum_ext. intros a _. apply (@Csum_swap (fun b d => h a b c d)). }
  apply (@Csum_swap (fun a d => Csum (fun b => h a b c d) n2)).
Qed.

(** A sum read from its second term on *)
Lemma Csum_shift (f : nat -> C) (n : nat) :
  Csum f (S n) = Cadd (f O) (Csum (fun i => f (S i)) n).
Proof.
  induction n as [| n IH].
  - cbn [Csum]. csolve.
  - change (Csum f (S (S n))) with (Cadd (Csum f (S n)) (f (S n))).
    rewrite IH. cbn [Csum]. now rewrite Cadd_assoc.
Qed.

(** A sum over a cyclic axis does not depend on where it starts. *)
Lemma Csum_rotate_one (f : nat -> C) (N : nat) :
  Csum (fun i => f ((i + 1) mod N)%nat) N = Csum f N.
Proof.
  destruct N as [| n]; [reflexivity |].
  rewrite (Csum_shift f n).
  change (Csum (fun i => f ((i + 1) mod S n)%nat) (S n))
    with (Cadd (Csum (fun i => f ((i + 1) mod S n)%nat) n)
               (f ((n + 1) mod S n)%nat)).
  replace ((n + 1) mod S n)%nat with O
    by (replace (n + 1)%nat with (S n) by lia; now rewrite Nat.Div0.mod_same).
  rewrite Cadd_comm. f_equal.
  apply Csum_ext. intros i Hi.
  rewrite Nat.mod_small by lia. f_equal. lia.
Qed.

Lemma Csum_rotate (f : nat -> C) (N t : nat) :
  Csum (fun i => f ((i + t) mod N)%nat) N = Csum f N.
Proof.
  induction t as [| t IH].
  - apply Csum_ext. intros i Hi. rewrite Nat.add_0_r. now rewrite Nat.mod_small.
  - rewrite <- IH.
    rewrite <- (@Csum_rotate_one (fun i => f ((i + t) mod N)%nat) N).
    apply Csum_ext. intros i Hi. f_equal.
    rewrite Nat.Div0.add_mod_idemp_l. f_equal. lia.
Qed.

Lemma Csum_source (f : nat -> C) (N s : nat) :
  Csum (fun i => f (source N s i)) N = Csum f N.
Proof. unfold source. apply Csum_rotate. Qed.

Lemma Csum2_source (f : nat -> nat -> C) (N1 N2 s1 s2 : nat) :
  Csum2 (fun i j => f (source N1 s1 i) (source N2 s2 j)) N1 N2 = Csum2 f N1 N2.
Proof.
  unfold Csum2.
  rewrite (@Csum_source (fun i => Csum (fun j => f i (source N2 s2 j)) N2)).
  apply Csum_ext. intros i _. apply Csum_source.
Qed.

(** The inversion formula with the two kernels exchanged *)
Lemma inversion_2d_conj (N1 N2 m1 m2 : nat) (x : nat -> nat -> C) :
  (m1 < N1)%nat -> (m2 < N2)%nat ->
  Csum2 (fun k1 k2 =>
      Cmul (Csum2 (fun n1 n2 =>
                Cmul (x n1 n2)
                     (Cmul (twiddle 1 N1 k1 n1) (twiddle 1 N2 k2 n2)))
              N1 N2)
           (Cmul (twiddle (-1) N1 m1 k1) (twiddle (-1) N2 m2 k2))) N1 N2
  = Cmul (RtoC (INR N1 * INR N2)) (x m1 m2).
Proof.
  intros H1 H2.
  rewrite <- (Cconj_invol (Cmul _ (x m1 m2))).
  rewrite Cconj_mul, Cconj_RtoC.
  rewrite <- (@inversion_2d N1 N2 m1 m2 (fun a b => Cconj (x a b)) H1 H2).
  fold (Csum2 (fun k1 k2 =>
      Cmul (Csum (fun n1 => Csum (fun n2 =>
                Cmul (Cconj (x n1 n2))
                     (Cmul (twiddle (-1) N1 k1 n1) (twiddle (-1) N2 k2 n2)))
              N2) N1)
           (Cmul (twiddle 1 N1 m1 k1) (twiddle 1 N2 m2 k2))) N1 N2).
  rewrite Cconj_sum2. apply Csum2_ext. intros k1 k2 _ _.
  rewrite !Cconj_mul, !twiddle_conj_backward. f_equal.
  fold (Csum2 (fun n1 n2 =>
                Cmul (Cconj (x n1 n2))
                     (Cmul (twiddle (-1) N1 k1 n1) (twiddle (-1) N2 k2 n2)))
              N1 N2).
  rewrite Cconj_sum2. apply Csum2_ext. intros n1 n2 _ _.
  now rewrite !Cconj_mul, Cconj_invol, !twiddle_conj_forward.
Qed.

(** The transform with unit scale keeps the inner product of two planes. *)
Lemma plane_unitary (N1 N2 : nat) (f g : nat -> nat -> C) :
  (0 < N1)%nat -> (0 < N2)%nat ->
  Csum2 (fun k1 k2 =>
      Cmul (Cscal (/ sqrt (INR (N1 * N2)))
              (Csum2 (fun n1 n2 =>
                 Cmul (f n1 n2)
                      (Cmul (twiddle (-1) N1 k1 n1) (twiddle (-1) N2 k2 n2)))
                 N1 N2))
           (Cconj (Cscal (/ sqrt (INR (N1 * N2)))
              (Csum2 (fun n1 n2 =>
                 Cmul (g n1 n2)
                      (Cmul (twiddle (-1) N1 k1 n1) (twiddle (-1) N2 k2 n2)))
                 N1 N2)))) N1 N2
  = Csum2 (fun n1 n2 => Cmul (f n1 n2) (Cconj (g n1 n2))) N1 N2.
Proof.
  intros H1 H2.
  set (A := fun k1 k2 =>
              Csum2 (fun n1 n2 =>
                 Cmul (f n1 n2)
                      (Cmul (twiddle (-1) N1 k1 n1) (twiddle (-1) N2 k2 n2)))
                 N1 N2).
  set (c := / sqrt (INR (N1 * N2))).
  (* conj of the second factor, as a sum over m *)
  rewrite (@Csum2_ext _
     (fun k1 k2 =>
        Csum2 (fun m1 m2 =>
           Cmul (Cmul (RtoC (c * c)) (Cconj (g m1 m2)))
                (Cmul (A k1 k2)
                      (Cmul (twiddle 1 N1 m1 k1) (twiddle 1 N2 m2 k2))))
          N1 N2)).
  2:{ intros k1 k2 _ _. fold (A k1 k2).
      rewrite Cconj_scal, Cconj_sum2.
      rewrite (@Csum2_ext _
         (fun m1 m2 => Cmul (Cconj (g m1 m2))
                            (Cmul (twiddle 1 N1 m1 k1) (twiddle 1 N2 m2 k2)))).
      2:{ intros m1 m2 _ _.
          rewrite !Cconj_mul, !twiddle_conj_forward.
          now rewrite (twiddle_sym 1 N1 k1 m1), (twiddle_sym 1 N2 k2 m2). }
      symmetry.
      rewrite (@Csum2_ext _
         (fun m1 m2 =>
            Cmul (Cmul (RtoC (c * c)) (A k1 k2))
                 (Cmul (Cconj (g m1 m2))
                       (Cmul (twiddle 1 N1 m1 k1) (twiddle 1 N2 m2 k2))))).
      2:{ intros m1 m2 _ _.
          generalize (A k1 k2) (Cconj (g m1 m2))
                     (Cmul (twiddle 1 N1 m1 k1) (twiddle 1 N2 m2 k2)).
          generalize (c * c). intros r a b w. csolve. }
      rewrite Csum2_mul_l.
      match goal with |- Cmul _ ?B = _ => generalize B end.
      generalize (A k1 k2). generalize c. intros r a b. csolve. }
  rewrite Csum2_swap.
  apply Csum2_ext. intros m1 m2 Hm1 Hm2.
  rewrite Csum2_mul_l.
  unfold A, Csum2. rewrite (@inversion_2d N1 N2 m1 m2 f Hm1 Hm2).
  assert (Hp : 0 < INR (N1 * N2)).
  { apply lt_0_INR. apply Nat.mul_pos_pos; assumption. }
  pose proof (sqrt_lt_R0 _ Hp) as Hs.
  pose proof (sqrt_sqrt (INR (N1 * N2)) (Rlt_le _ _ Hp)) as Hq.
  assert (Hc : c * c * (INR N1 * INR N2) = 1).
  { unfold c. rewrite <- mult_INR. rewrite <- Hq at 3. field. lra. }
  generalize Hc. generalize (c * c) (INR N1 * INR N2) (f m1 m2) (Cconj (g m1 m2)).
  intros r q a b E. destruct a as [a1 a2], b as [b1 b2].
  unfold Cmul, RtoC. cbn [fst snd].
  apply (f_equal2 (@pair R R)).
  - transitivity (r * q * (a1 * b1 - a2 * b2)); [ring | rewrite E; ring].
  - transitivity (r * q * (a1 * b2 + a2 * b1)); [ring | rewrite E; ring].
Qed.

End SumFacts.

Import Inner SumFacts.

Module UnitaryFacts.

Import Fourier Inner TensorFacts ExtFacts CplxFacts RootFacts InversionFacts
  CentredFacts SumFacts.

Lemma dot4_ext (x x' y y' : tensor4) :
  teq4 x x' -> teq4 y y' -> shape4 y = shape4 x -> dot4 x y = dot4 x' y'.
Proof.
  intros [Sx Vx] [Sy Vy] Hs.
  pose proof (@shape4_inv x' _ _ _ _ (eq_sym Sx)) as (X0 & X1 & X2 & X3).
  pose proof (@shape4_inv y _ _ _ _ Hs) as (Y0 & Y1 & Y2 & Y3).
  unfold dot4. rewrite X0, X1, X2, X3.
  apply Csum_ext. intros b Hb. apply Csum_ext. intros c Hc.
  apply Csum2_ext. intros i j Hi Hj.
  rewrite Vx by assumption. rewrite Vy by congruence. reflexivity.
Qed.

Lemma dot4_roll (s1 s2 : nat) (x y : tensor4) :
  rows4 y = rows4 x -> cols4 y = cols4 x ->
  dot4 (roll12 s1 s2 x) (roll12 s1 s2 y) = dot4 x y.
Proof.
  intros Hr Hc. unfold dot4, roll12. cbn [len4 rows4 cols4 coils4 at4].
  apply Csum_ext. intros b _. apply Csum_ext. intros c _.
  rewrite Hr, Hc.
  apply (@Csum2_source
           (fun i j => Cmul (at4 x b i j c) (Cconj (at4 y b i j c)))).
Qed.

Lemma dft12_inv (sgn : R) (x y : tensor4) :
  dft12 sgn x = Ok y ->
  (0 < rows4 x)%nat /\ (0 < cols4 x)%nat /\ shape4 y = shape4 x
  /\ forall b k1 k2 c,
       at4 y b k1 k2 c =
       Cscal (/ sqrt (INR (rows4 x * cols4 x)))
         (Csum2 (fun n1 n2 =>
            Cmul (at4 x b n1 n2 c)
                 (Cmul (twiddle sgn (rows4 x) k1 n1)
                       (twiddle sgn (cols4 x) k2 n2)))
            (rows4 x) (cols4 x)).
Proof.
  unfold dft12. intros H.
  destruct ((rows4 x =? 0) || (cols4 x =? 0))%nat eqn:E; [discriminate |].
  injection H as <-. apply orb_false_elim in E as [E1 E2].
  apply Nat.eqb_neq in E1, E2.
  split; [lia |]. split; [lia |]. split; reflexivity.
Qed.

(** The forward transform keeps inner products. *)
Lemma fftn_unitary (x y fx fy : tensor4) :
  shape4 y = shape4 x -> fftn x = Ok fx -> fftn y = Ok fy ->
  dot4 fx fy = dot4 x y.
Proof.
  intros Hs Ex Ey.
  pose proof (@shape4_inv y _ _ _ _ Hs) as (Y0 & Y1 & Y2 & Y3).
  apply dft12_inv in Ex as (Hr & Hc & Sx & Vx).
  apply dft12_inv in Ey as (_ & _ & Sy & Vy).
  pose proof (@shape4_inv fx _ _ _ _ Sx) as (X0 & X1 & X2 & X3).
  unfold dot4. rewrite X0, X1, X2, X3.
  apply Csum_ext. intros b _. apply Csum_ext. intros c _.
  rewrite <- (@plane_unitary (rows4 x) (cols4 x)
                (fun i j => at4 x b i j c) (fun i j => at4 y b i j c) Hr Hc).
  apply Csum2_ext. intros k1 k2 _ _.
  rewrite Vx, Vy, Y1, Y2. reflexivity.
Qed.

Lemma fft2_inv (x y : tensor4) :
  fft2 x = Ok y ->
  exists u, fftn (ifftshift x) = Ok u /\ y = fftshift u
            /\ shape4 u = shape4 x /\ (0 < rows4 x)%nat /\ (0 < cols4 x)%nat.
Proof.
  unfold fft2. intros H.
  destruct (fftn (ifftshift x)) as [u |] eqn:E; [| discriminate].
  cbn [rbind] in H. injection H as <-.
  exists u. split; [reflexivity |]. split; [reflexivity |].
  apply dft12_inv in E as (Hr & Hc & Su & _). auto.
Qed.

Lemma ifft2_inv (x y : tensor4) :
  ifft2 x = Ok y ->
  exists u, ifftn (fftshift x) = Ok u /\ y = ifftshift u
            /\ shape4 u = shape4 x /\ (0 < rows4 x)%nat /\ (0 < cols4 x)%nat.
Proof.
  unfold ifft2. intros H.
  destruct (ifftn (fftshift x)) as [u |] eqn:E; [| discriminate].
  cbn [rbind] in H. injection H as <-.
  exists u. split; [reflexivity |]. split; [reflexivity |].
  apply dft12_inv in E as (Hr & Hc & Su & _). auto.
Qed.

(** [fft2] keeps inner products, whatever the lengths of the axes. *)
Lemma fft2_dot (x y fx fy : tensor4) :
  shape4 y = shape4 x -> fft2 x = Ok fx -> fft2 y = Ok fy ->
  dot4 fx fy = dot4 x y.
Proof.
  intros Hs Ex Ey.
  pose proof (@shape4_inv y _ _ _ _ Hs) as (Y0 & Y1 & Y2 & Y3).
  apply fft2_inv in Ex as (u & Eu & -> & Su & _).
  apply fft2_inv in Ey as (v & Ev & -> & Sv & _).
  pose proof (@shape4_inv u _ _ _ _ Su) as (U0 & U1 & U2 & U3).
  pose proof (@shape4_inv v _ _ _ _ Sv) as (V0 & V1 & V2 & V3).
  unfold fftshift. rewrite V1, V2, Y1, Y2, <- U1, <- U2.
  rewrite dot4_roll by congruence.
  rewrite (@fftn_unitary (ifftshift x) (ifftshift y) u v Hs Eu Ev).
  unfold ifftshift. rewrite Y1, Y2. now apply dot4_roll.
Qed.

(** [fftn(ifftn(x))] is [x]. *)
Lemma fftn_ifftn (x y : tensor4) :
  ifftn x = Ok y -> exists z, fftn y = Ok z /\ teq4 z x.
Proof.
  intros H. apply dft12_inv in H as (Hr & Hc & Sy & Vy).
  pose proof (@shape4_inv y _ _ _ _ Sy) as (Y0 & Y1 & Y2 & Y3).
  destruct (@dft12_ok (-1) y) as (z & Ez & Sz); [lia | lia |].
  exists z. split; [exact Ez |].
  apply dft12_inv in Ez as (_ & _ & _ & Vz).
  split; [congruence |].
  intros b m1 m2 c Hb H1 H2 H3.
  pose proof (@shape4_inv z _ _ _ _ (eq_trans Sz Sy)) as (Z0 & Z1 & Z2 & Z3).
  rewrite Vz, Y1, Y2.
  rewrite (@Csum2_ext _
    (fun k1 k2 =>
       Cmul (RtoC (/ sqrt (INR (rows4 x * cols4 x))))
         (Cmul (Csum2 (fun n1 n2 =>
                  Cmul (at4 x b n1 n2 c)
                       (Cmul (twiddle 1 (rows4 x) k1 n1)
                             (twiddle 1 (cols4 x) k2 n2)))
                  (rows4 x) (cols4 x))
               (Cmul (twiddle (-1) (rows4 x) m1 k1)
                     (twiddle (-1) (cols4 x) m2 k2))))).
  2:{ intros k1 k2 _ _. rewrite Vy. rewrite Cscal_Cmul_l. apply Cscal_mul. }
  rewrite Csum2_mul_l.
  rewrite (@inversion_2d_conj (rows4 x) (cols4 x) m1 m2
             (fun n1 n2 => at4 x b n1 n2 c)) by congruence.
  rewrite <- Cscal_mul.
  rewrite <- (@ortho_scale (rows4 x) (cols4 x) (at4 x b m1 m2 c)) at 2
    by lia.
  now rewrite Cmul_1_r.
Qed.

(** On axes of even length (or of length one), [fft2] undoes [ifft2]. *)
Lemma fft2_ifft2_centred (x y : tensor4) :
  even_or_one (rows4 x) -> even_or_one (cols4 x) ->
  ifft2 x = Ok y -> exists z, fft2 y = Ok z /\ teq4 z x.
Proof.
  intros H1 H2 H.
  apply ifft2_inv in H as (u & Eu & -> & Su & Hr & Hc).
  pose proof (@shape4_inv u _ _ _ _ Su) as (U0 & U1 & U2 & U3).
  destruct (@fftn_ifftn _ _ Eu) as (w & Ew & Tw).
  assert (T : teq4 u (ifftshift (ifftshift u))).
  { apply teq4_sym. apply ifftshift_twice; congruence. }
  destruct (@dft12_ext (-1) _ _ _ T Ew) as (w' & Ew' & Tw').
  unfold fft2, fftn. rewrite Ew'. cbn [rbind].
  eexists. split; [reflexivity |].
  eapply teq4_trans; [apply fftshift_ext; apply teq4_sym; exact Tw' |].
  eapply teq4_trans; [apply fftshift_ext; exact Tw |].
  now apply fftshift_twice.
Qed.

(** On even axes [ifft2] is the adjoint of [fft2]. *)
Lemma fft2_adjoint (x y fx iy : tensor4) :
  shape4 y = shape4 x ->
  even_or_one (rows4 x) -> even_or_one (cols4 x) ->
  fft2 x = Ok fx -> ifft2 y = Ok iy ->
  dot4 fx y = dot4 x iy.
Proof.
  intros Hs H1 H2 Ex Ey.
  pose proof (@shape4_inv y _ _ _ _ Hs) as (Y0 & Y1 & Y2 & Y3).
  destruct (@fft2_ifft2_centred y iy) as (z & Ez & Tz);
    [congruence | congruence | exact Ey |].
  assert (Si : shape4 iy = shape4 x).
  { apply ifft2_inv in Ey as (u & _ & -> & Su & _).
    unfold shape4 in *. cbn. congruence. }
  assert (Sf : shape4 fx = shape4 x).
  { apply fft2_inv in Ex as (u & _ & -> & Su & _).
    unfold shape4 in *. cbn. congruence. }
  rewrite <- (@fft2_dot x iy fx z Si Ex Ez).
  apply dot4_ext; [apply teq4_refl | apply teq4_sym; exact Tz | congruence].
Qed.

End UnitaryFacts.

Import UnitaryFacts.

(** ** The centre of the spectrum *)

Module CentreFacts.

Import Fourier Inner TensorFacts ExtFacts CplxFacts RootFacts InversionFacts
  CentredFacts SumFacts UnitaryFacts.
Local Open Scope R_scope.

(** The sum of the forward kernel over the samples: only the zero frequency
    survives. *)
Lemma twiddle_sum (N k : nat) :
  (k < N)%nat ->
  Csum (fun n => twiddle (-1) N k n) N
  = if (k =? 0)%nat then RtoC (INR N) else C0.
Proof.
  intros Hk.
  rewrite (@Csum_ext _ (fun n => root N (Z.of_nat n * (- Z.of_nat k)))).
  2:{ intros n _. rewrite twiddle_forward. f_equal. ring. }
  destruct (Nat.eqb_spec k 0) as [-> | Hne].
  - apply root_sum_multiple; [lia |]. exists 0%Z. reflexivity.
  - apply root_sum_other; [lia |]. intros [q Hq].
    assert (q = 0)%Z by nia. lia.
Qed.

(** [fftshift] brings position 0 of an axis to position [N // 2]. *)
Lemma source_zero (N i : nat) :
  (i < N)%nat -> (source N (N / 2) i =? 0)%nat = (i =? N / 2)%nat.
Proof.
  intros Hi. unfold source.
  assert (Hh : (N / 2 <= N)%nat) by (apply Nat.Div0.div_le_upper_bound; lia).
  assert (Hh' : (2 * (N / 2) <= N)%nat) by (apply Nat.Div0.mul_div_le).
  assert (Hpos : (0 < N - N / 2)%nat).
  { destruct N as [| [| n]]; [lia | cbn; lia |].
    assert (S (S n) / 2 < S (S n))%nat by (apply Nat.div_lt; lia). lia. }
  destruct (Nat.eqb_spec i (N / 2)) as [-> | Hne].
  - replace (N / 2 + (N - N / 2))%nat with N by lia.
    now rewrite Nat.Div0.mod_same.
  - apply Nat.eqb_neq. intros E.
    destruct (Nat.lt_ge_cases (i + (N - N / 2)) N) as [L | L].
    + rewrite Nat.mod_small in E by exact L. lia.
    + replace (i + (N - N / 2))%nat
        with ((i + (N - N / 2) - N) + 1 * N)%nat in E by lia.
      rewrite Nat.Div0.mod_add in E.
      rewrite Nat.mod_small in E by lia. lia.
Qed.

Lemma Csum2_product (f g : nat -> C) (v : C) (n m : nat) :
  Csum2 (fun a b => Cmul v (Cmul (f a) (g b))) n m
  = Cmul v (Cmul (Csum f n) (Csum g m)).
Proof.
  rewrite Csum2_mul_l. f_equal. unfold Csum2.
  rewrite <- Csum_mul_r. apply Csum_ext. intros a _. apply Csum_mul_l.
Qed.

Lemma Csum_Csum2_swap (h : nat -> nat -> nat -> C) (k n m : nat) :
  Csum (fun c => Csum2 (fun i j => h c i j) n m) k
  = Csum2 (fun i j => Csum (fun c => h c i j) k) n m.
Proof.
  unfold Csum2.
  rewrite (@Csum_swap (fun c i => Csum (fun j => h c i j) m)).
  apply Csum_ext. intros i _. apply (@Csum_swap (fun c j => h c i j)).
Qed.

End CentreFacts.

Import MoreSamples CentreFacts.

(** X1.  On a tensor whose two transformed axes have even length (or length
    one) and are not empty, [ifft2(fft2(x))] returns x: both calls succeed
    and the result has the shape and the entries of x. *)
Theorem fft2_round_trip_even (x : tensor4) :
  (0 < rows4 x)%nat -> (0 < cols4 x)%nat ->
  even_or_one (rows4 x) -> even_or_one (cols4 x) ->
  exists y z, fft2 x = Ok y /\ ifft2 y = Ok z /\ teq4 z x.
Proof.
  intros Hr Hc H1 H2.
  destruct (@fft2_ok x Hr Hc) as (y & Ey & _).
  destruct (@ifft2_fft2_centred x y H1 H2 Ey) as (z & Ez & T).
  exists y, z. auto.
Qed.

Lemma fft2_round_trip_even_witness :
  exists y z, fft2 sens222 = Ok y /\ ifft2 y = Ok z /\ teq4 z sens222.
Proof.
  apply fft2_round_trip_even; cbn; try lia; left; reflexivity.
Defined.

(** X2.  On a tensor whose two transformed axes have even length (or length
    one) and are not empty, [fft2(ifft2(x))] returns x. *)
Theorem ifft2_round_trip_even (x : tensor4) :
  (0 < rows4 x)%nat -> (0 < cols4 x)%nat ->
  even_or_one (rows4 x) -> even_or_one (cols4 x) ->
  exists y z, ifft2 x = Ok y /\ fft2 y = Ok z /\ teq4 z x.
Proof.
  intros Hr Hc H1 H2.
  destruct (@ifft2_ok x Hr Hc) as (y & Ey & _).
  destruct (@fft2_ifft2_centred x y H1 H2 Ey) as (z & Ez & T).
  exists y, z. auto.
Qed.

Lemma ifft2_round_trip_even_witness :
  exists y z, ifft2 sens222 = Ok y /\ fft2 y = Ok z /\ teq4 z sens222.
Proof.
  apply ifft2_round_trip_even; cbn; try lia; left; reflexivity.
Defined.

(** X3.  [fft2] is unitary, whatever the lengths of the axes: for two
    tensors of one shape whose transformed axes are not empty, the inner
    product of the two transforms is the inner product of the tensors; in
    particular [fft2] keeps the sum of the squared moduli of a tensor (the
    effect of [norm='ortho']). *)
Theorem fft2_unitary (x y : tensor4) :
  shape4 y = shape4 x -> (0 < rows4 x)%nat -> (0 < cols4 x)%nat ->
  exists fx fy,
    fft2 x = Ok fx /\ fft2 y = Ok fy
    /\ dot4 fx fy = dot4 x y /\ dot4 fx fx = dot4 x x.
Proof.
  intros Hs Hr Hc.
  pose proof (@shape4_inv y _ _ _ _ Hs) as (Y0 & Y1 & Y2 & Y3).
  destruct (@fft2_ok x Hr Hc) as (fx & Ex & _).
  destruct (@fft2_ok y) as (fy & Ey & _); [lia | lia |].
  exists fx, fy. split; [exact Ex |]. split; [exact Ey |].
  split; [exact (@fft2_dot x y fx fy Hs Ex Ey) |].
  exact (@fft2_dot x x fx fx eq_refl Ex Ex).
Qed.

Lemma fft2_unitary_witness :
  exists fx fy,
    fft2 delta3 = Ok fx /\ fft2 unit3 = Ok fy
    /\ dot4 fx fy = dot4 delta3 unit3 /\ dot4 fx fx = dot4 delta3 delta3.
Proof.
  apply fft2_unitary; [reflexivity | cbn; lia | cbn; lia].
Defined.

(** X4.  [fft2] of a tensor whose entries are all v is zero everywhere
    except at row [Nx // 2] and column [Ny // 2], where it is
    sqrt(Nx * Ny) * v: the zero frequency sits in the middle of the two
    axes, for even and for odd lengths. *)
Theorem fft2_constant (n Nx Ny Nc : nat) (v : C) :
  (0 < Nx)%nat -> (0 < Ny)%nat ->
  exists y,
    fft2 (const4 n Nx Ny Nc v) = Ok y
    /\ shape4 y = (n, Nx, Ny, Nc)
    /\ forall b i j c,
         (i < Nx)%nat -> (j < Ny)%nat ->
         at4 y b i j c
         = if ((i =? Nx / 2) && (j =? Ny / 2))%nat
           then Cscal (sqrt (INR (Nx * Ny))) v else C0.
Proof.
  intros Hx Hy.
  destruct (@fft2_ok (const4 n Nx Ny Nc v)) as (y & Ey & Sy);
    [exact Hx | exact Hy |].
  exists y. split; [exact Ey |]. split; [exact Sy |].
  intros b i j c Hi Hj.
  apply fft2_inv in Ey as (u & Eu & -> & Su & _).
  apply dft12_inv in Eu as (_ & _ & _ & Vu).
  pose proof (@shape4_inv u _ _ _ _ Su) as (U0 & U1 & U2 & U3).
  cbn [const4 rows4 cols4] in U1, U2.
  cbn [fftshift roll12 at4]. rewrite Vu, U1, U2.
  cbn [ifftshift roll12 const4 rows4 cols4 at4].
  rewrite Csum2_product.
  assert (S1 : (source Nx (Nx / 2) i < Nx)%nat) by (apply source_lt; lia).
  assert (S2 : (source Ny (Ny / 2) j < Ny)%nat) by (apply source_lt; lia).
  rewrite !twiddle_sum by assumption.
  rewrite !source_zero by assumption.
  assert (Hp : (0 < INR (Nx * Ny))%R).
  { apply lt_0_INR. apply Nat.mul_pos_pos; assumption. }
  pose proof (sqrt_lt_R0 _ Hp) as Hs.
  pose proof (sqrt_sqrt (INR (Nx * Ny)) (Rlt_le _ _ Hp)) as Hq.
  destruct (i =? Nx / 2)%nat, (j =? Ny / 2)%nat; cbn [andb].
  - rewrite RtoC_mul, <- mult_INR.
    destruct v as [a b']. unfold Cscal, Cmul, RtoC. cbn [fst snd].
    rewrite <- Hq at 2 4.
    apply (f_equal2 (@pair R R)); field; lra.
  - rewrite Cmul_0_r, Cmul_0_r. unfold Cscal, C0. cbn [fst snd].
    apply (f_equal2 (@pair R R)); ring.
  - rewrite Cmul_0_l', Cmul_0_r. unfold Cscal, C0. cbn [fst snd].
    apply (f_equal2 (@pair R R)); ring.
  - rewrite Cmul_0_l', Cmul_0_r. unfold Cscal, C0. cbn [fst snd].
    apply (f_equal2 (@pair R R)); ring.
Qed.

Lemma fft2_constant_witness :
  exists y,
    fft2 unit3 = Ok y /\ at4 y 0 0 1 0 = Cscal (sqrt (INR (1 * 3))) C1
    /\ at4 y 0 0 0 0 = C0.
Proof.
  destruct (@fft2_constant 1 1 3 1 C1) as (y & Ey & _ & V); [lia | lia |].
  exists y. split; [exact Ey |].
  split; [apply (V 0 0 1 0)%nat; lia | apply (V 0 0 0 0)%nat; lia].
Defined.

Lemma unit22_orthonormal : orthonormal unit22.
Proof.
  intros b i j _ _ _. cbn [unit22 const4 coils4 at4 Csum].
  unfold Cadd, Cmul, Cconj, C0, C1. cbn [fst snd].
  apply (f_equal2 (@pair R R)); ring.
Qed.

(** X5.  With axes of even length (or length one) that are not empty, an
    image x of the shape of the sensitivity map S, and S orthonormal at every
    pixel, [decode(encode(x, S, None), S)] returns x. *)
Theorem decode_encode_even (x : tensor3) (S : tensor4) :
  shape3 x = (len4 S, rows4 S, cols4 S) ->
  (0 < rows4 S)%nat -> (0 < cols4 S)%nat ->
  even_or_one (rows4 S) -> even_or_one (cols4 S) -> orthonormal S ->
  exists y z, encode x S None = Ok y /\ decode y S = Ok z /\ teq3 z x.
Proof.
  intros Hx Hr Hc H1 H2 HS.
  destruct (@encode_none_ok x S Hx Hr Hc) as (y & Ey & _).
  destruct (@decode_encode_centred x S y Hx H1 H2 HS Ey) as (z & Ez & T).
  exists y, z. auto.
Qed.

Lemma decode_encode_even_witness :
  exists y z,
    encode image22 unit22 None = Ok y /\ decode y unit22 = Ok z
    /\ teq3 z image22.
Proof.
  apply decode_encode_even;
    [reflexivity | cbn; lia | cbn; lia | left; reflexivity | left; reflexivity
    | exact unit22_orthonormal].
Defined.

(** X6.  On axes of even length (or length one), [decode(., S)] is the
    adjoint of [encode(., S, None)]: for an image x and a k-space tensor y of
    the shape of S, the inner product of [encode(x, S, None)] with y equals
    the inner product of x with [decode(y, S)]. *)
Theorem decode_is_adjoint (x : tensor3) (S y : tensor4) :
  shape3 x = (len4 S, rows4 S, cols4 S) -> shape4 y = shape4 S ->
  (0 < rows4 S)%nat -> (0 < cols4 S)%nat ->
  even_or_one (rows4 S) -> even_or_one (cols4 S) ->
  exists ex dy,
    encode x S None = Ok ex /\ decode y S = Ok dy
    /\ dot4 ex y = dot3 x dy.
Proof.
  intros Hx Hy Hr Hc H1 H2.
  pose proof (@shape3_inv x _ _ _ Hx) as (X0 & X1 & X2).
  pose proof (@shape4_inv y _ _ _ _ Hy) as (Y0 & Y1 & Y2 & Y3).
  destruct (@bmul4_coil S x Hx) as (p & Ep & Hp & Vp).
  pose proof (@shape4_inv p _ _ _ _ Hp) as (P0 & P1 & P2 & P3).
  destruct (@fft2_ok p) as (ex & Ee & Se); [lia | lia |].
  destruct (@ifft2_ok y) as (u & Eu & Su); [lia | lia |].
  pose proof (@shape4_inv u _ _ _ _ Su) as (U0 & U1 & U2 & U3).
  destruct (@bmul4_same u (conj4 S)) as (q & Eq & Hq & Vq).
  { unfold shape4. cbn. congruence. }
  pose proof (@shape4_inv q _ _ _ _ Hq) as (Q0 & Q1 & Q2 & Q3).
  exists ex, (sum_axis3 q).
  split; [unfold encode; rewrite Ep; cbn [rbind]; exact Ee |].
  split; [unfold decode; rewrite Eu; cbn [rbind]; rewrite Eq; reflexivity |].
  rewrite (@fft2_adjoint p y ex u); try congruence.
  unfold dot4, dot3. cbn [sum_axis3 len3 rows3 cols3 at3].
  rewrite P0, P1, P2, P3, X0, X1, X2.
  apply Csum_ext. intros b Hb.
  rewrite Csum_Csum2_swap. apply Csum2_ext. intros i j Hi Hj.
  rewrite Cconj_sum, <- Csum_mul_l, Q3, U3, Y3.
  apply Csum_ext. intros c Hcc.
  rewrite Vp by assumption. rewrite Vq by congruence.
  cbn [conj4 at4]. rewrite Cconj_mul, Cconj_invol.
  generalize (at4 S b i j c) (at3 x b i j) (Cconj (at4 u b i j c)).
  intros s v w. csolve.
Qed.

Lemma decode_is_adjoint_witness :
  exists ex dy,
    encode image22 sens222 None = Ok ex /\ decode sens222 sens222 = Ok dy
    /\ dot4 ex sens222 = dot3 image22 dy.
Proof.
  apply decode_is_adjoint;
    [reflexivity | reflexivity | cbn; lia | cbn; lia
    | left; reflexivity | left; reflexivity].
Defined.

(** ** NMSE is never negative *)

Module SignFacts.

Import Metrics MetricsFacts.
Local Open Scope Z_scope.

Lemma square_class (prec emax : Z) (v : spec_float) :
  nonneg_or_nan (SFmul prec emax v v) = true.
Proof.
  destruct v as [s | s | | s m e].
  - cbn. now rewrite xorb_nilpotent.
  - cbn. now rewrite xorb_nilpotent.
  - reflexivity.
  - unfold nonneg_or_nan. rewrite square_nonneg; reflexivity.
Qed.

Lemma add_class (prec emax : Z) (a b : spec_float) :
  nonneg_or_nan a = true -> nonneg_or_nan b = true ->
  nonneg_or_nan (SFadd prec emax a b) = true.
Proof.
  unfold nonneg_or_nan. intros Ha Hb.
  destruct (is_nan a) eqn:Na; [destruct a; try discriminate; reflexivity |].
  destruct (is_nan b) eqn:Nb;
    [destruct b; try discriminate; destruct a; reflexivity |].
  rewrite orb_false_r in Ha, Hb. now rewrite add_nonneg.
Qed.

Lemma sum_class (prec emax : Z) (l : list spec_float) :
  Forall (fun v => nonneg_or_nan v = true) l ->
  nonneg_or_nan (np_sum prec emax l) = true.
Proof.
  unfold np_sum. generalize zero (eq_refl : nonneg_or_nan zero = true).
  induction l as [| v l IH]; intros acc Ha Hl; cbn [fold_left].
  - exact Ha.
  - inversion Hl as [| ? ? Hv Hl']; subst.
    apply IH; [now apply add_class | exact Hl'].
Qed.

Lemma div_core_nonneg (prec emax : Z) (m1 : positive) (e1 : Z)
    (m2 : positive) (e2 : Z) :
  0 <= fst (fst (SFdiv_core_binary prec emax (Zpos m1) e1 (Zpos m2) e2)).
Proof.
  unfold SFdiv_core_binary.
  set (s := e1 - e2 - _).
  set (m' := match s with Z0 => Zpos m1 | Zpos _ => Z.shiftl (Zpos m1) s
                     | Zneg _ => 0 end).
  assert (Hm : 0 <= m').
  { unfold m'. destruct s; try lia. apply Z.shiftl_nonneg. lia. }
  pose proof (Z_div_mod m' (Zpos m2) ltac:(lia)) as D.
  destruct (Z.div_eucl m' (Zpos m2)) as [q r]. cbn [fst].
  destruct D as [D1 D2]. nia.
Qed.

Lemma div_class (prec emax : Z) (a b : spec_float) :
  nonneg_or_nan a = true -> nonneg_or_nan b = true ->
  nonneg_or_nan (SFdiv prec emax a b) = true.
Proof.
  destruct a as [[] | [] | | [] ma ea]; try discriminate;
    destruct b as [[] | [] | | [] mb eb]; try discriminate; intros _ _;
    try reflexivity.
  cbn [SFdiv xorb].
  pose proof (div_core_nonneg prec emax ma ea mb eb) as H.
  destruct (SFdiv_core_binary prec emax (Zpos ma) ea (Zpos mb) eb)
    as [[mz ez] lz]. cbn [fst] in H.
  pose proof (@binary_round_aux_class prec emax false mz ez lz H) as G.
  destruct (binary_round_aux _ _ _ _ _ _) as [s' | s' | | s' m' e'];
    try contradiction; rewrite G; reflexivity.
Qed.

Lemma nonneg_leb (v : spec_float) : nonneg v = true -> SFleb zero v = true.
Proof. destruct v as [[] | [] | | [] m e]; try discriminate; reflexivity. Qed.

End SignFacts.

Import SignFacts.

(** X7.  On arrays of real floats [nmse] never returns a negative number:
    whatever the entries are (infinities and [nan] included), and for every
    shape it accepts, the value [v] it returns satisfies [0 <= v] or is
    [nan]. *)
Theorem nmse_not_negative (prec emax : Z) (x xref : list spec_float)
    (v : spec_float) :
  nmse prec emax x xref = Ok v -> SFleb zero v = true \/ v = S754_nan.
Proof.
  unfold nmse. intros H.
  destruct (np_sub prec emax x xref) as [d |]; [| discriminate].
  cbn [rbind] in H. injection H as <-.
  assert (Q : forall l, nonneg_or_nan (np_sum prec emax (np_square prec emax l))
                        = true).
  { intros l. apply sum_class. unfold np_square. apply Forall_map.
    apply Forall_forall. intros w _. apply square_class. }
  pose proof (div_class prec emax _ _ (Q d) (Q xref)) as G.
  unfold nonneg_or_nan in G. apply orb_true_iff in G as [G | G].
  - left. now apply nonneg_leb.
  - right. destruct (SFdiv _ _ _ _); try discriminate. reflexivity.
Qed.

Lemma nmse_not_negative_witness :
  exists v, nmse64 [tiny64; zero] [one64; one64] = Ok v /\ SFleb zero v = true.
Proof.
  eexists. split; [vm_compute; reflexivity |].
  destruct (@nmse_not_negative 53 1024 [tiny64; zero] [one64; one64] _
              ltac:(vm_compute; reflexivity)) as [H | H].
  - exact H.
  - discriminate H.
Defined.

(** ** The channel conversions *)

Module ChannelFacts.

Import Py Channels TensorFacts CplxFacts.



(** The two slices that [ch2to1] takes, by the number of channels *)
Lemma rslice0_first (d : rtensor3) :
  rlen3 (rslice0 d 0 1) = Nat.min 1 (rlen3 d)
  /\ forall s i j, rat3 (rslice0 d 0 1) s i j = rat3 d s i j.
Proof.
  unfold rslice0, lower, upper, range_, adjust.
  cbn [sl_start sl_stop rlen3 rat3 Z.ltb Z.compare].
  split; [lia |]. intros s i j. f_equal. lia.
Qed.

Lemma rslice0_second (d : rtensor3) :
  rlen3 (rslice0 d 1 2) = (Nat.min 2 (rlen3 d) - 1)%nat
  /\ forall s i j,
       (2 <= rlen3 d)%nat -> rat3 (rslice0 d 1 2) s i j = rat3 d (1 + s) i j.
Proof.
  unfold rslice0, lower, upper, range_, adjust.
  cbn [sl_start sl_stop rlen3 rat3 Z.ltb Z.compare].
  split; [lia |]. intros s i j H. f_equal. lia.
Qed.



End ChannelFacts.

Import Channels ChannelFacts.







(** X26.  On a real tensor of fewer than two channels [ch2to1] raises
    nothing and returns a tensor without channels: the slice [1:2] is empty
    and the sum is broadcast to it. *)
Theorem ch2to1_short (d : rtensor3) :
  (rlen3 d < 2)%nat ->
  exists y, ch2to1 d = Ok y /\ shape3 y = (0%nat, rrows3 d, rcols3 d).
Proof.
  intros H. unfold ch2to1, complex_of.
  destruct (rslice0_first d) as (L1 & _).
  destruct (rslice0_second d) as (L2 & _).
  rewrite L1, L2. cbn [rslice0 rrows3 rcols3]. rewrite !bdim_same.
  assert (E : bdim (Nat.min 1 (rlen3 d)) (Nat.min 2 (rlen3 d) - 1) = Ok 0%nat).
  { destruct (rlen3 d) as [| [| n]]; [reflexivity | reflexivity | lia]. }
  rewrite E. cbn [rbind]. eexists. split; reflexivity.
Qed.

Lemma ch2to1_short_witness :
  exists y,
    ch2to1 (real3 image22) = Ok y /\ shape3 y = (0, 2, 2)%nat.
Proof. apply (@ch2to1_short (real3 image22)). cbn. lia. Defined.

(** ** The MOI loss *)

Module LossFacts.

Import Kernel Loss TensorFacts EntryFacts Samples.
Local Open Scope R_scope.

Lemma sum_squares_nonneg (l : list C) :
  0 <= fold_right Rplus 0 (map (fun z => fst z * fst z + snd z * snd z) l).
Proof.
  induction l as [| [a b] l IH]; cbn [map fold_right fst snd]; [lra |].
  pose proof (Rle_0_sqr a) as Ha. pose proof (Rle_0_sqr b) as Hb.
  unfold Rsqr in *. lra.
Qed.

Lemma norm2_nonneg (l : list C) : 0 <= norm2 l.
Proof. unfold norm2. apply sqrt_pos. Qed.

(** The norm vanishes exactly when every entry does. *)
Lemma norm2_zero (l : list C) :
  norm2 l = 0 <-> forall z, In z l -> z = C0.
Proof.
  unfold norm2. split.
  - intros H. apply sqrt_eq_0 in H; [| apply sum_squares_nonneg].
    induction l as [| [a b] l IH]; intros z Hz; [contradiction |].
    cbn [map fold_right fst snd] in H.
    pose proof (sum_squares_nonneg l) as P.
    pose proof (Rle_0_sqr a) as Ha. pose proof (Rle_0_sqr b) as Hb.
    unfold Rsqr in *.
    destruct Hz as [<- | Hz].
    + assert (Ea : a * a = 0) by lra. assert (Eb : b * b = 0) by lra.
      apply Rmult_integral in Ea. apply Rmult_integral in Eb.
      unfold C0. f_equal; [destruct Ea | destruct Eb]; assumption.
    + apply IH; [lra | exact Hz].
  - intros H. replace (fold_right _ _ _) with 0; [apply sqrt_0 |].
    induction l as [| z l IH]; [reflexivity |].
    cbn [map fold_right]. rewrite <- IH by (intros; apply H; now right).
    rewrite (H z) by now left. unfold C0. cbn [fst snd]. ring.
Qed.

Lemma in_entries3 (x : tensor3) (b i j : nat) :
  (b < len3 x)%nat -> (i < rows3 x)%nat -> (j < cols3 x)%nat ->
  In (at3 x b i j) (entries3 x).
Proof.
  intros Hb Hi Hj. unfold entries3.
  apply in_flat_map. exists b. split; [apply in_seq; lia |].
  apply in_flat_map. exists i. split; [apply in_seq; lia |].
  apply in_map_iff. exists j. split; [reflexivity | apply in_seq; lia].
Qed.

Lemma entries3_inv (x : tensor3) (z : C) :
  In z (entries3 x) ->
  exists b i j,
    (b < len3 x)%nat /\ (i < rows3 x)%nat /\ (j < cols3 x)%nat
    /\ z = at3 x b i j.
Proof.
  unfold entries3. intros H.
  apply in_flat_map in H as (b & Hb & H). apply in_seq in Hb.
  apply in_flat_map in H as (i & Hi & H). apply in_seq in Hi.
  apply in_map_iff in H as (j & <- & Hj). apply in_seq in Hj.
  exists b, i, j. repeat split; lia.
Qed.

Lemma entries4_inv (x : tensor4) (z : C) :
  In z (entries4 x) ->
  exists b i j c,
    (b < len4 x)%nat /\ (i < rows4 x)%nat /\ (j < cols4 x)%nat
    /\ (c < coils4 x)%nat /\ z = at4 x b i j c.
Proof.
  unfold entries4. intros H.
  apply in_flat_map in H as (b & Hb & H). apply in_seq in Hb.
  apply in_flat_map in H as (i & Hi & H). apply in_seq in Hi.
  apply in_flat_map in H as (j & Hj & H). apply in_seq in Hj.
  apply in_map_iff in H as (c & <- & Hc). apply in_seq in Hc.
  exists b, i, j, c. repeat split; lia.
Qed.

(** The difference of two tensors of one shape *)
Lemma bsub4_same (a b : tensor4) :
  shape4 b = shape4 a ->
  exists d,
    bsub4 a b = Ok d /\ shape4 d = shape4 a
    /\ forall s i j c,
         (s < len4 a)%nat -> (i < rows4 a)%nat -> (j < cols4 a)%nat ->
         (c < coils4 a)%nat ->
         at4 d s i j c = Csub (at4 a s i j c) (at4 b s i j c).
Proof.
  unfold shape4. intros H. injection H as H0 H1 H2 H3.
  unfold bsub4. rewrite H0, H1, H2, H3, !bdim_same. cbn [rbind].
  eexists. split; [reflexivity |]. split; [reflexivity |].
  intros s i j c Hs Hi Hj Hc. cbn.
  now rewrite !bpos_inside by assumption.
Qed.

Lemma bsub3_same (a b : tensor3) :
  shape3 b = shape3 a ->
  exists d,
    bsub3 a b = Ok d /\ shape3 d = shape3 a
    /\ forall s i j,
         (s < len3 a)%nat -> (i < rows3 a)%nat -> (j < cols3 a)%nat ->
         at3 d s i j = Csub (at3 a s i j) (at3 b s i j).
Proof.
  unfold shape3. intros H. injection H as H0 H1 H2.
  unfold bsub3. rewrite H0, H1, H2, !bdim_same. cbn [rbind].
  eexists. split; [reflexivity |]. split; [reflexivity |].
  intros s i j Hs Hi Hj. cbn.
  now rewrite !bpos_inside by assumption.
Qed.

Lemma Csub_zero (z w : C) : Csub z w = C0 <-> w = z.
Proof.
  destruct z as [a b], w as [c d]. unfold Csub, C0. cbn [fst snd]. split.
  - intros H. injection H as H1 H2. f_equal; lra.
  - intros H. injection H as -> ->. f_equal; lra.
Qed.

(** The norm of a difference vanishes exactly when the tensors agree. *)
Lemma norm_diff4 (a b d : tensor4) :
  shape4 b = shape4 a -> bsub4 a b = Ok d ->
  (norm2 (entries4 d) = 0 <-> teq4 b a).
Proof.
  intros Hs E. destruct (bsub4_same Hs) as (d' & E' & Sd & Vd).
  rewrite E in E'. injection E' as <-.
  pose proof (@shape4_inv d _ _ _ _ Sd) as (D0 & D1 & D2 & D3).
  pose proof (@shape4_inv b _ _ _ _ Hs) as (B0 & B1 & B2 & B3).
  rewrite norm2_zero. split.
  - intros H. split; [exact Hs |].
    intros s i j c Hb Hi Hj Hc. apply Csub_zero.
    rewrite <- Vd by congruence. apply H.
    apply in_entries4; congruence.
  - intros [_ V] z Hz.
    apply entries4_inv in Hz as (s & i & j & c & Hb & Hi & Hj & Hc & ->).
    rewrite Vd by congruence. apply Csub_zero. apply V; congruence.
Qed.

Lemma norm_diff3 (a b d : tensor3) :
  shape3 b = shape3 a -> bsub3 a b = Ok d ->
  (norm2 (entries3 d) = 0 <-> teq3 b a).
Proof.
  intros Hs E. destruct (bsub3_same Hs) as (d' & E' & Sd & Vd).
  rewrite E in E'. injection E' as <-.
  pose proof (@shape3_inv d _ _ _ Sd) as (D0 & D1 & D2).
  pose proof (@shape3_inv b _ _ _ Hs) as (B0 & B1 & B2).
  rewrite norm2_zero. split.
  - intros H. split; [exact Hs |].
    intros s i j Hb Hi Hj. apply Csub_zero.
    rewrite <- Vd by congruence. apply H.
    apply in_entries3; congruence.
  - intros [_ V] z Hz.
    apply entries3_inv in Hz as (s & i & j & Hb & Hi & Hj & ->).
    rewrite Vd by congruence. apply Csub_zero. apply V; congruence.
Qed.

Lemma tdiv_finite (a b r : R) :
  0 <= a -> 0 <= b -> tdiv a b = Fin r -> b <> 0 /\ r = a / b /\ 0 <= r.
Proof.
  intros Ha Hb. unfold tdiv.
  destruct (Req_dec_T b 0) as [E | N].
  - destruct (Req_dec_T a 0); discriminate.
  - intros H. injection H as <-. split; [exact N |]. split; [reflexivity |].
    apply Rmult_le_pos; [exact Ha |]. left. apply Rinv_0_lt_compat. lra.
Qed.

Lemma tadd_finite (u v : tval) (r : R) :
  tadd u v = Fin r -> exists a b, u = Fin a /\ v = Fin b /\ r = a + b.
Proof.
  destruct u as [a | |], v as [b | |]; cbn; try discriminate.
  intros H. injection H as <-. exists a, b. repeat split.
Qed.

Lemma norm2_ones_nonzero (l : list C) : In C1 l -> norm2 l <> 0%R.
Proof.
  intros Hin H. rewrite norm2_zero in H. specialize (H _ Hin).
  unfold C0, C1 in H. injection H as H. lra.
Qed.

Lemma Ceq_dec (z w : C) : {z = w} + {z <> w}.
Proof.
  destruct z as [a b], w as [c d].
  destruct (Req_dec_T a c) as [H1 | H1]; [| right; congruence].
  destruct (Req_dec_T b d) as [H2 | H2]; [| right; congruence].
  left; congruence.
Qed.

(** The norm of a tensor with a non-zero entry, and that entry *)
Lemma norm2_nonzero (l : list C) :
  norm2 l <> 0%R -> exists z, In z l /\ z <> C0.
Proof.
  induction l as [| z l IH]; intros H.
  - exfalso. apply H. unfold norm2. cbn. apply sqrt_0.
  - destruct (Ceq_dec z C0) as [-> | N].
    + destruct IH as (w & Hw & Nw).
      * intros E. apply H. rewrite norm2_zero in *.
        intros w [<- | Hw]; [reflexivity | now apply E].
      * exists w. split; [right; exact Hw | exact Nw].
    + exists z. split; [left; reflexivity | exact N].
Qed.

(** The loss at the references themselves *)
Lemma loss_at_reference (y : tensor4) (x : tensor3) :
  norm2 (entries4 y) <> 0%R -> norm2 (entries3 x) <> 0%R ->
  MOIL2Loss y y x x = Ok (Fin 0).
Proof.
  intros Ny Nx. unfold MOIL2Loss.
  destruct (@bsub4_same y y eq_refl) as (dy & Ey & _).
  destruct (@bsub3_same x x eq_refl) as (dx & Ex & _).
  rewrite Ey. cbn [rbind]. rewrite Ex. cbn [rbind].
  rewrite (proj2 (@norm_diff4 y y dy eq_refl Ey)) by apply ExtFacts.teq4_refl.
  rewrite (proj2 (@norm_diff3 x x dx eq_refl Ex))
    by (split; [reflexivity | intros; reflexivity]).
  unfold tdiv.
  destruct (Req_dec_T (norm2 (entries4 y)) 0) as [? | _]; [contradiction |].
  destruct (Req_dec_T (norm2 (entries3 x)) 0) as [? | _]; [contradiction |].
  cbn [tadd]. do 2 f_equal. unfold Rdiv. ring.
Qed.

Lemma sens222_norm : norm2 (entries4 sens222) <> 0%R.
Proof.
  apply norm2_ones_nonzero.
  apply (@EntryFacts.in_entries4 sens222 0 0 0 0); cbn; lia.
Qed.

Lemma image22_norm : norm2 (entries3 image22) <> 0%R.
Proof.
  apply norm2_ones_nonzero.
  apply (@in_entries3 image22 0 0 0); cbn; lia.
Qed.

End LossFacts.

Import Loss LossFacts.

(** X29.  A loss that is a number is not negative, and both references
    have a non-zero entry: when [y_ref] or [x_recon] is all zero the loss is
    [inf] or [nan]. *)
Theorem MOIL2Loss_finite (y_ref y_recon : tensor4)
    (x_recon x_recon_new : tensor3) (r : R) :
  MOIL2Loss y_ref y_recon x_recon x_recon_new = Ok (Fin r) ->
  (0 <= r)%R
  /\ (exists b i j c,
        (b < len4 y_ref)%nat /\ (i < rows4 y_ref)%nat /\ (j < cols4 y_ref)%nat
        /\ (c < coils4 y_ref)%nat /\ at4 y_ref b i j c <> C0)
  /\ exists b i j,
       (b < len3 x_recon)%nat /\ (i < rows3 x_recon)%nat
       /\ (j < cols3 x_recon)%nat /\ at3 x_recon b i j <> C0.
Proof.
  unfold MOIL2Loss. intros H.
  destruct (bsub4 y_ref y_recon) as [dy |]; [| discriminate].
  cbn [rbind] in H.
  destruct (bsub3 x_recon x_recon_new) as [dx |]; [| discriminate].
  cbn [rbind] in H. injection H as H.
  apply tadd_finite in H as (a & b & Ha & Hb & ->).
  apply tdiv_finite in Ha as (Ny & _ & Pa); try apply norm2_nonneg.
  apply tdiv_finite in Hb as (Nx & _ & Pb); try apply norm2_nonneg.
  split; [lra |]. split.
  - apply norm2_nonzero in Ny as (z & Hz & Nz).
    apply entries4_inv in Hz as (s & i & j & c & Hs & Hi & Hj & Hc & ->).
    exists s, i, j, c. auto.
  - apply norm2_nonzero in Nx as (z & Hz & Nz).
    apply entries3_inv in Hz as (s & i & j & Hs & Hi & Hj & ->).
    exists s, i, j. auto.
Qed.

Lemma MOIL2Loss_finite_witness :
  MOIL2Loss sens222 sens222 image22 image22 = Ok (Fin 0) /\ (0 <= 0)%R.
Proof.
  pose proof (@loss_at_reference sens222 image22 sens222_norm image22_norm) as E.
  split; [exact E |].
  exact (proj1 (@MOIL2Loss_finite _ _ _ _ _ E)).
Defined.



(** ** The split and the test loader *)

Module LoaderFacts.

Import Loaders TestLoaders.

(** Full batches: [q] batches of size [bs] from a list of [q * bs + r]
    indices, [r < bs], the last [r] indices being dropped *)
Lemma batches_full (bs : nat) :
  (0 < bs)%nat ->
  forall q fuel r l,
    length l = (q * bs + r)%nat -> (r < bs)%nat -> (length l <= fuel)%nat ->
    concat (batches fuel bs true l) = firstn (q * bs) l
    /\ length (batches fuel bs true l) = q
    /\ Forall (fun b => length b = bs) (batches fuel bs true l).
Proof.
  intros Hbs. induction q as [| q IH]; intros fuel r l Hl Hr Hf.
  - cbn [Nat.mul Nat.add] in Hl. cbn [Nat.mul firstn].
    destruct fuel as [| fuel]; [cbn; auto |].
    cbn [batches]. destruct l as [| a l]; [cbn; auto |]. cbv zeta.
    replace (length (firstn bs (a :: l)) <? bs)%nat with true.
    + cbn. auto.
    + symmetry. apply Nat.ltb_lt. rewrite length_firstn. lia.
  - destruct fuel as [| fuel].
    { exfalso. cbn [Nat.mul] in Hl. lia. }
    destruct l as [| a l]; [cbn [length Nat.mul] in Hl; lia |].
    cbn [batches]. cbv zeta.
    assert (Hlen : length (firstn bs (a :: l)) = bs).
    { rewrite length_firstn. cbn [Nat.mul] in Hl. lia. }
    rewrite Hlen, Nat.ltb_irrefl. cbn [andb].
    destruct (IH fuel r (skipn bs (a :: l))) as (I1 & I2 & I3).
    + rewrite length_skipn. cbn [Nat.mul] in Hl. lia.
    + exact Hr.
    + rewrite length_skipn. cbn [length] in *. lia.
    + cbn [concat length]. rewrite I1. split; [| split].
      * replace (S q * bs)%nat with (bs + q * bs)%nat by (cbn; lia).
        rewrite <- (firstn_skipn bs (a :: l)) at 3.
        rewrite firstn_app, Hlen.
        replace (bs + q * bs - bs)%nat with (q * bs)%nat by lia.
        rewrite (@firstn_all2 _ (bs + q * bs) (firstn bs (a :: l)))
          by (rewrite Hlen; lia).
        reflexivity.
      * now rewrite I2.
      * constructor; assumption.
Qed.

Lemma list_slice_prefix {A : Type} (l : list A) (a : Z) :
  (0 <= a)%Z -> list_slice l 0 a = firstn (Z.to_nat a) l.
Proof.
  intros Ha. unfold list_slice, Py.adjust.
  change (0 <? 0)%Z with false. cbv iota.
  destruct (a <? 0)%Z eqn:E; [apply Z.ltb_lt in E; lia |].
  replace (Z.min 0 (Z.of_nat (length l))) with 0%Z by lia.
  change (Z.to_nat 0) with 0%nat. cbn [skipn]. rewrite Z.sub_0_r.
  destruct (Z.le_ge_cases a (Z.of_nat (length l))) as [L | L].
  - now rewrite Z.min_l by exact L.
  - rewrite Z.min_r by exact L. rewrite Nat2Z.id.
    rewrite !firstn_all2 by lia. reflexivity.
Qed.

Lemma list_slice_suffix {A : Type} (l : list A) (a : Z) :
  (0 <= a <= Z.of_nat (length l))%Z ->
  list_slice l a (a + (Z.of_nat (length l) - a)) = skipn (Z.to_nat a) l.
Proof.
  intros Ha. unfold list_slice, Py.adjust.
  destruct (a <? 0)%Z eqn:E; [apply Z.ltb_lt in E; lia |].
  destruct (a + (Z.of_nat (length l) - a) <? 0)%Z eqn:E';
    [apply Z.ltb_lt in E'; lia |].
  rewrite (Z.min_l a) by lia.
  apply firstn_all2. rewrite length_skipn. lia.
Qed.

Lemma NoDup_app_disjoint {A : Type} (l1 l2 : list A) (a : A) :
  NoDup (l1 ++ l2) -> In a l1 -> ~ In a l2.
Proof.
  intros H H1 H2. apply in_split in H1 as (u & v & ->).
  rewrite <- app_assoc in H. cbn [app] in H.
  apply NoDup_remove_2 in H. apply H.
  apply in_or_app. right. apply in_or_app. right. exact H2.
Qed.

Lemma firstn_seq (k s n : nat) : firstn k (seq s n) = seq s (Nat.min k n).
Proof.
  revert s n. induction k as [| k IH]; intros s [| n]; cbn [firstn seq Nat.min];
    try reflexivity.
  now rewrite IH.
Qed.

End LoaderFacts.

Import TestLoaders LoaderFacts.

(** X27.  For fewer than 2^49 slices the split is a partition: the
    training indices followed by the validation indices are the permutation
    drawn by the generator, every slice is in one of the two subsets and
    none in both, neither subset repeats a slice, the validation subset is
    not empty once there is a slice, and the training subset is not empty
    once there are two. *)
Theorem split_is_partition (n_slices : nat) (perm : list nat) :
  (Z.of_nat n_slices < 2 ^ 49)%Z -> Permutation perm (seq 0 n_slices) ->
  exists train valid,
    prepare_train_loaders n_slices perm = Ok (train, valid)
    /\ train ++ valid = perm
    /\ (forall i, (i < n_slices)%nat -> In i train \/ In i valid)
    /\ (forall i, In i train -> ~ In i valid)
    /\ NoDup train /\ NoDup valid
    /\ ((1 <= n_slices)%nat -> valid <> [])
    /\ ((2 <= n_slices)%nat -> train <> []).
Proof.
  intros Hn Hp.
  assert (Hl : length perm = n_slices).
  { rewrite (Permutation_length Hp). apply length_seq. }
  unfold prepare_train_loaders.
  rewrite split_sizes_value by lia. cbn [rbind fst snd].
  remember (Z.of_nat n_slices) as n eqn:En.
  remember (4 * n / 5)%Z as t eqn:Et.
  assert (Ht : (0 <= t <= n)%Z).
  { subst t. split; [apply Z.div_pos; lia |].
    apply Z.div_le_upper_bound; lia. }
  unfold random_split. rewrite <- En.
  replace (t + (n - t) =? n)%Z with true by (symmetry; apply Z.eqb_eq; lia).
  rewrite list_slice_prefix by lia.
  assert (En' : n = Z.of_nat (length perm)) by congruence.
  rewrite En'. rewrite list_slice_suffix by lia.
  exists (firstn (Z.to_nat t) perm), (skipn (Z.to_nat t) perm).
  split; [reflexivity |].
  assert (Happ : firstn (Z.to_nat t) perm ++ skipn (Z.to_nat t) perm = perm)
    by apply firstn_skipn.
  assert (Hnd : NoDup perm).
  { apply (Permutation_NoDup (Permutation_sym Hp)). apply seq_NoDup. }
  rewrite <- Happ in Hnd.
  split; [exact Happ |].
  split.
  { intros i Hi. apply in_app_or. rewrite Happ.
    apply (Permutation_in _ (Permutation_sym Hp)). apply in_seq. lia. }
  split; [intros i; now apply NoDup_app_disjoint |].
  split; [exact (NoDup_app_remove_r _ _ Hnd) |].
  split; [exact (NoDup_app_remove_l _ _ Hnd) |].
  assert (Hlt : (Z.of_nat (length (firstn (Z.to_nat t) perm)) = t)%Z).
  { rewrite length_firstn. lia. }
  assert (Hlv : (Z.of_nat (length (skipn (Z.to_nat t) perm)) = n - t)%Z).
  { rewrite length_skipn. lia. }
  assert (Hd : (5 * t <= 4 * n < 5 * t + 5)%Z).
  { subst t. pose proof (Z.mul_div_le (4 * n) 5 ltac:(lia)).
    pose proof (Z.mul_succ_div_gt (4 * n) 5 ltac:(lia)). lia. }
  split.
  - intros H1 E. rewrite E in Hlv. cbn [length] in Hlv. lia.
  - intros H2 E. rewrite E in Hlt. cbn [length] in Hlt. lia.
Qed.

Lemma split_is_partition_witness :
  exists train valid,
    prepare_train_loaders 7 [3; 0; 6; 1; 5; 2; 4]%nat = Ok (train, valid)
    /\ train ++ valid = [3; 0; 6; 1; 5; 2; 4]%nat
    /\ (forall i, In i train -> ~ In i valid).
Proof.
  destruct (@split_is_partition 7 [3; 0; 6; 1; 5; 2; 4]%nat)
    as (train & valid & E & A & _ & D & _).
  - reflexivity.
  - apply NoDup_Permutation;
      [repeat constructor; cbn; intuition lia | apply seq_NoDup |].
    intros x. cbn. intuition lia.
  - exists train, valid. auto.
Defined.

Module TestLoaderFacts.

Import String TestLoaders LoaderFacts.
Local Open Scope string_scope.

(** X28.  With a positive batch size and a non-negative number of workers
    in [params], [prepare_test_loaders] returns the two dictionaries, and one
    pass over the test loader yields [n // batch_size] batches of exactly
    [batch_size] indices, in order from 0: the last [n mod batch_size] items
    of the test set are never served. *)
Theorem test_loader_drops_tail (n : nat) (params : list (string * Z))
    (bs nw : Z) :
  dict_get params "batch_size" = Returns bs ->
  dict_get params "num_workers" = Returns nw ->
  (0 < bs)%Z -> (0 <= nw)%Z ->
  exists dl,
    prepare_test_loaders n params
    = Returns ([("test_loader", dl)], [("test_dataset", n)])
    /\ List.concat (epoch dl) = seq 0 (n / Z.to_nat bs * Z.to_nat bs)
    /\ List.length (epoch dl) = (n / Z.to_nat bs)%nat
    /\ Forall (fun b => List.length b = Z.to_nat bs) (epoch dl).
Proof.
  intros Hb Hw Hbs Hnw. unfold prepare_test_loaders.
  rewrite Hb. cbn [obind]. rewrite Hw. cbn [obind].
  unfold sequential_loader.
  replace (nw <? 0)%Z with false by (symmetry; apply Z.ltb_ge; lia).
  replace (bs <=? 0)%Z with false by (symmetry; apply Z.leb_gt; lia).
  cbn [obind]. eexists. split; [reflexivity |].
  unfold epoch. cbn [dl_len dl_batch_size dl_drop_last].
  remember (Z.to_nat bs) as b eqn:Eb.
  assert (Hpos : (0 < b)%nat) by lia.
  destruct (@batches_full b Hpos (n / b) n (n mod b) (seq 0 n))
    as (B1 & B2 & B3).
  - rewrite length_seq. rewrite (Nat.div_mod_eq n b) at 1. lia.
  - apply Nat.mod_upper_bound. lia.
  - rewrite length_seq. lia.
  - rewrite B1, firstn_seq.
    split; [| split; [exact B2 | exact B3]].
    f_equal. apply Nat.min_l.
    rewrite (Nat.div_mod_eq n b) at 2. lia.
Qed.

Lemma test_loader_drops_tail_witness :
  exists dl,
    prepare_test_loaders 7 [("batch_size", 3%Z); ("num_workers", 0%Z)]
    = Returns ([("test_loader", dl)], [("test_dataset", 7%nat)])
    /\ List.concat (epoch dl) = [0; 1; 2; 3; 4; 5]%nat.
Proof.
  destruct (@test_loader_drops_tail 7
              [("batch_size", 3%Z); ("num_workers", 0%Z)] 3 0)
    as (dl & E & C & _); [reflexivity | reflexivity | lia | lia |].
  exists dl. split; [exact E | exact C].
Defined.

End TestLoaderFacts.

(** ** The normalisation of the k-space *)

Import GaussFacts LossFacts Complex64.


(** The same for the entry 1+3j, with every quotient but the one by the
    squared modulus. *)
Lemma normalised_max_of_1_3j :
  Forall (fun alg : modulus * quotient * modulus =>
            let '(ma, qa, mb) := alg in
            normalised_max ma qa mb [(of_int 1, of_int 3)] = Ok below_one)
         (filter (fun alg => match snd (fst alg) with
                             | BySquares => false
                             | _ => true
                             end) algorithms).
Proof.
  unfold algorithms. cbn [flat_map map app filter fst snd].
  repeat constructor; vm_compute; reflexivity.
Qed.



